(** * Disposable-email domain engine: Bloom filter, suffix trie, result cache,
    domain checker and classification facade.

    A shallow embedding of the TypeScript sources of the client library,
    followed by the properties stated for them.  Every definition names the
    source file and the lines it is taken from.

    Conventions.
    - A JavaScript [number] that only ever holds an integer is a [Z]; the
      32-bit conversions that [<<], [^], [&] and [Math.imul] perform are
      written out ([Js.toInt32]).
    - A JavaScript string is a [string]: its characters are the code units
      [charCodeAt] returns (8-bit ones here).
    - A [Set<string>] is a [gset string]; a [Map], whose iteration order
      the sources rely on (the LRU cache, the domain cache), is an
      association list in insertion order.
    - [throw] is a value of a sum type; a loop that the source can fail to
      leave is run on fuel and returns [None] when the fuel runs out.
    - [async] functions that never wait for anything outside are plain
      functions; [CacheManager.get], which does, is a transition system. *)

From Stdlib Require Import ZArith List String Ascii Lia Bool.
From stdpp Require Import base option list strings gmap.

#[local] Set Warnings "-register-all".
#[local] Open Scope Z_scope.

(* ===================================================================== *)
(** * JavaScript primitives used by the sources *)
(* ===================================================================== *)

Module Js.

(** [ToInt32]: reduce modulo 2^32 into [-2^31, 2^31). *)
Definition toInt32 (x : Z) : Z := (x + 2 ^ 31) mod 2 ^ 32 - 2 ^ 31.

(** [a << n] on numbers holding integers. *)
Definition shl (a n : Z) : Z := toInt32 (Z.shiftl (toInt32 a) (n mod 32)).

(** [a ^ b], [a & b], [a | b]. *)
Definition xor (a b : Z) : Z := toInt32 (Z.lxor (toInt32 a) (toInt32 b)).
Definition and (a b : Z) : Z := toInt32 (Z.land (toInt32 a) (toInt32 b)).
Definition or (a b : Z) : Z := toInt32 (Z.lor (toInt32 a) (toInt32 b)).

(** [Math.imul a b]. *)
Definition imul (a b : Z) : Z := toInt32 (toInt32 a * toInt32 b).

(** [a % b] for [b <> 0]: the remainder has the sign of the dividend. *)
Definition rem (a b : Z) : Z := Z.rem a b.

(** [Math.ceil (a / b)] for integers [a] and [b > 0]. *)
Definition ceilDiv (a b : Z) : Z := (a + b - 1) / b.

(** [s.charCodeAt(j)] for every [j], in order. *)
Definition charCode (c : ascii) : Z := Z.of_N (N_of_ascii c).

Fixpoint charCodes (s : string) : list Z :=
  match s with
  | EmptyString => []
  | String c rest => charCode c :: charCodes rest
  end.

(** What a [Uint8Array] keeps of a stored number. *)
Definition toUint8 (x : Z) : Z := x mod 256.

(** [s.length]. *)
Definition len (s : string) : Z := Z.of_nat (String.length s).

(** The string without its first [n] characters, and its first [n] ones. *)
Fixpoint dropChars (n : nat) (s : string) : string :=
  match n, s with
  | O, _ => s
  | S n', EmptyString => EmptyString
  | S n', String _ rest => dropChars n' rest
  end.

Fixpoint takeChars (n : nat) (s : string) : string :=
  match n, s with
  | O, _ => EmptyString
  | S n', EmptyString => EmptyString
  | S n', String c rest => String c (takeChars n' rest)
  end.

(** [s.slice(start, end)] and [s.slice(start)] for [0 <= start] and
    [0 <= end], the only way the sources call them. *)
Definition slice (s : string) (start stop : Z) : string :=
  takeChars (Z.to_nat (stop - start)) (dropChars (Z.to_nat start) s).

Definition sliceFrom (s : string) (start : Z) : string := dropChars (Z.to_nat start) s.

(** The first position of [c] in [s], counted from [i]. *)
Fixpoint findChar (c : ascii) (s : string) (i : nat) : option nat :=
  match s with
  | EmptyString => None
  | String a rest => if Ascii.eqb a c then Some i else findChar c rest (S i)
  end.

(** [s.indexOf(c, from)]: the first position at or after [from] (a negative
    [from] counts as 0), or -1. *)
Definition indexOf (s : string) (c : ascii) (from : Z) : Z :=
  let start := Z.to_nat from in
  match findChar c (dropChars start s) start with
  | Some i => Z.of_nat i
  | None => -1
  end.

(** The last position of [c] among the first [n] characters of [s]. *)
Fixpoint findLastChar (c : ascii) (s : string) (i n : nat) {struct n} : option nat :=
  match n, s with
  | S n', String a rest =>
      match findLastChar c rest (S i) n' with
      | Some j => Some j
      | None => if Ascii.eqb a c then Some i else None
      end
  | _, _ => None
  end.

(** [s.lastIndexOf(c, from)]: the last position at or before [from], or -1.
    [from] is clamped to [0 .. s.length], so a negative [from] still looks
    at position 0. *)
Definition lastIndexOf (s : string) (c : ascii) (from : Z) : Z :=
  match findLastChar c s 0 (S (Z.to_nat from)) with
  | Some i => Z.of_nat i
  | None => -1
  end.

(** [s.split(c)]: never empty. *)
Fixpoint split (c : ascii) (s : string) : list string :=
  match s with
  | EmptyString => [EmptyString]
  | String a rest =>
      if Ascii.eqb a c then EmptyString :: split c rest
      else match split c rest with
           | [] => [String a EmptyString]
           | p :: ps => String a p :: ps
           end
  end.

(** [parts.join(sep)]. *)
Fixpoint join (sep : string) (parts : list string) : string :=
  match parts with
  | [] => EmptyString
  | [p] => p
  | p :: rest => (p ++ sep ++ join sep rest)%string
  end.

(** [s.toLowerCase()] on 8-bit code units: A-Z and the upper-case letters
    of Latin-1 (0xC0-0xDE without the multiplication sign 0xD7). *)
Definition lowerChar (c : ascii) : ascii :=
  let n := N_of_ascii c in
  if ((65 <=? n) && (n <=? 90))%N
     || ((192 <=? n) && (n <=? 222) && negb (n =? 215))%N
  then ascii_of_N (n + 32) else c.

Fixpoint toLowerCase (s : string) : string :=
  match s with
  | EmptyString => EmptyString
  | String c rest => String (lowerChar c) (toLowerCase rest)
  end.

(** A [Map<string, V>] in insertion order: [get], [has], [set] (which keeps
    the position of a key that is present and appends a new one) and
    [delete]. *)
Fixpoint mapGet {V} (k : string) (m : list (string * V)) : option V :=
  match m with
  | [] => None
  | (k', v) :: rest => if String.eqb k' k then Some v else mapGet k rest
  end.

Definition mapHas {V} (k : string) (m : list (string * V)) : bool :=
  match mapGet k m with Some _ => true | None => false end.

Fixpoint mapSet {V} (k : string) (v : V) (m : list (string * V)) : list (string * V) :=
  match m with
  | [] => [(k, v)]
  | (k', v') :: rest =>
      if String.eqb k' k then (k, v) :: rest else (k', v') :: mapSet k v rest
  end.

Fixpoint mapDelete {V} (k : string) (m : list (string * V)) : list (string * V) :=
  match m with
  | [] => []
  | (k', v') :: rest =>
      if String.eqb k' k then rest else (k', v') :: mapDelete k rest
  end.

(** Whether [c] occurs in [s]: [s.includes(c)]. *)
Fixpoint hasChar (c : ascii) (s : string) : bool :=
  match s with
  | EmptyString => false
  | String a rest => Ascii.eqb a c || hasChar c rest
  end.

End Js.

(* ===================================================================== *)
(** * Bloom filter over a [Uint8Array]
    (src/src/client/email-validator.ts, class BloomFilter, lines 993-1103) *)
(* ===================================================================== *)

Module BloomFilter.

(** The fields the constructor computes with floating point, [size] and
    [numHashFunctions], are the data of an instance; [byteSize] and
    [hashSeeds] are read-only and derived from them (lines 1004-1015).
    [numHashFunctions] is a whole number or NaN: [numHashFunctions] here is
    the number of rounds the loops [i < this.numHashFunctions] make, none
    for NaN, and [numHashFunctionsNaN] says that the number is NaN.  A
    [size] that is NaN makes [numHashFunctions] NaN as well, no hash is
    then computed and the array is empty: such an instance is the one of
    [newForNoElements] below. *)
Record t := Build {
  size : Z;
  numHashFunctions : nat;
  numHashFunctionsNaN : bool;
  bitArray : list Z
}.

Definition bitsPerByte : Z := 8.

Definition byteSize (b : t) : Z := Js.ceilDiv (size b) bitsPerByte.

(** [generateHashSeeds] (lines 1009-1015): [i * 0x9e3779b9]. *)
Definition generateHashSeeds (k : nat) : list Z :=
  map (fun i : nat => Z.of_nat i * 0x9e3779b9) (seq 0 k).

Definition hashSeeds (b : t) : list Z := generateHashSeeds (numHashFunctions b).

(** The constructor (lines 1001-1007), after [size] and [numHashFunctions]
    have been computed, [numHashFunctions] being a number: a zeroed array
    of [byteSize] bytes. *)
Definition new (m : Z) (k : nat) : t :=
  Build m k false (replicate (Z.to_nat (Js.ceilDiv m bitsPerByte)) 0).


(** One round of the loop of [hash] (lines 1021-1028). *)
Definition hashStep (h : Z * Z) (char : Z) : Z * Z :=
  let '(hash1, hash2) := h in
  let hash1 := Js.xor hash1 char in
  let hash1 := Js.imul hash1 0x01000193 in
  let hash2 := Js.shl hash2 5 - hash2 + char in
  let hash2 := Js.and hash2 hash2 in
  (hash1, hash2).

(** [hash] (lines 1017-1032). *)
Definition hash (b : t) (str : string) (seed : Z) : Z :=
  let '(hash1, hash2) := fold_left hashStep (Js.charCodes str) (0x811c9dc5, seed) in
  Z.abs (Js.rem (hash1 + hash2) (size b)).

(** The bit indices one item touches: [hash(item, hashSeeds[i])] for
    [i = 0 .. numHashFunctions - 1]. *)
Definition bitIndices (b : t) (item : string) : list Z :=
  map (hash b item) (hashSeeds b).

(** [bitArray[byteIndex] |= 1 << bitPosition] (lines 1037-1039).  A write
    past the end of a typed array is dropped, as list insertion does. *)
Definition setBit (arr : list Z) (bitIndex : Z) : list Z :=
  let byteIndex := Z.to_nat (bitIndex / bitsPerByte) in
  let bitPosition := bitIndex mod bitsPerByte in
  match arr !! byteIndex with
  | Some byte => <[byteIndex := Js.toUint8 (Z.lor byte (Z.shiftl 1 bitPosition))]> arr
  | None => arr
  end.

(** [(bitArray[byteIndex] & (1 << bitPosition)) === 0] negated (line 1049).
    A read past the end gives [undefined], and [undefined & x] is 0. *)
Definition testBit (arr : list Z) (bitIndex : Z) : bool :=
  let byteIndex := Z.to_nat (bitIndex / bitsPerByte) in
  let bitPosition := bitIndex mod bitsPerByte in
  match arr !! byteIndex with
  | Some byte => negb (Z.land byte (Z.shiftl 1 bitPosition) =? 0)
  | None => false
  end.

(** [add] (lines 1034-1041). *)
Definition add (b : t) (item : string) : t :=
  Build (size b) (numHashFunctions b) (numHashFunctionsNaN b)
        (fold_left setBit (bitIndices b item) (bitArray b)).

(** [contains] (lines 1043-1054). *)
Definition contains (b : t) (item : string) : bool :=
  forallb (testBit (bitArray b)) (bitIndices b item).

(** [clear] (lines 1063-1065). *)
Definition clear (b : t) : t :=
  Build (size b) (numHashFunctions b) (numHashFunctionsNaN b)
        (map (fun _ => 0) (bitArray b)).





(** What the constructor establishes and every method keeps: the array
    has [byteSize] bytes, and there is at least one bit unless no hash
    function is ever evaluated. *)
Definition wf (b : t) : Prop :=
  Z.of_nat (length (bitArray b)) = byteSize b /\
  (0 < size b \/ numHashFunctions b = 0%nat).

(** A sequence of [add] calls. *)
Definition addAll (b : t) (items : list string) : t := fold_left add items b.

End BloomFilter.

(* ===================================================================== *)
(** * Bloom filter over a [boolean[]]
    (src/src/client/bloom-filter.ts, class BloomFilter, lines 4-60) *)
(* ===================================================================== *)

Module ArrayBloomFilter.

Record t := Build {
  size : Z;
  numHashFunctions : nat;
  bitArray : list bool
}.

(** The constructor (lines 10-15), after [size] and [numHashFunctions] have
    been computed: [new Array(size).fill(false)]. *)
Definition new (m : Z) (k : nat) : t := Build m k (replicate (Z.to_nat m) false).

(** The closure number [i] of [generateHashFunctions] (lines 20-26). *)
Definition hashFunction (b : t) (i : nat) (str : string) : Z :=
  Z.abs (fold_left
           (fun hash char => Js.rem (Js.shl hash 5 + hash + char + Z.of_nat i) (size b))
           (Js.charCodes str) 0).

(** The indices one item touches, in the order of [hashFunctions]. *)
Definition indices (b : t) (item : string) : list Z :=
  map (fun i => hashFunction b i item) (seq 0 (numHashFunctions b)).

(** [bitArray[index] = true] (line 34).  An assignment past the end of a
    JavaScript array extends it; the holes it leaves read as [undefined],
    which is falsy like [false]. *)
Definition setTrue (arr : list bool) (index : Z) : list bool :=
  let i := Z.to_nat index in
  if (i <? length arr)%nat then <[i := true]> arr
  else arr ++ replicate (i - length arr) false ++ [true].

(** [bitArray[index]] read for its truth value (line 41). *)
Definition isSet (arr : list bool) (index : Z) : bool :=
  default false (arr !! Z.to_nat index).

(** [add] (lines 31-36). *)
Definition add (b : t) (item : string) : t :=
  Build (size b) (numHashFunctions b) (fold_left setTrue (indices b item) (bitArray b)).

(** [contains] (lines 38-46). *)
Definition contains (b : t) (item : string) : bool :=
  forallb (isSet (bitArray b)) (indices b item).

(** [clear] (lines 48-50). *)
Definition clear (b : t) : t :=
  Build (size b) (numHashFunctions b) (map (fun _ => false) (bitArray b)).

(** There is at least one bit unless no hash function is ever evaluated. *)
Definition wf (b : t) : Prop := 0 < size b \/ numHashFunctions b = 0%nat.

Definition addAll (b : t) (items : list string) : t := fold_left add items b.

End ArrayBloomFilter.

(* ===================================================================== *)
(** * Suffix trie *)
(* ===================================================================== *)

Module Trie.

(** [TrieNode] (src/src/client/trie-index.ts lines 4-9, src/unnamed/part_002
    lines 250-255).  The [metadata] object never receives an entry in any
    of the sources and is left out. *)
Inductive TrieNode := Node {
  children : list (string * TrieNode);
  isEndOfDomain : bool;
  source : string
}.

(** [new TrieNode()]. *)
Definition newNode : TrieNode := Node [] false "".

(** What [search] returns. *)
Inductive MatchType := exact | subdomain.

Record SearchResult := mkSearchResult {
  found : bool;
  matchType : MatchType;
  confidence : Z;
  matchSource : string
}.

(** The loop of [search] (trie-index.ts lines 50-67, part_002 lines
    329-347) from position [i] on: [parts] are the labels still to read, so
    [i === parts.length - 1] holds when one label is left. *)
Fixpoint searchLoop (parts : list string) (currentNode : TrieNode)
    (exactMatch subdomainMatch : bool) (src : string) : bool * bool * string :=
  match parts with
  | [] => (exactMatch, subdomainMatch, src)
  | part :: rest =>
      match Js.mapGet part (children currentNode) with
      | Some childNode =>
          if isEndOfDomain childNode then
            match rest with
            | [] => searchLoop rest childNode true subdomainMatch (source childNode)
            | _ => searchLoop rest childNode exactMatch true (source childNode)
            end
          else searchLoop rest childNode exactMatch subdomainMatch src
      | None => (exactMatch, subdomainMatch, src)
      end
  end.

(** The end of [search] (trie-index.ts lines 69-75, part_002 lines 349-355). *)
Definition searchParts (parts : list string) (root : TrieNode) : SearchResult :=
  let '(exactMatch, subdomainMatch, src) := searchLoop parts root false false "" in
  if exactMatch then mkSearchResult true exact 100 src
  else if subdomainMatch then mkSearchResult true subdomain 85 src
  else mkSearchResult false exact 0 "".

(** [getStats().nodeCount] (part_002 lines 414-429): every node reachable
    from the root, the root included. *)
Fixpoint nodeCount (node : TrieNode) : nat :=
  match node with
  | Node ch _ _ =>
      S ((fix go (l : list (string * TrieNode)) : nat :=
            match l with
            | [] => O
            | (_, child) :: rest => (nodeCount child + go rest)%nat
            end) ch)
  end.

(** The terminal nodes of a trie: for each one the labels from the root
    down to it, and its [source]. *)
Fixpoint terminals (node : TrieNode) : list (list string * string) :=
  match node with
  | Node ch e src =>
      (if e then [([], src)] else []) ++
      (fix go (l : list (string * TrieNode)) : list (list string * string) :=
         match l with
         | [] => []
         | (label, child) :: rest =>
             map (fun t => (label :: fst t, snd t)) (terminals child) ++ go rest
         end) ch
  end.

(** Keys of a [Map] are distinct, at every node. *)
Fixpoint uniqueKeys (node : TrieNode) : Prop :=
  match node with
  | Node ch _ _ =>
      NoDup (map fst ch) /\
      (fix go (l : list (string * TrieNode)) : Prop :=
         match l with
         | [] => True
         | (_, child) :: rest => uniqueKeys child /\ go rest
         end) ch
  end.

(** The nodes below the children [ch]. *)
Definition sumNodes (ch : list (string * TrieNode)) : nat :=
  list_sum (map (fun p => nodeCount (snd p)) ch).

(** The terminal nodes below the children [ch], with their paths. *)
Definition childTerminals (ch : list (string * TrieNode)) : list (list string * string) :=
  flat_map (fun p => map (fun t => (fst p :: fst t, snd t)) (terminals (snd p))) ch.

(** The node the labels [parts] lead to from [node], if there is one. *)
Fixpoint nodeAt (parts : list string) (node : TrieNode) : option TrieNode :=
  match parts with
  | [] => Some node
  | part :: rest =>
      match Js.mapGet part (children node) with
      | Some childNode => nodeAt rest childNode
      | None => None
      end
  end.

(** The source recorded at the end of the path [parts], when that path
    leads to a terminal node. *)
Definition terminalAt (parts : list string) (node : TrieNode) : option string :=
  match nodeAt parts node with
  | Some c => if isEndOfDomain c then Some (source c) else None
  | None => None
  end.

(** The proper, non-empty prefixes of [parts], longest first. *)
Fixpoint properPrefixes (parts : list string) : list (list string) :=
  match parts with
  | [] => []
  | part :: rest =>
      match rest with
      | [] => []
      | _ => map (cons part) (properPrefixes rest) ++ [[part]]
      end
  end.

(** The first source [lookup] finds among [candidates]. *)
Fixpoint firstFound {A} (lookup : A -> option string) (candidates : list A)
    : option string :=
  match candidates with
  | [] => None
  | c :: rest =>
      match lookup c with
      | Some s => Some s
      | None => firstFound lookup rest
      end
  end.

End Trie.

(** ** [TrieIndex] of src/src/client/trie-index.ts *)

Module TrieIndex.
Import Trie.

(** [domain.split(".").reverse()] (lines 21 and 44). *)
Definition reverseParts (domain : string) : list string := rev (Js.split "." domain).

(** The loop and the two final assignments of [insert] (lines 24-32), on
    the node [currentNode] and the labels still to read. *)
Fixpoint insertParts (parts : list string) (src : string) (currentNode : TrieNode)
    : TrieNode :=
  match parts with
  | [] => Node (children currentNode) true src
  | part :: rest =>
      let ch :=
        if Js.mapHas part (children currentNode) then children currentNode
        else Js.mapSet part newNode (children currentNode) in
      match Js.mapGet part ch with
      | Some childNode =>
          Node (Js.mapSet part (insertParts rest src childNode) ch)
               (isEndOfDomain currentNode) (source currentNode)
      | None => currentNode
      end
  end.

(** [insert] (lines 20-33), as a function of the root. *)
Definition insert (root : TrieNode) (domain src : string) : TrieNode :=
  insertParts (reverseParts domain) src root.

(** [search] (lines 38-76). *)
Definition search (root : TrieNode) (domain : string) : SearchResult :=
  searchParts (reverseParts domain) root.

(** [clear] (lines 81-83). *)
Definition clear (root : TrieNode) : TrieNode := newNode.

(** The source [root] records for [domain], if [domain] was inserted. *)
Definition stored (root : TrieNode) (domain : string) : option string :=
  terminalAt (reverseParts domain) root.

End TrieIndex.

(** ** [TrieIndex] of src/unnamed/part_002, with the node pool *)

Module PooledTrieIndex.
Import Trie.

(** The module-level [nodePool] (line 228), a stack: its top is the head
    of the list. *)
Definition Pool := list TrieNode.

(** [getPooledNode] (lines 229-239): the node handed out is reset, so it is
    an empty node whether it is recycled or new. *)
Definition getPooledNode (nodePool : Pool) : TrieNode * Pool :=
  match nodePool with
  | node :: rest => (Node [] false "", rest)
  | [] => (newNode, [])
  end.

(** [returnNodeToPool] (lines 241-245). *)
Definition returnNodeToPool (node : TrieNode) (nodePool : Pool) : Pool :=
  if Z.of_nat (length nodePool) <? 10000 then node :: nodePool else nodePool.

(** [clearNode] (lines 403-409): the pool after every node below [node]
    has been returned to it, children first.  A returned node has lost its
    children and still carries its flag and source, which [getPooledNode]
    resets. *)
Fixpoint clearNode (node : TrieNode) (nodePool : Pool) : Pool :=
  match node with
  | Node ch _ _ =>
      (fix go (l : list (string * TrieNode)) (pool : Pool) : Pool :=
         match l with
         | [] => pool
         | (_, child) :: rest =>
             go rest
                (returnNodeToPool (Node [] (isEndOfDomain child) (source child))
                                  (clearNode child pool))
         end) ch nodePool
  end.

(** [clear] (lines 398-401). *)
Definition clear (root : TrieNode) (nodePool : Pool) : TrieNode * Pool :=
  (newNode, clearNode root nodePool).

(** Whether the first character of [domain] is the separator. *)
Definition leadingDot (domain : string) : bool :=
  match domain with
  | String c _ => Ascii.eqb c "."
  | EmptyString => false
  end.

(** The [while] loop of [splitDomainReverse] (lines 300-304).  It is left
    only when [lastIndexOf] answers -1; [None] is the loop still running
    when the fuel is used up. *)
Fixpoint splitLoop (fuel : nat) (domain : string) (parts : list string)
    (currentIndex dotIndex : Z) : option (list string * Z) :=
  match fuel with
  | O => None
  | S fuel' =>
      if dotIndex =? -1 then Some (parts, currentIndex)
      else splitLoop fuel' domain
             (parts ++ [Js.slice domain (dotIndex + 1) currentIndex])
             dotIndex (Js.lastIndexOf domain "." (dotIndex - 1))
  end.

(** [splitDomainReverse] (lines 291-311) on a given amount of fuel. *)
Definition splitDomainReverseFuel (fuel : nat) (domain : string) (lastDotIndex : Z)
    : option (list string) :=
  if lastDotIndex =? -1 then Some [domain]
  else
    match splitLoop fuel domain [] (Js.len domain) lastDotIndex with
    | Some (parts, currentIndex) =>
        Some (if 0 <? currentIndex
              then parts ++ [Js.slice domain 0 currentIndex] else parts)
    | None => None
    end.

(** [splitDomainReverse(domain, domain.lastIndexOf("."))] as the methods
    call it (lines 269-270, 322-323, 378-379).  One round per character and
    one more are enough whenever the loop is left at all
    ([splitDomainReverse_None] below), so [None] is a call that does not
    return. *)
Definition splitDomainReverse (domain : string) : option (list string) :=
  splitDomainReverseFuel (S (String.length domain)) domain
    (Js.lastIndexOf domain "." (Js.len domain)).

(** The loop and the two final assignments of [insert] (lines 273-285). *)
Fixpoint insertParts (parts : list string) (src : string) (currentNode : TrieNode)
    (nodePool : Pool) : TrieNode * Pool :=
  match parts with
  | [] => (Node (children currentNode) true src, nodePool)
  | part :: rest =>
      match Js.mapGet part (children currentNode) with
      | Some childNode =>
          let '(child', pool') := insertParts rest src childNode nodePool in
          (Node (Js.mapSet part child' (children currentNode))
                (isEndOfDomain currentNode) (source currentNode), pool')
      | None =>
          let '(childNode, pool1) := getPooledNode nodePool in
          let '(child', pool') := insertParts rest src childNode pool1 in
          (Node (Js.mapSet part child' (children currentNode))
                (isEndOfDomain currentNode) (source currentNode), pool')
      end
  end.

(** [insert] (lines 267-286), as a function of the root and the pool. *)
Definition insert (root : TrieNode) (nodePool : Pool) (domain src : string)
    : option (TrieNode * Pool) :=
  parts ← splitDomainReverse domain;
  Some (insertParts parts src root nodePool).

(** [search] (lines 316-356). *)
Definition search (root : TrieNode) (domain : string) : option SearchResult :=
  parts ← splitDomainReverse domain;
  Some (searchParts parts root).

(** The loop of [has] (lines 382-392). *)
Fixpoint hasParts (parts : list string) (currentNode : TrieNode) : bool :=
  match parts with
  | [] => isEndOfDomain currentNode
  | part :: rest =>
      match Js.mapGet part (children currentNode) with
      | Some childNode => hasParts rest childNode
      | None => false
      end
  end.

(** [has] (lines 377-393). *)
Definition has (root : TrieNode) (domain : string) : option bool :=
  parts ← splitDomainReverse domain;
  Some (hasParts parts root).

(** [getStats().nodeCount] (lines 414-429). *)
Definition getStats_nodeCount (root : TrieNode) : nat := nodeCount root.

(** A sequence of [insert] calls, each with its domain and source. *)
Fixpoint insertAll (root : TrieNode) (nodePool : Pool) (entries : list (string * string))
    : option (TrieNode * Pool) :=
  match entries with
  | [] => Some (root, nodePool)
  | (domain, src) :: rest =>
      match insert root nodePool domain src with
      | Some (root', nodePool') => insertAll root' nodePool' rest
      | None => None
      end
  end.

End PooledTrieIndex.

(* ===================================================================== *)
(** * Results and the in-memory LRU cache *)
(* ===================================================================== *)

Module Types.

(** [matchType] of a result (src/src/client/types.ts line 16) and of the
    domain checks. *)
Inductive MatchType := exact | subdomain | pattern | none.

(** [EmailValidationResult] (src/src/client/types.ts lines 8-31).
    [validationTime] is a reading of [performance.now()] minus another; the
    optional [dnsValidation] is never set by the modelled code. *)
Record EmailValidationResult := mkResult {
  email : string;
  isValid : bool;
  isDisposable : bool;
  isAllowed : bool;
  isBlacklisted : bool;
  domain : string;
  localPart : string;
  matchType : MatchType;
  confidence : Z;
  source : option string;
  validationTime : Z;
  errors : list string;
  warnings : list string
}.

(** What the domain checks return. *)
Record DomainResult := mkDomainResult {
  isMatch : bool;
  dMatchType : MatchType;
  dConfidence : Z;
  dSource : option string
}.

Definition noMatch : DomainResult := mkDomainResult false exact 0 None.

End Types.

Module MemoryCache.
Import Types.

(** [CacheEntry] (src/unnamed/part_007 lines 10-15). *)
Record CacheEntry := mkEntry {
  result : EmailValidationResult;
  timestamp : Z;
  hitCount : Z;
  ttl : Z
}.

(** [MemoryCache] (src/unnamed/part_006 lines 24-201): the [Map] in
    insertion order, oldest entry first.  Event listeners observe the cache
    and cannot change it ([emit] catches what they throw); they are left
    out. *)
Record t := Build {
  cache : list (string * CacheEntry);
  maxSize : Z;
  defaultTtl : Z
}.

(** [x || d] on numbers: [d] when [x] is absent or 0. *)
Definition orDefault (x : option Z) (d : Z) : Z :=
  match x with
  | Some v => if v =? 0 then d else v
  | None => d
  end.

(** The constructor (lines 31-48) from [config.maxSize] and
    [config.defaultTtl]. *)
Definition new (configMaxSize configDefaultTtl : option Z) : t :=
  Build [] (orDefault configMaxSize 10000)
        (orDefault configDefaultTtl (24 * 60 * 60 * 1000)).

(** [get] (lines 50-74) when [Date.now()] reads [now]. *)
Definition get (now : Z) (c : t) (key : string) : option EmailValidationResult * t :=
  match Js.mapGet key (cache c) with
  | None => (None, c)
  | Some entry =>
      if negb (ttl entry =? 0) && (ttl entry <? now - timestamp entry)
      then (None, Build (Js.mapDelete key (cache c)) (maxSize c) (defaultTtl c))
      else
        let entry' := mkEntry (result entry) (timestamp entry) (hitCount entry + 1)
                              (ttl entry) in
        (Some (result entry),
         Build (Js.mapSet key entry' (Js.mapDelete key (cache c))) (maxSize c) (defaultTtl c))
  end.

(** [set] (lines 76-99) when [Date.now()] reads [now].  [cache.keys().next()
    .value] is the oldest key; [!oldestKey] holds when there is none or
    when it is the empty string. *)
Definition set (now : Z) (c : t) (key : string) (r : EmailValidationResult)
    (ttlArg : option Z) : t :=
  let entry := mkEntry r now 0 (orDefault ttlArg (defaultTtl c)) in
  if maxSize c <=? Z.of_nat (length (cache c)) then
    match cache c with
    | [] => c
    | (oldestKey, _) :: _ =>
        if String.eqb oldestKey "" then c
        else Build (Js.mapSet key entry (Js.mapDelete oldestKey (cache c)))
                   (maxSize c) (defaultTtl c)
    end
  else Build (Js.mapSet key entry (cache c)) (maxSize c) (defaultTtl c).

(** [has] (lines 101-103). *)
Definition has (c : t) (key : string) : bool := Js.mapHas key (cache c).

(** [delete] (lines 105-112) and [clear] (lines 114-118). *)
Definition delete (c : t) (key : string) : bool * t :=
  (Js.mapHas key (cache c), Build (Js.mapDelete key (cache c)) (maxSize c) (defaultTtl c)).

Definition clear (c : t) : t := Build [] (maxSize c) (defaultTtl c).

(** [cleanup] (lines 138-155) when [Date.now()] reads [now]: the number of
    entries removed, and the cache that is left.  The loop visits the
    entries in insertion order and deletes the one it is looking at. *)
Definition cleanup (now : Z) (c : t) (ttlMs : option Z) : Z * t :=
  let threshold := orDefault ttlMs (defaultTtl c) in
  let '(removedCount, cache') :=
    fold_left
      (fun (acc : Z * list (string * CacheEntry)) (p : string * CacheEntry) =>
         let '(removedCount, m) := acc in
         let '(key, entry) := p in
         if negb (ttl entry =? 0) && (threshold <? now - timestamp entry)
         then (removedCount + 1, Js.mapDelete key m)
         else (removedCount, m))
      (cache c) (0, cache c) in
  (removedCount, Build cache' (maxSize c) (defaultTtl c)).

(** One call on the cache, with the clock reading it sees. *)
Inductive Call :=
| CallGet (now : Z) (key : string)
| CallSet (now : Z) (key : string) (r : EmailValidationResult) (ttlArg : option Z)
| CallDelete (key : string)
| CallClear
| CallCleanup (now : Z) (ttlMs : option Z).

(** The cache after a call. *)
Definition after (c : t) (call : Call) : t :=
  match call with
  | CallGet now key => snd (get now c key)
  | CallSet now key r ttlArg => set now c key r ttlArg
  | CallDelete key => snd (delete c key)
  | CallClear => clear c
  | CallCleanup now ttlMs => snd (cleanup now c ttlMs)
  end.

(** The entries [cleanup] removes. *)
Definition stale (now threshold : Z) (p : string * CacheEntry) : bool :=
  negb (ttl (snd p) =? 0) && (threshold <? now - timestamp (snd p)).

(** What every call keeps: the keys of the [Map] are distinct and the size
    stays within [maxSize]. *)
Definition bounded (c : t) : Prop :=
  NoDup (map fst (cache c)) /\ Z.of_nat (length (cache c)) <= Z.max 0 (maxSize c).

End MemoryCache.

(* ===================================================================== *)
(** * Domain checkers *)
(* ===================================================================== *)

Module Checker.
Import Types.

(** [indexingStrategy]. *)
Inductive Strategy := trie | hash | bloom | hybrid.

(** The constructor arguments shared by the two [DomainChecker] classes
    (src/src/client/domain-checker.ts lines 21-33, src/unnamed/part_004 lines
    206-215).  Both import [TrieIndex] from "./trie-index" and
    [BloomFilter] from "./bloom-filter". *)
Record Config := mkConfig {
  disposableDomainsSet : gset string;
  allowlistSet : gset string;
  blacklistSet : gset string;
  trustedDomains : list string;
  enableSubdomainChecking : bool;
  domainTrie : option Trie.TrieNode;
  bloomFilter : option ArrayBloomFilter.t;
  indexingStrategy : Strategy
}.

(** [set.has(x)] and [array.includes(x)]. *)
Definition setHas (s : gset string) (x : string) : bool := bool_decide (x ∈ s).
Definition includes (l : list string) (x : string) : bool := bool_decide (x ∈ l).

(** [this.bloomFilter && !this.bloomFilter.contains(domain)]. *)
Definition bloomRejects (cfg : Config) (domain : string) : bool :=
  match bloomFilter cfg with
  | Some b => negb (ArrayBloomFilter.contains b domain)
  | None => false
  end.

(** [trieResult.found && trieResult.source === "disposable"] turned into a
    result whose source label is [label]. *)
Definition ofTrieResult (r : Trie.SearchResult) (label : string) : option DomainResult :=
  if Trie.found r && String.eqb (Trie.matchSource r) "disposable" then
    Some (mkDomainResult true
            (match Trie.matchType r with
             | Trie.exact => exact
             | Trie.subdomain => subdomain
             end)
            (Trie.confidence r) (Some label))
  else None.

(** Two results that agree on [isMatch], [matchType] and [confidence];
    the [source] label is left free. *)
Definition sameVerdict (a b : DomainResult) : Prop :=
  isMatch a = isMatch b /\ dMatchType a = dMatchType b /\ dConfidence a = dConfidence b.

(** The part of [domain] after each of its separators, leftmost first:
    what both classes test as parent domains. *)
Fixpoint afterDots (domain : string) : list string :=
  match domain with
  | EmptyString => []
  | String c rest =>
      if Ascii.eqb c "." then rest :: afterDots rest else afterDots rest
  end.

(** [parts.slice(i).join(".")] for [i = 1 .. parts.length - 1]. *)
Fixpoint suffixJoins (parts : list string) : list string :=
  match parts with
  | [] => []
  | _ :: rest =>
      match rest with
      | [] => []
      | _ => Js.join "." rest :: suffixJoins rest
      end
  end.

End Checker.

(** ** The checker of src/src/client/domain-checker.ts (with [domainCache]) *)

Module DomainChecker.
Import Types Checker.

(** The loop shared by [checkSubdomainAllowlist], [checkSubdomainBlacklist]
    and [checkWithHash] (lines 53-61, 95-103, 237-250): [test] is the
    membership test made on [parentDomain]; the result is whether some
    round returned from inside the loop.  [dotIndex] grows at every round,
    so one round per character and one more are enough
    ([ParentFacts.parentWalk_fuel]). *)
Fixpoint parentWalk (fuel : nat) (test : string -> bool) (domain : string)
    (dotIndex : Z) : bool :=
  match fuel with
  | O => false
  | S fuel' =>
      if dotIndex =? -1 then false
      else
        let parentDomain := Js.sliceFrom domain (dotIndex + 1) in
        if test parentDomain then true
        else parentWalk fuel' test domain (Js.indexOf domain "." (dotIndex + 1))
  end.

Definition anyParent (test : string -> bool) (domain : string) : bool :=
  parentWalk (S (String.length domain)) test domain (Js.indexOf domain "." 0).

(** [checkSubdomainAllowlist] (lines 52-64). *)
Definition checkSubdomainAllowlist (cfg : Config) (domain : string) : bool :=
  anyParent (fun parentDomain =>
               setHas (allowlistSet cfg) parentDomain
               || includes (trustedDomains cfg) parentDomain)
            domain.

(** [checkAllowlist] (lines 38-50). *)
Definition checkAllowlist (cfg : Config) (domain : string) : bool :=
  if setHas (allowlistSet cfg) domain || includes (trustedDomains cfg) domain then true
  else if enableSubdomainChecking cfg then checkSubdomainAllowlist cfg domain
  else false.

(** [checkSubdomainBlacklist] (lines 90-106). *)
Definition checkSubdomainBlacklist (cfg : Config) (domain : string) : DomainResult :=
  if anyParent (setHas (blacklistSet cfg)) domain
  then mkDomainResult true subdomain 90 None
  else noMatch.

(** [checkBlacklist] (lines 69-88). *)
Definition checkBlacklist (cfg : Config) (domain : string) : DomainResult :=
  if setHas (blacklistSet cfg) domain then mkDomainResult true exact 100 None
  else if enableSubdomainChecking cfg
          && isMatch (checkSubdomainBlacklist cfg domain)
       then checkSubdomainBlacklist cfg domain
       else noMatch.

(** [checkWithHash] (lines 226-253). *)
Definition checkWithHash (cfg : Config) (domain : string) : DomainResult :=
  if negb (enableSubdomainChecking cfg) then noMatch
  else if anyParent (setHas (disposableDomainsSet cfg)) domain
       then mkDomainResult true subdomain 85 (Some "hash")
       else noMatch.

(** [checkWithTrie] (lines 167-188). *)
Definition checkWithTrie (cfg : Config) (domain : string) : DomainResult :=
  match domainTrie cfg with
  | Some root =>
      if negb (enableSubdomainChecking cfg) then noMatch
      else default noMatch (ofTrieResult (TrieIndex.search root domain) "trie")
  | None => noMatch
  end.

(** [checkWithBloom] (lines 190-206). *)
Definition checkWithBloom (cfg : Config) (domain : string) : DomainResult :=
  match bloomFilter cfg with
  | None => noMatch
  | Some _ =>
      if enableSubdomainChecking cfg then checkWithHash cfg domain else noMatch
  end.

(** [checkWithHybrid] (lines 208-224). *)
Definition checkWithHybrid (cfg : Config) (domain : string) : DomainResult :=
  let viaTrie :=
    match domainTrie cfg with
    | Some _ =>
        if enableSubdomainChecking cfg && isMatch (checkWithTrie cfg domain)
        then Some (checkWithTrie cfg domain) else None
    | None => None
    end in
  match viaTrie with
  | Some trieResult => trieResult
  | None => checkWithHash cfg domain
  end.

(** [performDisposableCheck] (lines 137-165). *)
Definition performDisposableCheck (cfg : Config) (domain : string) : DomainResult :=
  if bloomRejects cfg domain then noMatch
  else if setHas (disposableDomainsSet cfg) domain
       then mkDomainResult true exact 100 (Some "database")
       else match indexingStrategy cfg with
            | trie => checkWithTrie cfg domain
            | bloom => checkWithBloom cfg domain
            | hybrid => checkWithHybrid cfg domain
            | hash => checkWithHash cfg domain
            end.

(** [domainCache] (lines 15-19): a [Map] in insertion order. *)
Definition DomainCache := list (string * DomainResult).

Definition CACHE_SIZE_LIMIT : Z := 5000.

(** [checkDisposableDomain] (lines 111-135). *)
Definition checkDisposableDomain (cfg : Config) (domainCache : DomainCache)
    (domain : string) : DomainResult * DomainCache :=
  match Js.mapGet domain domainCache with
  | Some cached => (cached, domainCache)
  | None =>
      let result := performDisposableCheck cfg domain in
      let evicted :=
        if CACHE_SIZE_LIMIT <=? Z.of_nat (length domainCache) then
          match domainCache with
          | (firstKey, _) :: _ => Js.mapDelete firstKey domainCache
          | [] => domainCache
          end
        else domainCache in
      (result, Js.mapSet domain result evicted)
  end.

(** The fields of a checker that change after construction: the allow
    list and the blacklist (inside [config]) and the domain cache. *)
Record State := mkState {
  config : Config;
  cached : DomainCache
}.

Definition withLists (cfg : Config) (allow black : gset string) : Config :=
  mkConfig (disposableDomainsSet cfg) allow black (trustedDomains cfg)
    (enableSubdomainChecking cfg) (domainTrie cfg) (bloomFilter cfg) (indexingStrategy cfg).

(** [addToAllowlist] (lines 320-324), [addToBlacklist] (lines 329-333),
    [removeFromAllowlist] (lines 338-342), [removeFromBlacklist]
    (lines 347-351) and [clearCache] (lines 373-376). *)
Definition addToAllowlist (st : State) (domain : string) : State :=
  let d := Js.toLowerCase domain in
  mkState (withLists (config st) ({[d]} ∪ allowlistSet (config st)) (blacklistSet (config st)))
          (Js.mapDelete d (cached st)).

Definition addToBlacklist (st : State) (domain : string) : State :=
  let d := Js.toLowerCase domain in
  mkState (withLists (config st) (allowlistSet (config st)) ({[d]} ∪ blacklistSet (config st)))
          (Js.mapDelete d (cached st)).

Definition removeFromAllowlist (st : State) (domain : string) : State :=
  let d := Js.toLowerCase domain in
  mkState (withLists (config st) (allowlistSet (config st) ∖ {[d]}) (blacklistSet (config st)))
          (Js.mapDelete d (cached st)).

Definition removeFromBlacklist (st : State) (domain : string) : State :=
  let d := Js.toLowerCase domain in
  mkState (withLists (config st) (allowlistSet (config st)) (blacklistSet (config st) ∖ {[d]}))
          (Js.mapDelete d (cached st)).

Definition clearCache (st : State) : State := mkState (config st) [].

(** One call on the checker; the calls are made one after the other. *)
Inductive Call :=
| CallCheckDisposableDomain (domain : string)
| CallAddToAllowlist (domain : string)
| CallAddToBlacklist (domain : string)
| CallRemoveFromAllowlist (domain : string)
| CallRemoveFromBlacklist (domain : string)
| CallClearCache.

Definition after (st : State) (call : Call) : State :=
  match call with
  | CallCheckDisposableDomain domain =>
      mkState (config st) (snd (checkDisposableDomain (config st) (cached st) domain))
  | CallAddToAllowlist domain => addToAllowlist st domain
  | CallAddToBlacklist domain => addToBlacklist st domain
  | CallRemoveFromAllowlist domain => removeFromAllowlist st domain
  | CallRemoveFromBlacklist domain => removeFromBlacklist st domain
  | CallClearCache => clearCache st
  end.

(** What holds of the checker after any calls, [cfg] being the
    configuration it was built with: the cache is within its limit, and
    it holds for a domain what [performDisposableCheck] computes for it. *)
Definition cacheInv (cfg : Config) (st : State) : Prop :=
  (forall domain,
      performDisposableCheck (config st) domain = performDisposableCheck cfg domain) /\
  Z.of_nat (length (cached st)) <= CACHE_SIZE_LIMIT /\
  (forall domain r, In (domain, r) (cached st) -> r = performDisposableCheck cfg domain).

End DomainChecker.

(** ** The checker of src/unnamed/part_004 (no cache) *)

Module SimpleDomainChecker.
Import Types Checker.

(** The loop of lines 232-239, 259-266 and 306-317: [parentDomain] is
    [parts.slice(i).join(".")] for [i = 1 .. parts.length - 1], where
    [parts = domain.split(".")]; the result is whether some round returned
    from inside the loop. *)
Definition parentDomains (domain : string) : list string :=
  let parts := Js.split "." domain in
  map (fun i => Js.join "." (drop i parts)) (seq 1 (length parts - 1)).

Definition anyParent (test : string -> bool) (domain : string) : bool :=
  existsb test (parentDomains domain).

(** [checkAllowlist] (lines 220-242). *)
Definition checkAllowlist (cfg : Config) (domain : string) : bool :=
  if setHas (allowlistSet cfg) domain then true
  else if includes (trustedDomains cfg) domain then true
  else if enableSubdomainChecking cfg then
    anyParent (fun parentDomain =>
                 setHas (allowlistSet cfg) parentDomain
                 || includes (trustedDomains cfg) parentDomain)
              domain
  else false.

(** [checkBlacklist] (lines 247-269). *)
Definition checkBlacklist (cfg : Config) (domain : string) : DomainResult :=
  if setHas (blacklistSet cfg) domain then mkDomainResult true exact 100 None
  else if enableSubdomainChecking cfg && anyParent (setHas (blacklistSet cfg)) domain
       then mkDomainResult true subdomain 90 None
       else noMatch.

(** The trie step of [checkDisposableDomain] (lines 292-302). *)
Definition trieStep (cfg : Config) (domain : string) : option DomainResult :=
  match indexingStrategy cfg, domainTrie cfg with
  | hash, _ => None
  | _, Some root =>
      if enableSubdomainChecking cfg
      then ofTrieResult (TrieIndex.search root domain) "trie-index"
      else None
  | _, None => None
  end.

(** The fallback step of [checkDisposableDomain] (lines 305-318). *)
Definition hashStep (cfg : Config) (domain : string) : option DomainResult :=
  match indexingStrategy cfg with
  | hash =>
      if enableSubdomainChecking cfg
         && anyParent (setHas (disposableDomainsSet cfg)) domain
      then Some (mkDomainResult true subdomain 85 (Some "subdomain-check"))
      else None
  | _ => None
  end.

(** [checkDisposableDomain] (lines 274-321). *)
Definition checkDisposableDomain (cfg : Config) (domain : string) : DomainResult :=
  if bloomRejects cfg domain then noMatch
  else if setHas (disposableDomainsSet cfg) domain
       then mkDomainResult true exact 100 (Some "database")
       else match trieStep cfg domain with
            | Some r => r
            | None =>
                match hashStep cfg domain with
                | Some r => r
                | None => noMatch
                end
            end.

End SimpleDomainChecker.

(* ===================================================================== *)
(** * Request coalescing in [CacheManager.get]
    (src/src/client/cache-manager.ts lines 190-246) *)
(* ===================================================================== *)

Module CacheManager.
Import Types.

(** JavaScript runs one piece of code at a time, up to its next [await].
    The pieces of [get] and [performGet] are the events below; a schedule
    is the order in which the event loop runs them.

    A promise returned by [performGet] is named by a number.  The backing
    store [this.cache] is any [ICache]: what its [get] answers, and when,
    is given by the schedule. *)

(** How the promise of [this.cache.get(email)] settles. *)
Inductive Outcome :=
| Fulfilled (value : option EmailValidationResult)
| Rejected.

(** [performGet] (lines 233-246): the [catch] turns a rejection into [null]. *)
Definition performGetValue (o : Outcome) : option EmailValidationResult :=
  match o with
  | Fulfilled value => value
  | Rejected => None
  end.

(** A call of [get] that has reached its [await] (line 226) or has
    returned the pending promise (line 219). *)
Record Call := mkCall {
  callId : nat;
  callKey : string;
  awaited : nat;
  owner : bool
}.

Record State := mkState {
  pendingOperations : list (string * nat);
  backingCalls : list (nat * string);
  settled : list (nat * option EmailValidationResult);
  suspended : list Call;
  returned : list (Call * option EmailValidationResult);
  nextPromise : nat;
  nextCall : nat
}.

Definition initial : State := mkState [] [] [] [] [] 0 0.

Inductive Event :=
| Invoke (email : string)
| BackendSettles (promise : nat) (o : Outcome)
| Resume (call : nat).

(** The value a settled promise carries. *)
Fixpoint settledValue (p : nat) (l : list (nat * option EmailValidationResult))
    : option (option EmailValidationResult) :=
  match l with
  | [] => None
  | (q, v) :: rest => if Nat.eqb q p then Some v else settledValue p rest
  end.

Fixpoint findCall (c : nat) (l : list Call) : option Call :=
  match l with
  | [] => None
  | x :: rest => if Nat.eqb (callId x) c then Some x else findCall c rest
  end.

Fixpoint removeCall (c : nat) (l : list Call) : list Call :=
  match l with
  | [] => []
  | x :: rest => if Nat.eqb (callId x) c then rest else x :: removeCall c rest
  end.

(** [get(email)] from its first line to the point where it gives up
    control (lines 217-226).  With a pending promise it returns that one.
    Otherwise [performGet(email)] runs up to its own [await], which issues
    [this.cache.get(email)]; the promise is stored and awaited. *)
Definition invoke (s : State) (email : string) : State :=
  match Js.mapGet email (pendingOperations s) with
  | Some pending =>
      mkState (pendingOperations s) (backingCalls s) (settled s)
              (suspended s ++ [mkCall (nextCall s) email pending false])
              (returned s) (nextPromise s) (S (nextCall s))
  | None =>
      let promise := nextPromise s in
      mkState (Js.mapSet email promise (pendingOperations s))
              (backingCalls s ++ [(promise, email)])
              (settled s)
              (suspended s ++ [mkCall (nextCall s) email promise true])
              (returned s) (S promise) (S (nextCall s))
  end.

(** The backing store answers the call made for [promise]; the rest of
    [performGet] runs and its promise settles.  A promise settles once. *)
Definition backendSettles (s : State) (promise : nat) (o : Outcome) : State :=
  if existsb (fun b => Nat.eqb (fst b) promise) (backingCalls s)
     && negb (bool_decide (is_Some (settledValue promise (settled s))))
  then mkState (pendingOperations s) (backingCalls s)
               (settled s ++ [(promise, performGetValue o)])
               (suspended s) (returned s) (nextPromise s) (nextCall s)
  else s.

(** A suspended call whose promise has settled goes on: the call that
    created the promise runs its [finally] (line 229) and returns the
    value; a call that returned the pending promise resolves to the same
    value. *)
Definition resume (s : State) (c : nat) : State :=
  match findCall c (suspended s) with
  | Some call =>
      match settledValue (awaited call) (settled s) with
      | Some value =>
          mkState (if owner call
                   then Js.mapDelete (callKey call) (pendingOperations s)
                   else pendingOperations s)
                  (backingCalls s) (settled s)
                  (removeCall c (suspended s))
                  (returned s ++ [(call, value)])
                  (nextPromise s) (nextCall s)
      | None => s
      end
  | None => s
  end.

Definition step (s : State) (e : Event) : State :=
  match e with
  | Invoke email => invoke s email
  | BackendSettles promise o => backendSettles s promise o
  | Resume c => resume s c
  end.

Definition run (s : State) (schedule : list Event) : State := fold_left step schedule s.

(** The calls of the backing store made for [email]. *)
Definition backingCallsFor (email : string) (s : State) : list (nat * string) :=
  filter (fun b : nat * string => snd b = email) (backingCalls s).

(** The keys of the suspended calls that created their promise. *)
Definition ownerKeys (l : list Call) : list string := map callKey (List.filter owner l).

(** What holds of every state the manager goes through: call numbers are
    below [nextCall]; a suspended call that created its promise still has
    it in [pendingOperations]; and no two such calls have the same key. *)
Definition consistent (s : State) : Prop :=
  (forall c, In c (suspended s) -> (callId c < nextCall s)%nat) /\
  (forall c v, In (c, v) (returned s) -> (callId c < nextCall s)%nat) /\
  (forall c, In c (suspended s) -> owner c = true ->
             Js.mapGet (callKey c) (pendingOperations s) = Some (awaited c)) /\
  NoDup (ownerKeys (suspended s)).

(** What holds between the call number [c0] of [get(key)] that created the
    promise [p0] and the moment that call runs its [finally]: the promise
    stays pending, [base] and one more are the backing calls for [key], and
    every call for [key] from [c0] on waits for [p0] and returns its value. *)
Definition coalescing (key : string) (p0 c0 : nat) (base : list (nat * string))
    (s : State) : Prop :=
  Js.mapGet key (pendingOperations s) = Some p0 /\
  backingCallsFor key s = base ++ [(p0, key)] /\
  (c0 < nextCall s)%nat /\
  (forall c, In c (suspended s) -> callKey c = key -> owner c = true -> callId c = c0) /\
  (forall c, In c (suspended s) -> callKey c = key -> (c0 <= callId c)%nat ->
             awaited c = p0) /\
  (forall c v, In (c, v) (returned s) -> callKey c = key -> (c0 <= callId c)%nat ->
               awaited c = p0 /\ settledValue p0 (settled s) = Some v).

(** What remains true once the creating call has run its [finally], as
    long as no new [get(key)] is issued: the calls for [key] from [c0] on
    wait for [p0] and return its value, and no backing call was added. *)
Definition sharing (key : string) (p0 c0 : nat) (base : list (nat * string))
    (s : State) : Prop :=
  backingCallsFor key s = base ++ [(p0, key)] /\
  (c0 < nextCall s)%nat /\
  (forall c, In c (suspended s) -> callKey c = key -> (c0 <= callId c)%nat ->
             awaited c = p0) /\
  (forall c v, In (c, v) (returned s) -> callKey c = key -> (c0 <= callId c)%nat ->
               awaited c = p0 /\ settledValue p0 (settled s) = Some v).

End CacheManager.

(* ===================================================================== *)
(** * Regular expressions, for [RegExp.prototype.test] on anchored patterns *)
(* ===================================================================== *)

Module Regex.

Inductive t :=
| Void
| Eps
| Class (p : ascii -> bool)
| Cat (r1 r2 : t)
| Alt (r1 r2 : t)
| Star (r : t).

(** [(?:r)?], [r+] and [r{0,n}]. *)
Definition opt (r : t) : t := Alt Eps r.
Definition plus (r : t) : t := Cat r (Star r).

Fixpoint upTo (n : nat) (r : t) : t :=
  match n with
  | O => Eps
  | S n' => opt (Cat r (upTo n' r))
  end.

Fixpoint nullable (r : t) : bool :=
  match r with
  | Void => false
  | Eps => true
  | Class _ => false
  | Cat r1 r2 => nullable r1 && nullable r2
  | Alt r1 r2 => nullable r1 || nullable r2
  | Star _ => true
  end.

(** Concatenation and alternation that drop the empty language. *)
Definition cat (r1 r2 : t) : t :=
  match r1, r2 with
  | Void, _ => Void
  | _, Void => Void
  | Eps, _ => r2
  | _, _ => Cat r1 r2
  end.

Definition alt (r1 r2 : t) : t :=
  match r1, r2 with
  | Void, _ => r2
  | _, Void => r1
  | _, _ => Alt r1 r2
  end.

(** The words of [r] that start with [c], without that [c]. *)
Fixpoint deriv (c : ascii) (r : t) : t :=
  match r with
  | Void => Void
  | Eps => Void
  | Class p => if p c then Eps else Void
  | Cat r1 r2 =>
      alt (cat (deriv c r1) r2) (if nullable r1 then deriv c r2 else Void)
  | Alt r1 r2 => alt (deriv c r1) (deriv c r2)
  | Star r1 => cat (deriv c r1) (Star r1)
  end.

(** [/^r$/.test(s)]. *)
Fixpoint test (r : t) (s : string) : bool :=
  match s with
  | EmptyString => nullable r
  | String c rest => test (deriv c r) rest
  end.

(** Character classes. *)
Definition between (lo hi : ascii) (c : ascii) : bool :=
  (N_of_ascii lo <=? N_of_ascii c)%N && (N_of_ascii c <=? N_of_ascii hi)%N.

Fixpoint oneOf (chars : string) (c : ascii) : bool :=
  match chars with
  | EmptyString => false
  | String a rest => Ascii.eqb a c || oneOf rest c
  end.

Definition chr (a : ascii) : t := Class (Ascii.eqb a).

(** The words of a regular expression. *)
Inductive matches : t -> string -> Prop :=
| matches_eps : matches Eps EmptyString
| matches_class p c : p c = true -> matches (Class p) (String c EmptyString)
| matches_cat r1 r2 s1 s2 :
    matches r1 s1 -> matches r2 s2 -> matches (Cat r1 r2) (s1 ++ s2)
| matches_alt_l r1 r2 s : matches r1 s -> matches (Alt r1 r2) s
| matches_alt_r r1 r2 s : matches r2 s -> matches (Alt r1 r2) s
| matches_star_nil r : matches (Star r) EmptyString
| matches_star_cons r s1 s2 :
    matches r s1 -> matches (Star r) s2 -> matches (Star r) (s1 ++ s2).

(** Every character class of [r] lies within [P]. *)
Fixpoint within (P : ascii -> Prop) (r : t) : Prop :=
  match r with
  | Void | Eps => True
  | Class p => forall c, p c = true -> P c
  | Cat r1 r2 | Alt r1 r2 => within P r1 /\ within P r2
  | Star r1 => within P r1
  end.

(** Every character class of [r] that holds [c] holds [f c] as well. *)
Fixpoint preserves (f : ascii -> ascii) (r : t) : Prop :=
  match r with
  | Void | Eps => True
  | Class p => forall c, p c = true -> p (f c) = true
  | Cat r1 r2 | Alt r1 r2 => preserves f r1 /\ preserves f r2
  | Star r1 => preserves f r1
  end.

End Regex.

(* ===================================================================== *)
(** * [EmailValidator] (src/src/client/email-validator.ts lines 6-146) *)
(* ===================================================================== *)

Module EmailValidator.
Import Regex.

(** [[a-zA-Z0-9]] and the classes built on it. *)
Definition alnum (c : ascii) : bool :=
  between "a" "z" c || between "A" "Z" c || between "0" "9" c.

Definition alnumHyphen (c : ascii) : bool := alnum c || Ascii.eqb c "-".

(** [[a-zA-Z0-9.!#$%&'*+/=?^_`{|}~-]]. *)
Definition localChar (c : ascii) : bool := alnum c || oneOf ".!#$%&'*+/=?^_`{|}~-" c.

(** [[a-zA-Z0-9._-]]. *)
Definition strictLocalChar (c : ascii) : bool := alnum c || oneOf "._-" c.

(** [[a-zA-Z0-9](?:[a-zA-Z0-9-]{0,61}[a-zA-Z0-9])?]. *)
Definition label : t :=
  Cat (Class alnum) (opt (Cat (upTo 61 (Class alnumHyphen)) (Class alnum))).

(** [emailRegex] (lines 7-8). *)
Definition emailRegex : t :=
  Cat (plus (Class localChar))
      (Cat (chr "@") (Cat label (Star (Cat (chr ".") label)))).

(** [strictEmailRegex] (lines 9-10). *)
Definition strictEmailRegex : t :=
  Cat (Cat (Class alnum) (opt (Cat (Star (Class strictLocalChar)) (Class alnum))))
      (Cat (chr "@") (Cat label (plus (Cat (chr ".") label)))).

(** What reading a property of [undefined] throws. *)
Inductive Thrown := TypeError (message : string).

Definition undefinedLength : Thrown :=
  TypeError "Cannot read properties of undefined (reading 'length')".

(** [validateEmailFormat] (lines 27-54): the value returned and the
    messages pushed on [result.errors].  [const [localPart, domain] =
    email.split("@")] leaves [domain] undefined when there is no "@", and
    [domain.length] then throws. *)
Definition validateEmailFormat (strictValidation : bool) (email : string)
    : Thrown + (bool * list string) :=
  let regex := if strictValidation then strictEmailRegex else emailRegex in
  if negb (test regex email) then inr (false, ["Invalid email format"%string])
  else if 254 <? Js.len email
       then inr (false, ["Email address too long (max 254 characters)"%string])
       else
         match Js.split "@" email with
         | localPart :: rest =>
             if 64 <? Js.len localPart
             then inr (false, ["Local part too long (max 64 characters)"%string])
             else match rest with
                  | domain :: _ =>
                      if 253 <? Js.len domain
                      then inr (false, ["Domain too long (max 253 characters)"%string])
                      else inr (true, [])
                  | [] => inl undefinedLength
                  end
         | [] => inl undefinedLength
         end.

(** Whether [validateEmailFormat] returned [true]. *)
Definition formatValid (strictValidation : bool) (email : string) : bool :=
  match validateEmailFormat strictValidation email with
  | inr (true, _) => true
  | _ => false
  end.

(** [parseEmail] (lines 59-62); [domain] is [None] when the array has no
    second element. *)
Definition parseEmail (email : string) : string * option string :=
  match Js.split "@" (Js.toLowerCase email) with
  | localPart :: domain :: _ => (localPart, Some domain)
  | localPart :: [] => (localPart, None)
  | [] => (EmptyString, None)
  end.

(** [domainRegex] of [isValidDomain] (lines 135-136): the groups capture,
    which [test] does not observe. *)
Definition domainRegex : t := Cat label (Star (Cat (chr ".") label)).

(** [isValidDomain] (lines 134-138). *)
Definition isValidDomain (domain : string) : bool :=
  test domainRegex domain && (Js.len domain <=? 253).

(** A string of the shape both regular expressions accept: a non-empty
    local part [l] without "@", one "@", and a word [d] of [domainRegex]. *)
Record Shape (email l d : string) : Prop := mkShape {
  shape_eq : email = (l ++ String "@" d)%string;
  shape_local : l <> ""%string;
  shape_local_at : Js.hasChar "@" l = false;
  shape_domain : matches domainRegex d;
  shape_domain_at : Js.hasChar "@" d = false
}.

(** A [RegExp] as [analyzePatterns] uses it: what [test] answers, and
    [source]. *)
Record Pattern := mkPattern {
  patternTest : string -> bool;
  patternSource : string
}.

(** [s.startsWith(p)] and [s.includes(p)]. *)
Fixpoint startsWith (s p : string) : bool :=
  match p, s with
  | EmptyString, _ => true
  | String a p', String b s' => Ascii.eqb a b && startsWith s' p'
  | String _ _, EmptyString => false
  end.

Fixpoint includes (s p : string) : bool :=
  startsWith s p ||
  match s with
  | EmptyString => false
  | String _ rest => includes rest p
  end.

(** [/\d{6,}/.test(s)]: six digits in a row somewhere in [s]; [run] is the
    number of digits just read. *)
Fixpoint digitRun (run : nat) (s : string) : bool :=
  (6 <=? run)%nat ||
  match s with
  | EmptyString => false
  | String c rest =>
      if between "0" "9" c then digitRun (S run) rest else digitRun O rest
  end.

(** One of the two loops over patterns (lines 77-82 and 85-90): [points]
    are added and a warning is pushed for each pattern that matches. *)
Definition scorePatterns (points : Z) (label : string) (patterns : list Pattern)
    (email : string) (acc : Z * list string) : Z * list string :=
  fold_left
    (fun (acc : Z * list string) (pattern : Pattern) =>
       if patternTest pattern email
       then (fst acc + points, snd acc ++ [(label ++ patternSource pattern)%string])
       else acc)
    patterns acc.

(** [analyzePatterns] (lines 67-109); [suspiciousPatterns] is the field of
    lines 13-20. *)
Definition analyzePatterns (suspiciousPatterns customPatterns : list Pattern)
    (email localPart domain : string) : Z * list string :=
  let acc := scorePatterns 20 "Matches suspicious pattern: " suspiciousPatterns email (0, []) in
  let acc := scorePatterns 25 "Matches custom pattern: " customPatterns email acc in
  let acc :=
    if Js.len localPart <=? 2
    then (fst acc + 15, snd acc ++ ["Very short local part"%string]) else acc in
  let acc :=
    if includes domain "-temp-" || includes domain "-fake-"
    then (fst acc + 30, snd acc ++ ["Domain contains suspicious keywords"%string])
    else acc in
  let acc :=
    if digitRun O localPart
    then (fst acc + 10, snd acc ++ ["Local part contains long numeric sequence"%string])
    else acc in
  (Z.min (fst acc) 100, snd acc).

(** A score and its warnings go together: the score is positive exactly
    when a warning has been pushed. *)
Definition scored (acc : Z * list string) : Prop :=
  0 <= fst acc /\ (0 < fst acc <-> (0 < length (snd acc))%nat).

End EmailValidator.

(* ===================================================================== *)
(** * The second [EmailValidator] (src/src/client/email-validator.ts lines
    181-434): the checks are made before the regular expression is run *)
(* ===================================================================== *)

Module FastEmailValidator.
Import Regex.

(** [validateEmailFormat] (lines 192-234): the value returned and the
    message pushed on [result.errors]. *)
Definition validateEmailFormat (strictValidation : bool) (email : string)
    : bool * list string :=
  if 254 <? Js.len email
  then (false, ["Email address too long (max 254 characters)"%string])
  else
    let atIndex := Js.indexOf email "@" 0 in
    if (atIndex =? -1) || (atIndex =? 0) || (atIndex =? Js.len email - 1)
    then (false, ["Invalid email format - missing or misplaced @ symbol"%string])
    else if negb (Js.indexOf email "@" (atIndex + 1) =? -1)
    then (false, ["Invalid email format - multiple @ symbols"%string])
    else
      let localPart := Js.slice email 0 atIndex in
      let domain := Js.sliceFrom email (atIndex + 1) in
      if 64 <? Js.len localPart
      then (false, ["Local part too long (max 64 characters)"%string])
      else if 253 <? Js.len domain
      then (false, ["Domain too long (max 253 characters)"%string])
      else
        let regex := if strictValidation then EmailValidator.strictEmailRegex
                     else EmailValidator.emailRegex in
        if negb (test regex email) then (false, ["Invalid email format"%string])
        else (true, []).

(** [parseEmail] (lines 239-245).  Without an "@", [atIndex] is -1:
    [slice(0, -1)] drops the last character and [slice(0)] keeps all. *)
Definition parseEmail (email : string) : string * string :=
  let atIndex := Js.indexOf email "@" 0 in
  let localPart :=
    if atIndex =? -1 then Js.takeChars (String.length email - 1) email
    else Js.slice email 0 atIndex in
  (localPart, Js.toLowerCase (Js.sliceFrom email (atIndex + 1))).

End FastEmailValidator.

(* ===================================================================== *)
(** * The facade: [DisposableEmailChecker.checkEmail]
    (src/src/client/email-validator.ts lines 460-988) *)
(* ===================================================================== *)

Module DisposableEmailChecker.
Import Types.

(** The part of the configuration [checkEmail] reads, and the domain
    checker it was built with. *)
Record Config := mkConfig {
  strictValidation : bool;
  enableCaching : bool;
  enablePatternMatching : bool;
  checkMxRecord : bool;
  checker : Checker.Config
}.

(** The two collaborators whose answers come from outside: the pattern
    heuristics ([analyzePatterns], which runs the configured [RegExp]
    objects) give a score and warnings; the MX lookup gives a boolean or
    throws ([None]). *)
Record Collaborators := mkCollaborators {
  analyzePatterns : string -> string -> string -> Z * list string;
  mxLookup : string -> option bool
}.

(** The clock readings of one call: [Date.now()] in the cache's [get] and
    [set], and the final [performance.now() - startTime]. *)
Record Clock := mkClock {
  nowGet : Z;
  nowSet : Z;
  elapsed : Z
}.

(** The result cache (the "memory" backend the configuration defaults to)
    and the domain checker's own cache. *)
Record State := mkState {
  resultCache : MemoryCache.t;
  domainCache : DomainChecker.DomainCache
}.

(** Steps 4 to 7 of [performEmailCheck] (lines 776-826), once [isValid],
    [localPart] and [domain] are set. *)
Definition classify (cfg : Config) (ext : Collaborators) (clock : Clock)
    (dc : DomainChecker.DomainCache) (email localPart domain : string)
    : EmailValidationResult * DomainChecker.DomainCache :=
  let blacklistResult := DomainChecker.checkBlacklist (checker cfg) domain in
  let '(isBl, mt, conf) :=
    if isMatch blacklistResult
    then (true, dMatchType blacklistResult, dConfidence blacklistResult)
    else (false, none, 0) in
  let '(disposableResult, dc') :=
    DomainChecker.checkDisposableDomain (checker cfg) dc domain in
  let '(isDisp, mt, conf, src) :=
    if isMatch disposableResult
    then (true, dMatchType disposableResult, Z.max conf (dConfidence disposableResult),
          dSource disposableResult)
    else (false, mt, conf, None) in
  let '(isDisp, mt, conf, warns) :=
    if enablePatternMatching cfg then
      let '(suspiciousScore, patternWarnings) :=
        analyzePatterns ext email localPart domain in
      if 0 <? suspiciousScore then
        if 80 <=? suspiciousScore
        then (true, pattern, Z.max conf suspiciousScore, patternWarnings)
        else (isDisp, mt, Z.max conf suspiciousScore, patternWarnings)
      else (isDisp, mt, conf, [])
    else (isDisp, mt, conf, []) in
  let '(conf, warns) :=
    if checkMxRecord cfg then
      match mxLookup ext domain with
      | Some true => (conf, warns)
      | Some false => (Z.max conf 60, warns ++ ["No MX record found for domain"%string])
      | None => (conf, warns ++ ["Failed to check MX record"%string])
      end
    else (conf, warns) in
  (mkResult (Js.toLowerCase email) true isDisp false isBl domain localPart mt conf src
            (elapsed clock) [] warns,
   dc').

(** [performEmailCheck] (lines 735-827).  The result object starts with
    every flag false, [matchType] "none", confidence 0 and no message
    (lines 739-752); each branch below is that object as the branch leaves
    it. *)
Definition performEmailCheck (cfg : Config) (ext : Collaborators) (clock : Clock)
    (dc : DomainChecker.DomainCache) (email : string)
    : EmailValidator.Thrown + (EmailValidationResult * DomainChecker.DomainCache) :=
  match EmailValidator.validateEmailFormat (strictValidation cfg) email with
  | inl thrown => inl thrown
  | inr (false, errs) =>
      inr (mkResult (Js.toLowerCase email) false false false false "" "" none 0 None
                    (elapsed clock) errs [], dc)
  | inr (true, _) =>
      match EmailValidator.parseEmail email with
      | (localPart, Some domain) =>
          if DomainChecker.checkAllowlist (checker cfg) domain
          then inr (mkResult (Js.toLowerCase email) true false true false domain localPart
                             exact 100 None (elapsed clock) [] [], dc)
          else inr (classify cfg ext clock dc email localPart domain)
      | (_, None) => inl EmailValidator.undefinedLength
      end
  end.

(** The result built by the [catch] of [checkEmail] (lines 713-729). *)
Definition failure (clock : Clock) (email : string) (thrown : EmailValidator.Thrown)
    : EmailValidationResult :=
  let 'EmailValidator.TypeError message := thrown in
  mkResult email false false false false "" "" none 0 None (elapsed clock) [message] [].

(** [checkEmail] (lines 685-730). *)
Definition checkEmail (cfg : Config) (ext : Collaborators) (clock : Clock)
    (st : State) (email : string) : EmailValidationResult * State :=
  let '(cached, cache1) :=
    if enableCaching cfg
    then MemoryCache.get (nowGet clock) (resultCache st) email
    else (None, resultCache st) in
  match cached with
  | Some r =>
      (mkResult (Types.email r) (isValid r) (isDisposable r) (isAllowed r)
                (isBlacklisted r) (domain r) (localPart r) (matchType r) (confidence r)
                (source r) (elapsed clock) (errors r) (warnings r),
       mkState cache1 (domainCache st))
  | None =>
      match performEmailCheck cfg ext clock (domainCache st) email with
      | inr (result, dc') =>
          let cache2 :=
            if enableCaching cfg
            then MemoryCache.set (nowSet clock) cache1 email result None
            else cache1 in
          (result, mkState cache2 dc')
      | inl thrown => (failure clock email thrown, mkState cache1 (domainCache st))
      end
  end.

(** [clearCache] (lines 918-921). *)
Definition clearCache (st : State) : State :=
  mkState (MemoryCache.clear (resultCache st)) (domainCache st).

(** The states a checker goes through under one configuration: it starts
    with empty caches, and every call of [checkEmail] or [clearCache] leads
    from one state to the next. *)
Inductive reachable (cfg : Config) (ext : Collaborators) : State -> Prop :=
| reachable_new (configMaxSize configDefaultTtl : option Z) :
    reachable cfg ext (mkState (MemoryCache.new configMaxSize configDefaultTtl) [])
| reachable_checkEmail (st : State) (clock : Clock) (email : string) :
    reachable cfg ext st ->
    reachable cfg ext (snd (checkEmail cfg ext clock st email))
| reachable_clearCache (st : State) :
    reachable cfg ext st ->
    reachable cfg ext (clearCache st).

(** [r] is what [performEmailCheck] returns for [email], at some clock
    reading and in some state of the domain cache. *)
Definition producedFor (cfg : Config) (ext : Collaborators) (email : string)
    (r : EmailValidationResult) : Prop :=
  exists clock dc dc', performEmailCheck cfg ext clock dc email = inr (r, dc').

(** Every entry of the result cache holds a result produced for its key. *)
Definition cacheSound (cfg : Config) (ext : Collaborators) (c : MemoryCache.t) : Prop :=
  forall k e, In (k, e) (MemoryCache.cache c) -> producedFor cfg ext k (MemoryCache.result e).

(** The three sets as [loadAllData] (lines 584-599) leaves them: the
    domains of each, in the order [for ... of] visits them. *)
Record Data := mkData {
  disposableDomains : list string;
  allowlist : list string;
  blacklist : list string
}.

(** [buildTrieIndex] (lines 632-646). *)
Definition buildTrieIndex (data : Data) : Trie.TrieNode :=
  let domainTrie :=
    fold_left (fun t d => TrieIndex.insert t d "disposable") (disposableDomains data)
              Trie.newNode in
  let domainTrie :=
    fold_left (fun t d => TrieIndex.insert t d "allowed") (allowlist data) domainTrie in
  fold_left (fun t d => TrieIndex.insert t d "blacklisted") (blacklist data) domainTrie.

(** [buildBloomFilter] (lines 651-662); [m] and [k] are the [size] and
    [numHashFunctions] that [new BloomFilter(totalDomains, 0.01)]
    computes. *)
Definition buildBloomFilter (m : Z) (k : nat) (data : Data) : ArrayBloomFilter.t :=
  let bloomFilter :=
    fold_left ArrayBloomFilter.add (disposableDomains data) (ArrayBloomFilter.new m k) in
  fold_left ArrayBloomFilter.add (blacklist data) bloomFilter.

(** The fields [domainTrie] and [bloomFilter] (lines 467-468). *)
Definition Index : Type := option Trie.TrieNode * option ArrayBloomFilter.t.

(** [buildIndex] (lines 604-627): a strategy rebuilds the structures it
    uses and leaves the others as they were. *)
Definition buildIndex (strategy : Checker.Strategy) (m : Z) (k : nat) (data : Data)
    (index : Index) : Index :=
  match strategy with
  | Checker.trie => (Some (buildTrieIndex data), snd index)
  | Checker.bloom => (fst index, Some (buildBloomFilter m k data))
  | Checker.hybrid => (Some (buildTrieIndex data), Some (buildBloomFilter m k data))
  | Checker.hash => index
  end.

(** [updateComponents] (lines 667-680): the domain checker built from the
    loaded sets and the index. *)
Definition updateComponents (data : Data) (trustedDomains : list string)
    (enableSubdomainChecking : bool) (index : Index) (strategy : Checker.Strategy)
    : Checker.Config :=
  Checker.mkConfig (list_to_set (disposableDomains data)) (list_to_set (allowlist data))
    (list_to_set (blacklist data)) trustedDomains enableSubdomainChecking
    (fst index) (snd index) strategy.

(** The domain checker [initialize] (lines 560-579) ends with: the fields
    [domainTrie] and [bloomFilter] start undefined, and [buildIndex] runs
    when [enableIndexing] is set. *)
Definition initialChecker (data : Data) (trustedDomains : list string)
    (enableSubdomainChecking enableIndexing : bool) (strategy : Checker.Strategy)
    (m : Z) (k : nat) : Checker.Config :=
  updateComponents data trustedDomains enableSubdomainChecking
    (if enableIndexing then buildIndex strategy m k data (None, None) else (None, None))
    strategy.

(** How the flags of a result go together: an allowed address is valid and
    neither disposable nor blacklisted; a disposable or blacklisted one is
    valid. *)
Definition flagsConsistent (r : EmailValidationResult) : Prop :=
  (isAllowed r = true ->
   isValid r = true /\ isDisposable r = false /\ isBlacklisted r = false) /\
  (isDisposable r = true -> isValid r = true) /\
  (isBlacklisted r = true -> isValid r = true).

(** The confidence of every cached result and of every cached domain
    check is a percentage. *)
Definition confidenceBounded (st : State) : Prop :=
  (forall k e, In (k, e) (MemoryCache.cache (resultCache st)) ->
               0 <= confidence (MemoryCache.result e) <= 100) /\
  (forall d r, In (d, r) (domainCache st) -> 0 <= dConfidence r <= 100).

(** [addToAllowlist] (lines 890-892) and [addToBlacklist] (lines
    897-899) hand the domain to the domain checker; the result cache is
    not touched. *)
Definition withChecker (cfg : Config) (st : State) (dc : DomainChecker.State)
    : Config * State :=
  (mkConfig (strictValidation cfg) (enableCaching cfg) (enablePatternMatching cfg)
            (checkMxRecord cfg) (DomainChecker.config dc),
   mkState (resultCache st) (DomainChecker.cached dc)).

Definition addToAllowlist (cfg : Config) (st : State) (domain : string) : Config * State :=
  withChecker cfg st
    (DomainChecker.addToAllowlist (DomainChecker.mkState (checker cfg) (domainCache st))
       domain).

Definition addToBlacklist (cfg : Config) (st : State) (domain : string) : Config * State :=
  withChecker cfg st
    (DomainChecker.addToBlacklist (DomainChecker.mkState (checker cfg) (domainCache st))
       domain).

(** A change of the lists, and the checker after it. *)
Inductive ListChange :=
| AddToAllowlist (domain : string)
| AddToBlacklist (domain : string).

Definition change (checker : Config * State) (c : ListChange) : Config * State :=
  match c with
  | AddToAllowlist domain => addToAllowlist (fst checker) (snd checker) domain
  | AddToBlacklist domain => addToBlacklist (fst checker) (snd checker) domain
  end.

(** [updateConfig] (lines 969-980) called with [{ strictValidation }]: the
    configuration and the validator take the new value (lines 970-973); no
    index is rebuilt, as no strategy is given, and the caches are left as
    they are. *)
Definition updateConfig (cfg : Config) (newStrictValidation : bool) : Config :=
  mkConfig newStrictValidation (enableCaching cfg) (enablePatternMatching cfg)
           (checkMxRecord cfg) (checker cfg).

(** What [checkEmail] takes from the result cache (lines 689-699): the
    result of the live entry of [email], when caching is on. *)
Definition cachedResult (cfg : Config) (clock : Clock) (st : State) (email : string)
    : option EmailValidationResult :=
  if enableCaching cfg
  then fst (MemoryCache.get (nowGet clock) (resultCache st) email)
  else None.

End DisposableEmailChecker.

(* ===================================================================== *)
(** * Reports and counters: [AnalyticsEngine.generateValidationReport]
    (src/unnamed/part_002) and [MetricsManager] (src/unnamed/part_003) *)
(* ===================================================================== *)

Module AnalyticsEngine.
Import Types.

(** The [summary] of a [ValidationReport] (src/src/client/types.ts lines
    124-131). *)
Record Summary := mkSummary {
  total : Z;
  valid : Z;
  invalid : Z;
  disposable : Z;
  allowed : Z;
  blacklisted : Z
}.

(** [results.filter(f).length]. *)
Definition count (f : EmailValidationResult -> bool) (results : list EmailValidationResult)
    : Z :=
  Z.of_nat (length (List.filter f results)).

(** The [summary] that [generateValidationReport] builds
    (src/unnamed/part_002 lines 13-20). *)
Definition summary (results : list EmailValidationResult) : Summary :=
  mkSummary (Z.of_nat (length results))
    (count isValid results)
    (count (fun r => negb (isValid r)) results)
    (count isDisposable results)
    (count isAllowed results)
    (count isBlacklisted results).

(** The matrix of [calculateSimilarity] (lines 102-131), row by row.  Row
    0 is [0, 1, ..., len1] (lines 111-113). *)
Definition firstRow (str1 : string) : list Z :=
  map Z.of_nat (seq 0 (S (String.length str1))).

(** The cells [matrix[i][j]], [matrix[i][j+1]], ... of a row (lines
    116-126): [c2] is [str2.charAt(i - 1)], [str1] holds the characters
    from [j - 1] on, [above] the row [i - 1] from [j - 1] on, and [left] is
    [matrix[i][j - 1]]. *)
Fixpoint fillRow (c2 : ascii) (str1 : string) (above : list Z) (left : Z) : list Z :=
  match str1, above with
  | String c1 rest, diag :: ((up :: _) as above') =>
      let cell :=
        if Ascii.eqb c2 c1 then diag
        else Z.min (Z.min (diag + 1) (left + 1)) (up + 1) in
      cell :: fillRow c2 rest above' cell
  | _, _ => []
  end.

(** Row [i]: [matrix[i] = [i]] (line 108), then its other cells. *)
Definition nextRow (str1 : string) (i : Z) (c2 : ascii) (above : list Z) : list Z :=
  i :: fillRow c2 str1 above i.

(** The rows for the characters of [str2] that are left, [above] being
    row [i - 1]; the result is the last row. *)
Fixpoint lastRow (str1 str2 : string) (i : Z) (above : list Z) : list Z :=
  match str2 with
  | EmptyString => above
  | String c2 rest => lastRow str1 rest (i + 1) (nextRow str1 i c2 above)
  end.

(** [matrix[len2][len1]]. *)
Definition distance (str1 str2 : string) : Z :=
  List.last (lastRow str1 str2 1 (firstRow str1)) 0.

(** What a cell holds for the prefixes [p2] of [str2] and [p1] of [str1]
    it stands for. *)
Definition cellOk (p2 p1 : string) (v : Z) : Prop :=
  Z.abs (Js.len p2 - Js.len p1) <= v <= Z.max (Js.len p2) (Js.len p1) /\
  (v = 0 <-> p2 = p1).

(** A row from the cell of [p1] on, [rest] being what follows [p1] in
    [str1]. *)
Fixpoint rowOk (p2 p1 rest : string) (row : list Z) : Prop :=
  match row, rest with
  | [v], EmptyString => cellOk p2 p1 v
  | v :: row', String c rest' =>
      cellOk p2 p1 v /\ rowOk p2 (p1 ++ String c "") rest' row'
  | _, _ => False
  end.

End AnalyticsEngine.

Module MetricsManager.
Import Types.

(** The counters of [PerformanceMetrics] (src/src/client/types.ts lines
    37-42); the averages and rates computed in floating point next to them
    do not enter the counters. *)
Record Counters := mkCounters {
  totalValidations : Z;
  successfulValidations : Z;
  failedValidations : Z;
  disposableDetected : Z;
  allowedOverrides : Z;
  blacklistedDetected : Z
}.

(** [initializeMetrics] (src/unnamed/part_003 lines 18-32). *)
Definition initializeMetrics : Counters := mkCounters 0 0 0 0 0 0.

Definition bump (b : bool) (n : Z) : Z := if b then n + 1 else n.

(** [updateMetrics] (lines 37-65) on the counters. *)
Definition updateMetrics (m : Counters) (operation : string)
    (result : option EmailValidationResult) : Counters :=
  let total := totalValidations m + 1 in
  if String.eqb operation "validation" then
    match result with
    | Some r =>
        mkCounters total (successfulValidations m + 1) (failedValidations m)
          (bump (isDisposable r) (disposableDetected m))
          (bump (isAllowed r) (allowedOverrides m))
          (bump (isBlacklisted r) (blacklistedDetected m))
    | None =>
        mkCounters total (successfulValidations m) (failedValidations m)
          (disposableDetected m) (allowedOverrides m) (blacklistedDetected m)
    end
  else if String.eqb operation "error" then
    mkCounters total (successfulValidations m) (failedValidations m + 1)
      (disposableDetected m) (allowedOverrides m) (blacklistedDetected m)
  else
    mkCounters total (successfulValidations m) (failedValidations m)
      (disposableDetected m) (allowedOverrides m) (blacklistedDetected m).

(** [reset] (lines 103-106). *)
Definition reset (m : Counters) : Counters := initializeMetrics.

(** One call on the manager. *)
Inductive Call :=
| CallUpdateMetrics (operation : string) (result : option EmailValidationResult)
| CallReset.

Definition after (m : Counters) (call : Call) : Counters :=
  match call with
  | CallUpdateMetrics operation result => updateMetrics m operation result
  | CallReset => reset m
  end.

(** What every sequence of calls keeps. *)
Definition countersConsistent (m : Counters) : Prop :=
  0 <= successfulValidations m /\ 0 <= failedValidations m /\
  successfulValidations m + failedValidations m <= totalValidations m /\
  0 <= disposableDetected m <= successfulValidations m /\
  0 <= allowedOverrides m <= successfulValidations m /\
  0 <= blacklistedDetected m <= successfulValidations m.

End MetricsManager.

(* ===================================================================== *)
(** * [DataLoader] (src/unnamed/part_004 lines 9-194) *)
(* ===================================================================== *)

Module DataLoader.

(** What [trim] removes, among 8-bit code units: TAB, LF, VT, FF, CR, the
    space and the no-break space. *)
Definition isWhiteSpace (c : ascii) : bool :=
  let n := N_of_ascii c in
  ((9 <=? n) && (n <=? 13))%N || (n =? 32)%N || (n =? 160)%N.

Fixpoint trimStart (s : string) : string :=
  match s with
  | EmptyString => EmptyString
  | String c rest => if isWhiteSpace c then trimStart rest else s
  end.

Fixpoint trimEnd (s : string) : string :=
  match s with
  | EmptyString => EmptyString
  | String c rest =>
      match trimEnd rest with
      | EmptyString => if isWhiteSpace c then EmptyString else String c EmptyString
      | kept => String c kept
      end
  end.

(** [line.trim()]. *)
Definition trim (s : string) : string := trimEnd (trimStart s).

(** [content.split("\n").map((line) => line.trim()).filter(Boolean)]
    (lines 24-27, 42-45, 91-94 and 122-125). *)
Definition lines (content : string) : list string :=
  List.filter (fun line => negb (String.eqb line ""))
              (map trim (Js.split "010" content)).

(** [isValidDomain] (lines 164-168). *)
Definition isValidDomain (domain : string) : bool :=
  Regex.test EmailValidator.domainRegex domain && (Js.len domain <=? 253).

(** A [Set<string>] in insertion order, and its [add]. *)
Definition setAdd (x : string) (s : list string) : list string :=
  if existsb (String.eqb x) s then s else s ++ [x].

(** The loop that fills the set (lines 66-70, 97-101 and 128-132). *)
Definition validDomains (domains : list string) : list string :=
  fold_left
    (fun domainsSet domain =>
       if isValidDomain domain then setAdd (Js.toLowerCase domain) domainsSet
       else domainsSet)
    domains [].

(** What [existsSync] and [readFileSync] find at a path. *)
Inductive File :=
| Missing
| Unreadable
| Readable (content : string).

(** [loadAllowlist] (lines 83-109) and [loadBlacklist] (lines 114-140):
    the set is empty when the file is missing or cannot be read. *)
Definition loadList (file : File) : list string :=
  match file with
  | Readable content => validDomains (lines content)
  | Missing | Unreadable => []
  end.

Definition loadAllowlist (file : File) : list string := loadList file.
Definition loadBlacklist (file : File) : list string := loadList file.

(** What the download gives: the body of an [ok] response, or nothing
    ([fetch] or [text] rejects, or the response is not [ok]). *)
Inductive Download :=
| Failed
| Body (content : string).

(** [loadDisposableDomains] (lines 13-78): the set, and the content the
    function saves to the local file if it saves one; [None] when reading
    the local file throws, which the function throws again.  What
    [mkdirSync] or [writeFileSync] throw is caught with the download
    errors, after [domains] is assigned, so that the set does not depend
    on it. *)
Definition loadDisposableDomains (localFile : File) (autoUpdate : bool)
    (download : Download) : option (list string * option string) :=
  match localFile with
  | Unreadable => None
  | _ =>
      let domains :=
        match localFile with
        | Readable content => lines content
        | _ => []
        end in
      let '(domains, written) :=
        if autoUpdate || (length domains =? 0)%nat then
          match download with
          | Body content =>
              let downloadedDomains := lines content in
              if (length domains <? length downloadedDomains)%nat
              then (downloadedDomains, Some (Js.join (String "010" "") downloadedDomains))
              else (domains, None)
          | Failed => (domains, None)
          end
        else (domains, None) in
      Some (validDomains domains, written)
  end.

(** [Array.from(domains).sort()]: the strings in the order of their code
    units. *)
Fixpoint insertSorted (x : string) (l : list string) : list string :=
  match l with
  | [] => [x]
  | y :: rest => if String.leb x y then x :: l else y :: insertSorted x rest
  end.

Fixpoint sort (l : list string) : list string :=
  match l with
  | [] => []
  | x :: rest => insertSorted x (sort rest)
  end.

(** [saveDomains] (lines 145-159): the content handed to
    [writeFileSync]. *)
Definition saveDomains (domains : list string) : string :=
  Js.join (String "010" "") (sort domains).

(** A domain as the loaders store it. *)
Definition stored (d : string) : Prop :=
  isValidDomain d = true /\ Js.toLowerCase d = d.

End DataLoader.

(* ===================================================================== *)
(** * [CacheFactoryRegistry] (src/unnamed/part_006 lines 267-327) *)
(* ===================================================================== *)

Module CacheFactoryRegistry.

(** The factories: the two built-in ones and those a caller registers. *)
Inductive Factory :=
| MemoryCacheFactory
| NoOpCacheFactory
| CustomFactory (name : string).

(** The static fields [factories] and [defaultFactory]. *)
Record t := Build {
  factories : list (string * Factory);
  defaultFactory : string
}.

(** The registry after the static block (lines 271-275). *)
Definition initial : t :=
  Build [("memory"%string, MemoryCacheFactory); ("noop"%string, NoOpCacheFactory)] "memory".

(** [register] (lines 280-283). *)
Definition register (r : t) (type : string) (factory : Factory) : t :=
  Build (Js.mapSet type factory (factories r)) (defaultFactory r).

(** [create] (lines 288-296): the factory whose [create(config)] makes the
    cache.  For an unknown type the function calls itself with the default
    type; [fuel] bounds the depth of these calls, and [None] is the
    recursion still going on when it is used up. *)
Fixpoint createFuel (fuel : nat) (r : t) (type : string) : option Factory :=
  match fuel with
  | O => None
  | S fuel' =>
      match Js.mapGet type (factories r) with
      | Some factory => Some factory
      | None => createFuel fuel' r (defaultFactory r)
      end
  end.

(** [type] defaults to [this.defaultFactory]. *)
Definition create (fuel : nat) (r : t) (type : option string) : option Factory :=
  createFuel fuel r (match type with Some t => t | None => defaultFactory r end).

(** [getAvailableTypes] (lines 301-303). *)
Definition getAvailableTypes (r : t) : list string := map fst (factories r).

(** [setDefault] (lines 308-315): [None] is the [Error] thrown for an
    unknown type. *)
Definition setDefault (r : t) (type : string) : option t :=
  if Js.mapHas type (factories r) then Some (Build (factories r) type) else None.

(** [unregister] (lines 320-326). *)
Definition unregister (r : t) (type : string) : bool * t :=
  (Js.mapHas type (factories r), Build (Js.mapDelete type (factories r)) (defaultFactory r)).

(** One call that changes the registry, and the registry after it; a
    [setDefault] that throws leaves it as it is. *)
Inductive Call :=
| CallRegister (type : string) (factory : Factory)
| CallSetDefault (type : string)
| CallUnregister (type : string).

Definition after (r : t) (call : Call) : t :=
  match call with
  | CallRegister type factory => register r type factory
  | CallSetDefault type => match setDefault r type with Some r' => r' | None => r end
  | CallUnregister type => snd (unregister r type)
  end.

(** No call of the sequence unregisters the type that is the default at
    that moment. *)
Fixpoint keepsDefault (r : t) (calls : list Call) : bool :=
  match calls with
  | [] => true
  | call :: rest =>
      match call with
      | CallUnregister type => negb (String.eqb type (defaultFactory r))
      | _ => true
      end && keepsDefault (after r call) rest
  end.

End CacheFactoryRegistry.

(** Splits the six parts of [CacheManager.coalescing]. *)
Ltac split_coalescing := split; [|split; [|split; [|split; [|split]]]].

(* ===================================================================== *)
(** * Properties *)
(* ===================================================================== *)

Module JsFacts.
Import Js.

Lemma toInt32_range x : - 2 ^ 31 <= toInt32 x < 2 ^ 31.
Proof. unfold toInt32. pose proof (Z.mod_pos_bound (x + 2 ^ 31) (2 ^ 32)). lia. Qed.

Lemma toInt32_small x : - 2 ^ 31 <= x < 2 ^ 31 -> toInt32 x = x.
Proof. intros Hx. unfold toInt32. rewrite Z.mod_small; lia. Qed.

Lemma abs_rem_range a b : 0 < b -> 0 <= Z.abs (rem a b) < b.
Proof.
  intros Hb. unfold rem. split; [apply Z.abs_nonneg|].
  pose proof (Z.rem_bound_abs a b ltac:(lia)). lia.
Qed.

End JsFacts.

(* --------------------------------------------------------------------- *)
(** ** Bloom filter over a [Uint8Array] *)
(* --------------------------------------------------------------------- *)

Module BloomFilterFacts.
Import BloomFilter.

Lemma hash_range b str seed : 0 < size b -> 0 <= hash b str seed < size b.
Proof.
  intros Hm. unfold hash.
  destruct (fold_left hashStep (Js.charCodes str) (0x811c9dc5, seed)) as [h1 h2].
  now apply JsFacts.abs_rem_range.
Qed.

Lemma length_setBit arr i : length (setBit arr i) = length arr.
Proof. unfold setBit. destruct (arr !! _); [apply length_insert | reflexivity]. Qed.

Lemma length_fold_setBit l arr : length (fold_left setBit l arr) = length arr.
Proof.
  revert arr. induction l as [|i l IH]; intros arr; simpl; [reflexivity|].
  rewrite IH. apply length_setBit.
Qed.

(** A bit position below 8 survives the store into a byte. *)
Lemma testbit_toUint8 x p : 0 <= p < 8 -> Z.testbit (Js.toUint8 x) p = Z.testbit x p.
Proof.
  intros Hp. unfold Js.toUint8. change 256 with (2 ^ 8).
  apply Z.mod_pow2_bits_low. lia.
Qed.

Lemma land_bit_nonzero x p :
  0 <= p -> negb (Z.land x (Z.shiftl 1 p) =? 0) = Z.testbit x p.
Proof.
  intros Hp. rewrite Z.shiftl_1_l.
  destruct (Z.testbit x p) eqn:Hb.
  - apply negb_true_iff, Z.eqb_neq. intros H0.
    assert (Z.testbit (Z.land x (2 ^ p)) p = false) as Hc by (rewrite H0; apply Z.bits_0).
    rewrite Z.land_spec, Hb, Z.pow2_bits_true in Hc by lia. discriminate.
  - apply negb_false_iff, Z.eqb_eq. apply Z.bits_inj'. intros n Hn.
    rewrite Z.land_spec, Z.bits_0.
    destruct (Z.eq_dec n p) as [->|Hne].
    + rewrite Hb. reflexivity.
    + rewrite Z.pow2_bits_false by lia. apply andb_false_r.
Qed.

Lemma bitPosition_range i : 0 <= i mod bitsPerByte < 8.
Proof. unfold bitsPerByte. apply Z.mod_pos_bound. lia. Qed.

(** [testBit] reads bit [i mod 8] of byte [i / 8]. *)
Lemma testBit_spec arr i :
  testBit arr i =
  match arr !! Z.to_nat (i / bitsPerByte) with
  | Some byte => Z.testbit byte (i mod bitsPerByte)
  | None => false
  end.
Proof.
  unfold testBit. destruct (arr !! _); [|reflexivity].
  apply land_bit_nonzero. apply bitPosition_range.
Qed.

(** Setting a bit that lies inside the array makes it read as set. *)
Lemma testBit_setBit_same arr i :
  0 <= i -> (Z.to_nat (i / bitsPerByte) < length arr)%nat ->
  testBit (setBit arr i) i = true.
Proof.
  intros Hi Hlen. rewrite testBit_spec. unfold setBit.
  destruct (lookup_lt_is_Some_2 arr _ Hlen) as [byte Hb]. rewrite Hb.
  rewrite list_lookup_insert_eq by exact Hlen.
  pose proof (bitPosition_range i).
  rewrite testbit_toUint8, Z.lor_spec, Z.shiftl_1_l, Z.pow2_bits_true by lia.
  apply orb_true_r.
Qed.

(** Setting a bit never clears another one. *)
Lemma testBit_setBit_mono arr i j :
  testBit arr j = true -> testBit (setBit arr i) j = true.
Proof.
  rewrite !testBit_spec. unfold setBit.
  destruct (arr !! Z.to_nat (i / bitsPerByte)) as [byte|] eqn:Hb; [|tauto].
  destruct (decide (Z.to_nat (i / bitsPerByte) = Z.to_nat (j / bitsPerByte))) as [He|Hne].
  - rewrite <- He, Hb. rewrite list_lookup_insert_eq by (eapply lookup_lt_Some; eauto).
    intros Hset. pose proof (bitPosition_range j).
    rewrite testbit_toUint8, Z.lor_spec, Hset by lia. reflexivity.
  - rewrite list_lookup_insert_ne by exact Hne. tauto.
Qed.

Lemma testBit_fold_setBit_mono l arr j :
  testBit arr j = true -> testBit (fold_left setBit l arr) j = true.
Proof.
  revert arr. induction l as [|i l IH]; intros arr H; simpl; [exact H|].
  apply IH. now apply testBit_setBit_mono.
Qed.

Lemma testBit_fold_setBit_in l arr j :
  In j l -> 0 <= j -> (Z.to_nat (j / bitsPerByte) < length arr)%nat ->
  testBit (fold_left setBit l arr) j = true.
Proof.
  revert arr. induction l as [|i l IH]; intros arr Hin Hj Hlen; simpl; [destruct Hin|].
  destruct Hin as [->|Hin].
  - apply testBit_fold_setBit_mono. now apply testBit_setBit_same.
  - apply IH; [exact Hin | exact Hj | now rewrite length_setBit].
Qed.

(** Under [wf], every bit index of an item falls inside the array. *)
Lemma bitIndices_inside b item j :
  wf b -> In j (bitIndices b item) ->
  0 <= j /\ (Z.to_nat (j / bitsPerByte) < length (bitArray b))%nat.
Proof.
  intros [Hlen Hpos] Hin. unfold bitIndices in Hin.
  apply in_map_iff in Hin as (seed & <- & Hseed).
  destruct Hpos as [Hpos|Hk].
  - pose proof (hash_range b item seed Hpos) as Hr. split; [lia|].
    unfold byteSize, Js.ceilDiv, bitsPerByte in *.
    assert (hash b item seed / 8 < (size b + 8 - 1) / 8).
    { apply Z.div_lt_upper_bound; [lia|].
      pose proof (Z.mul_div_le (size b + 8 - 1) 8 ltac:(lia)).
      pose proof (Z.mod_pos_bound (size b + 8 - 1) 8 ltac:(lia)).
      pose proof (Z.div_mod (size b + 8 - 1) 8 ltac:(lia)). lia. }
    pose proof (Z.div_pos (hash b item seed) 8 ltac:(lia) ltac:(lia)). lia.
  - unfold hashSeeds in Hseed. rewrite Hk in Hseed. destruct Hseed.
Qed.

Lemma wf_add b item : wf b -> wf (add b item).
Proof.
  intros [Hlen Hpos]. split; simpl; [|exact Hpos].
  rewrite length_fold_setBit. exact Hlen.
Qed.

Lemma wf_addAll b items : wf b -> wf (addAll b items).
Proof.
  revert b. induction items as [|y ys IH]; intros b Hwf; simpl; [exact Hwf|].
  apply IH. now apply wf_add.
Qed.

Lemma wf_new m k : 0 < m -> wf (new m k).
Proof.
  intros Hm. split; simpl; [|now left].
  rewrite length_replicate. unfold byteSize, Js.ceilDiv, bitsPerByte. simpl.
  rewrite Z2Nat.id; [reflexivity|]. apply Z.div_pos; lia.
Qed.

Lemma contains_add b item : wf b -> contains (add b item) item = true.
Proof.
  intros Hwf. unfold contains. apply forallb_forall. intros j Hj.
  change (bitIndices (add b item) item) with (bitIndices b item) in Hj.
  destruct (bitIndices_inside b item j Hwf Hj) as [H0 Hlen].
  simpl. now apply testBit_fold_setBit_in.
Qed.

Lemma contains_add_mono b x y : contains b x = true -> contains (add b y) x = true.
Proof.
  unfold contains. rewrite !forallb_forall. intros H j Hj.
  change (bitIndices (add b y) x) with (bitIndices b x) in Hj.
  simpl. apply testBit_fold_setBit_mono. now apply H.
Qed.

Lemma contains_addAll_mono b x ys : contains b x = true -> contains (addAll b ys) x = true.
Proof.
  revert b. induction ys as [|y ys IH]; intros b H; simpl; [exact H|].
  apply IH. now apply contains_add_mono.
Qed.

End BloomFilterFacts.

(* --------------------------------------------------------------------- *)
(** ** Bloom filter over a [boolean[]] *)
(* --------------------------------------------------------------------- *)

Module ArrayBloomFilterFacts.
Import ArrayBloomFilter.

Lemma isSet_setTrue_same arr i : isSet (setTrue arr i) i = true.
Proof.
  unfold isSet, setTrue.
  destruct (Nat.ltb_spec (Z.to_nat i) (length arr)) as [Hlt|Hge].
  - now rewrite list_lookup_insert_eq.
  - rewrite lookup_app_r by exact Hge.
    rewrite lookup_app_r by (rewrite length_replicate; lia).
    rewrite length_replicate, Nat.sub_diag. reflexivity.
Qed.

Lemma isSet_setTrue_mono arr i j : isSet arr j = true -> isSet (setTrue arr i) j = true.
Proof.
  unfold isSet, setTrue. intros Hj.
  destruct (arr !! Z.to_nat j) as [v|] eqn:Hv; [simpl in Hj; subst v|discriminate].
  destruct (Nat.ltb_spec (Z.to_nat i) (length arr)) as [Hlt|Hge].
  - destruct (decide (Z.to_nat i = Z.to_nat j)) as [He|Hne].
    + rewrite He, list_lookup_insert_eq; [reflexivity|]. now rewrite <- He.
    + rewrite list_lookup_insert_ne by exact Hne. now rewrite Hv.
  - rewrite lookup_app_l by (eapply lookup_lt_Some; eauto). now rewrite Hv.
Qed.

Lemma isSet_fold_setTrue_mono l arr j :
  isSet arr j = true -> isSet (fold_left setTrue l arr) j = true.
Proof.
  revert arr. induction l as [|i l IH]; intros arr H; simpl; [exact H|].
  apply IH. now apply isSet_setTrue_mono.
Qed.

Lemma isSet_fold_setTrue_in l arr j :
  In j l -> isSet (fold_left setTrue l arr) j = true.
Proof.
  revert arr. induction l as [|i l IH]; intros arr Hin; simpl; [destruct Hin|].
  destruct Hin as [->|Hin].
  - apply isSet_fold_setTrue_mono, isSet_setTrue_same.
  - now apply IH.
Qed.

(** With at least one bit, every index is a position of the array as the
    constructor allocated it. *)
Lemma hashFunction_range b i str : 0 < size b -> 0 <= hashFunction b i str < size b.
Proof.
  intros Hm. unfold hashFunction. split; [apply Z.abs_nonneg|].
  assert (forall l acc, Z.abs acc < size b ->
            Z.abs (fold_left (fun hash char =>
                     Js.rem (Js.shl hash 5 + hash + char + Z.of_nat i) (size b)) l acc)
            < size b) as Hfold.
  { induction l as [|c l IH]; intros acc Hacc; simpl; [exact Hacc|].
    apply IH. now apply JsFacts.abs_rem_range. }
  apply Hfold. simpl. exact Hm.
Qed.

Lemma array_contains_add b item : contains (add b item) item = true.
Proof.
  unfold contains. apply forallb_forall. intros j Hj.
  change (indices (add b item) item) with (indices b item) in Hj.
  simpl. now apply isSet_fold_setTrue_in.
Qed.

Lemma array_contains_add_mono b x y : contains b x = true -> contains (add b y) x = true.
Proof.
  unfold contains. rewrite !forallb_forall. intros H j Hj.
  change (indices (add b y) x) with (indices b x) in Hj.
  simpl. apply isSet_fold_setTrue_mono. now apply H.
Qed.

Lemma array_contains_addAll_mono b x ys : contains b x = true -> contains (addAll b ys) x = true.
Proof.
  revert b. induction ys as [|y ys IH]; intros b H; simpl; [exact H|].
  apply IH. now apply array_contains_add_mono.
Qed.

Lemma array_wf_add b item : wf b -> wf (add b item).
Proof. intros H. exact H. Qed.

End ArrayBloomFilterFacts.

(* --------------------------------------------------------------------- *)
(** ** Maps in insertion order *)
(* --------------------------------------------------------------------- *)

Module MapFacts.
Import Js.

Section WithValues.
Context {V : Type}.
Implicit Types (m : list (string * V)) (k : string) (v : V).

Lemma mapGet_mapSet_eq k v m : mapGet k (mapSet k v m) = Some v.
Proof.
  induction m as [|[k' v'] m IH]; simpl.
  - now rewrite String.eqb_refl.
  - destruct (String.eqb k' k) eqn:E; simpl.
    + now rewrite String.eqb_refl.
    + now rewrite E.
Qed.

Lemma mapGet_mapSet_ne k k' v m : k <> k' -> mapGet k' (mapSet k v m) = mapGet k' m.
Proof.
  intros Hne. induction m as [|[k0 v0] m IH]; simpl.
  - apply String.eqb_neq in Hne. now rewrite Hne.
  - destruct (String.eqb k0 k) eqn:E; simpl.
    + apply String.eqb_eq in E. subst k0.
      apply String.eqb_neq in Hne. now rewrite Hne.
    + now rewrite IH.
Qed.

Lemma keys_mapSet_present k v m :
  is_Some (mapGet k m) -> map fst (mapSet k v m) = map fst m.
Proof.
  induction m as [|[k0 v0] m IH]; simpl; intros [c Hc]; [discriminate|].
  destruct (String.eqb k0 k) eqn:E; simpl.
  - apply String.eqb_eq in E. now subst.
  - f_equal. apply IH. eauto.
Qed.

Lemma keys_mapSet_absent k v m :
  mapGet k m = None -> map fst (mapSet k v m) = map fst m ++ [k].
Proof.
  induction m as [|[k0 v0] m IH]; simpl; intros Hc; [reflexivity|].
  destruct (String.eqb k0 k) eqn:E; [discriminate|]. simpl. f_equal. now apply IH.
Qed.

Lemma mapGet_None_notin k m : mapGet k m = None -> ~ In k (map fst m).
Proof.
  induction m as [|[k0 v0] m IH]; simpl; intros Hc; [tauto|].
  destruct (String.eqb k0 k) eqn:E; [discriminate|].
  apply String.eqb_neq in E. intros [H|H]; [congruence|]. now apply IH.
Qed.

Lemma mapGet_Some_in k v m : mapGet k m = Some v -> In (k, v) m.
Proof.
  induction m as [|[k0 v0] m IH]; simpl; intros Hc; [discriminate|].
  destruct (String.eqb k0 k) eqn:E.
  - apply String.eqb_eq in E. left. congruence.
  - right. now apply IH.
Qed.

Lemma NoDup_keys_mapSet k v m : NoDup (map fst m) -> NoDup (map fst (mapSet k v m)).
Proof.
  intros Hnd. destruct (mapGet k m) as [c|] eqn:Hc.
  - rewrite keys_mapSet_present by eauto. exact Hnd.
  - rewrite keys_mapSet_absent by exact Hc.
    apply NoDup_app. split; [exact Hnd|]. split.
    + intros x Hx Hk. apply list_elem_of_In in Hx.
      apply list_elem_of_singleton in Hk. subst x.
      now apply (mapGet_None_notin k m).
    + apply NoDup_singleton.
Qed.

Lemma mapGet_mapDelete_ne k k' m : k <> k' -> mapGet k' (mapDelete k m) = mapGet k' m.
Proof.
  intros Hne. induction m as [|[k0 v0] m IH]; simpl; [reflexivity|].
  destruct (String.eqb_spec k0 k) as [->|Hk]; simpl.
  - apply String.eqb_neq in Hne. now rewrite Hne.
  - now rewrite IH.
Qed.

Lemma mapGet_mapDelete_eq_or k k' m v :
  mapGet k' (mapDelete k m) = Some v -> In (k', v) m.
Proof.
  induction m as [|[k0 v0] m IH]; simpl; [discriminate|].
  destruct (String.eqb_spec k0 k) as [->|Hk]; simpl.
  - intros H. right. now apply mapGet_Some_in.
  - destruct (String.eqb_spec k0 k') as [->|Hk']; [intros [= ->]; now left|].
    intros H. right. now apply IH.
Qed.

Lemma in_mapDelete k m p : In p (mapDelete k m) -> In p m.
Proof.
  induction m as [|[k0 v0] m IH]; simpl; [tauto|].
  destruct (String.eqb k0 k); simpl; [tauto|]. intros [H|H]; auto.
Qed.

(** Every value of [mapSet k v m] is [v] or a value of [m]. *)
Lemma in_mapSet k v m p : In p (mapSet k v m) -> p = (k, v) \/ In p m.
Proof.
  induction m as [|[k0 v0] m IH]; simpl.
  - intros [H|[]]. now left.
  - destruct (String.eqb k0 k); simpl; intros [H|H]; auto.
    destruct (IH H); auto.
Qed.

End WithValues.

End MapFacts.

(* --------------------------------------------------------------------- *)
(** ** Suffix trie: counting nodes, terminal nodes and paths *)
(* --------------------------------------------------------------------- *)

Module TrieFacts.
Import Js Trie MapFacts.

Lemma nodeCount_unfold ch e src : nodeCount (Node ch e src) = S (sumNodes ch).
Proof.
  simpl. f_equal. unfold sumNodes.
  induction ch as [|[k c] ch IH]; simpl; [reflexivity|]. now rewrite IH.
Qed.

Lemma sumNodes_mapSet_present k c c' ch :
  mapGet k ch = Some c ->
  (sumNodes (mapSet k c' ch) + nodeCount c = sumNodes ch + nodeCount c')%nat.
Proof.
  unfold sumNodes. induction ch as [|[k0 c0] ch IH]; simpl; intros Hc; [discriminate|].
  destruct (String.eqb k0 k) eqn:E; simpl.
  - injection Hc as ->. lia.
  - specialize (IH Hc). lia.
Qed.

Lemma sumNodes_mapSet_absent k c' ch :
  mapGet k ch = None -> sumNodes (mapSet k c' ch) = (sumNodes ch + nodeCount c')%nat.
Proof.
  unfold sumNodes. induction ch as [|[k0 c0] ch IH]; simpl; intros Hc; [lia|].
  destruct (String.eqb k0 k) eqn:E; [discriminate|]. simpl. rewrite IH by exact Hc. lia.
Qed.

Lemma terminals_unfold ch e src :
  terminals (Node ch e src) = (if e then [([], src)] else []) ++ childTerminals ch.
Proof.
  simpl. f_equal. unfold childTerminals.
  induction ch as [|[k c] ch IH]; simpl; [reflexivity|]. now rewrite IH.
Qed.

Lemma length_childTerminals_mapSet_present k c c' ch :
  mapGet k ch = Some c ->
  (length (childTerminals (mapSet k c' ch)) + length (terminals c)
   = length (childTerminals ch) + length (terminals c'))%nat.
Proof.
  unfold childTerminals. induction ch as [|[k0 c0] ch IH]; simpl; intros Hc; [discriminate|].
  destruct (String.eqb k0 k) eqn:E; simpl.
  - injection Hc as ->. rewrite !length_app, !length_map. lia.
  - specialize (IH Hc). rewrite !length_app, !length_map. lia.
Qed.

Lemma uniqueKeys_unfold ch e src :
  uniqueKeys (Node ch e src) <->
  NoDup (map fst ch) /\ (forall p, In p ch -> uniqueKeys (snd p)).
Proof.
  simpl. apply and_iff_compat_l.
  induction ch as [|[k c] ch IH]; simpl.
  - split; [intros _ p []|trivial].
  - rewrite IH. split.
    + intros [Hc Hall] p [<-|Hp]; [exact Hc|now apply Hall].
    + intros Hall. split; [apply (Hall (k, c)); now left|].
      intros p Hp. apply Hall. now right.
Qed.

Lemma uniqueKeys_newNode : uniqueKeys newNode.
Proof. simpl. split; [constructor|trivial]. Qed.

Lemma uniqueKeys_child k c n :
  uniqueKeys n -> mapGet k (children n) = Some c -> uniqueKeys c.
Proof.
  destruct n as [ch e src]. rewrite uniqueKeys_unfold. simpl. intros [_ Hall] Hc.
  apply (Hall (k, c)). now apply mapGet_Some_in.
Qed.

Lemma uniqueKeys_mapSet k c' ch e src e' src' :
  uniqueKeys (Node ch e src) -> uniqueKeys c' ->
  uniqueKeys (Node (mapSet k c' ch) e' src').
Proof.
  rewrite !uniqueKeys_unfold. intros [Hnd Hall] Hc'. split.
  - now apply NoDup_keys_mapSet.
  - intros p Hp. destruct (in_mapSet _ _ _ _ Hp) as [->|Hin]; [exact Hc'|now apply Hall].
Qed.

End TrieFacts.

(* --------------------------------------------------------------------- *)
(** ** Pooled trie: [insert] along a path *)
(* --------------------------------------------------------------------- *)

Module PooledTrieFacts.
Import Js Trie MapFacts TrieFacts PooledTrieIndex.

Lemma getPooledNode_fst nodePool : fst (getPooledNode nodePool) = newNode.
Proof. destruct nodePool; reflexivity. Qed.

(** After [insert], the path leads to a terminal node with the new source. *)
Lemma nodeAt_insertParts parts src n pool :
  exists c, nodeAt parts (fst (insertParts parts src n pool)) = Some c /\
            isEndOfDomain c = true /\ source c = src.
Proof.
  revert n pool. induction parts as [|part rest IH]; intros n pool; simpl.
  - eexists. split; [reflexivity|]. split; reflexivity.
  - destruct (mapGet part (children n)) as [child|] eqn:Hc.
    + destruct (insertParts rest src child pool) as [child' pool'] eqn:Hi. simpl.
      rewrite mapGet_mapSet_eq.
      specialize (IH child pool). rewrite Hi in IH. exact IH.
    + destruct (getPooledNode pool) as [fresh pool1] eqn:Hg.
      destruct (insertParts rest src fresh pool1) as [child' pool'] eqn:Hi. simpl.
      rewrite mapGet_mapSet_eq.
      specialize (IH fresh pool1). rewrite Hi in IH. exact IH.
Qed.

Lemma uniqueKeys_insertParts parts src n pool :
  uniqueKeys n -> uniqueKeys (fst (insertParts parts src n pool)).
Proof.
  revert n pool. induction parts as [|part rest IH]; intros n pool Hn; simpl.
  - destruct n as [ch e s0]. simpl children.
    apply uniqueKeys_unfold in Hn. now apply uniqueKeys_unfold.
  - destruct (mapGet part (children n)) as [child|] eqn:Hc.
    + pose proof (IH child pool (uniqueKeys_child _ _ _ Hn Hc)) as Hch.
      destruct (insertParts rest src child pool) as [child' pool']. simpl in *.
      destruct n as [ch e s0]. simpl. now apply (uniqueKeys_mapSet _ _ _ e s0).
    + pose proof (getPooledNode_fst pool) as Hf.
      destruct (getPooledNode pool) as [fresh pool1]. simpl in Hf. subst fresh.
      pose proof (IH newNode pool1 uniqueKeys_newNode) as Hch.
      destruct (insertParts rest src newNode pool1) as [child' pool']. simpl in *.
      destruct n as [ch e s0]. simpl. now apply (uniqueKeys_mapSet _ _ _ e s0).
Qed.

(** Inserting along a path that is already there: no node is taken from
    the pool or created, the node count is unchanged, and the last node of
    the path becomes terminal with the new source. *)
Lemma insertParts_existing parts src n pool c :
  nodeAt parts n = Some c ->
  exists n',
    insertParts parts src n pool = (n', pool) /\
    nodeCount n' = nodeCount n /\
    nodeAt parts n' = Some (Node (children c) true src) /\
    (length (terminals n') =
       length (terminals n) + (if isEndOfDomain c then 0 else 1))%nat.
Proof.
  revert n pool. induction parts as [|part rest IH]; intros n pool Hat; simpl in *.
  - injection Hat as <-. eexists. split; [reflexivity|].
    destruct n as [ch e s0]. simpl children.
    split; [now rewrite !nodeCount_unfold|]. split; [reflexivity|].
    rewrite !terminals_unfold, !length_app. destruct e; simpl; lia.
  - destruct (mapGet part (children n)) as [child|] eqn:Hc; [|discriminate].
    destruct (IH child pool Hat) as (child' & Hins & Hcnt & Hat' & Hterm).
    rewrite Hins. eexists. split; [reflexivity|].
    destruct n as [ch e s0]. cbn [children isEndOfDomain source nodeAt] in *.
    split; [|split].
    + rewrite !nodeCount_unfold.
      pose proof (sumNodes_mapSet_present part child child' ch Hc). lia.
    + now rewrite mapGet_mapSet_eq.
    + rewrite !terminals_unfold, !length_app.
      pose proof (length_childTerminals_mapSet_present part child child' ch Hc). lia.
Qed.

End PooledTrieFacts.

(* --------------------------------------------------------------------- *)
(** ** Pooled trie: when [splitDomainReverse] returns *)
(* --------------------------------------------------------------------- *)

Module SplitFacts.
Import Js Trie PooledTrieIndex.

Lemma findLastChar_bounds c s i n j :
  findLastChar c s i n = Some j ->
  (i <= j < i + n)%nat /\ (j < i + String.length s)%nat.
Proof.
  revert s i j. induction n as [|n IH]; intros s i j; simpl; [discriminate|].
  destruct s as [|a rest]; [discriminate|].
  destruct (findLastChar c rest (S i) n) as [j'|] eqn:Hrec.
  - intros [= <-]. apply IH in Hrec. simpl. lia.
  - destruct (Ascii.eqb a c); [|discriminate]. intros [= <-]. simpl. lia.
Qed.

Lemma findLastChar_first c s i n :
  findLastChar c s i n = Some i ->
  match s with String a _ => a = c | EmptyString => False end.
Proof.
  destruct n as [|n]; simpl; [discriminate|].
  destruct s as [|a rest]; [discriminate|].
  destruct (findLastChar c rest (S i) n) as [j'|] eqn:Hrec.
  - intros [= ->]. apply findLastChar_bounds in Hrec. lia.
  - destruct (Ascii.eqb_spec a c); [auto|discriminate].
Qed.

(** Without a leading separator, [lastIndexOf] answers -1 or a position
    from 1 up to [from]. *)
Lemma lastIndexOf_no_leadingDot s from :
  leadingDot s = false ->
  let r := lastIndexOf s "." from in
  r = -1 \/ (1 <= r /\ r <= Z.max from 0 /\ r < len s).
Proof.
  intros Hld. unfold lastIndexOf, len.
  destruct (findLastChar "." s 0 (S (Z.to_nat from))) as [j|] eqn:Hf; [|now left].
  right. pose proof (findLastChar_bounds _ _ _ _ _ Hf) as [Hb Hl].
  destruct j as [|j].
  - apply findLastChar_first in Hf. destruct s as [|a rest]; [destruct Hf|].
    subst a. discriminate.
  - lia.
Qed.

(** With a leading separator, [lastIndexOf] always finds a position. *)
Lemma lastIndexOf_leadingDot s from :
  leadingDot s = true -> 0 <= lastIndexOf s "." from.
Proof.
  intros Hld. unfold lastIndexOf.
  destruct s as [|a rest]; [discriminate|]. simpl in *.
  destruct (findLastChar "." rest 1 (Z.to_nat from)); [lia|].
  rewrite Hld. lia.
Qed.

Lemma splitLoop_returns s :
  leadingDot s = false ->
  forall fuel parts cur d,
    d = -1 \/ (1 <= d /\ d < Z.of_nat fuel) -> (0 < fuel)%nat ->
    is_Some (splitLoop fuel s parts cur d).
Proof.
  intros Hld. induction fuel as [|fuel IH]; intros parts cur d Hd Hfuel; [lia|].
  simpl. destruct (Z.eqb_spec d (-1)) as [->|Hne]; [eauto|].
  destruct Hd as [Hd|[Hd1 Hd2]]; [contradiction|].
  pose proof (lastIndexOf_no_leadingDot s (d - 1) Hld) as Hr. simpl in Hr.
  apply IH; lia.
Qed.

Lemma splitLoop_diverges s :
  leadingDot s = true ->
  forall fuel parts cur d, 0 <= d -> splitLoop fuel s parts cur d = None.
Proof.
  intros Hld. induction fuel as [|fuel IH]; intros parts cur d Hd; [reflexivity|].
  simpl. destruct (Z.eqb_spec d (-1)) as [->|Hne]; [lia|].
  apply IH. now apply lastIndexOf_leadingDot.
Qed.

(** The loop only appends labels, and appends at least one when it is
    entered with a separator position. *)
Lemma splitLoop_appends s fuel parts cur d parts' cur' :
  splitLoop fuel s parts cur d = Some (parts', cur') ->
  exists more, parts' = parts ++ more /\ (d <> -1 -> more <> []).
Proof.
  revert parts cur d. induction fuel as [|fuel IH]; intros parts cur d; simpl; [discriminate|].
  destruct (Z.eqb_spec d (-1)) as [->|Hne].
  - intros [= <- <-]. exists []. split; [now rewrite app_nil_r|congruence].
  - intros H. apply IH in H as (more & -> & _).
    eexists. split; [now rewrite <- app_assoc|]. intros _. discriminate.
Qed.

(** [splitDomainReverse] returns exactly on the strings that do not begin
    with the separator, and what it returns is never empty. *)
Lemma splitDomainReverse_returns s :
  leadingDot s = false -> exists parts, splitDomainReverse s = Some parts /\ parts <> [].
Proof.
  intros Hld. unfold splitDomainReverse, splitDomainReverseFuel.
  pose proof (lastIndexOf_no_leadingDot s (len s) Hld) as Hr. simpl in Hr.
  destruct (Z.eqb_spec (lastIndexOf s "." (len s)) (-1)) as [He|Hne].
  - eexists. split; [reflexivity|discriminate].
  - destruct Hr as [Hr|Hr]; [contradiction|].
    destruct (splitLoop_returns s Hld (S (String.length s)) [] (len s)
                (lastIndexOf s "." (len s))) as [[parts cur] Hl].
    { right. unfold len in *. lia. }
    { lia. }
    rewrite Hl. apply splitLoop_appends in Hl as (more & -> & Hmore).
    eexists. split; [reflexivity|].
    specialize (Hmore Hne). simpl.
    destruct (0 <? cur); [|exact Hmore].
    destruct more; [contradiction|discriminate].
Qed.

(** On a string that begins with the separator the loop is never left,
    whatever the fuel. *)
Lemma splitDomainReverse_diverges s fuel :
  leadingDot s = true ->
  splitDomainReverseFuel fuel s (lastIndexOf s "." (len s)) = None.
Proof.
  intros Hld. unfold splitDomainReverseFuel.
  pose proof (lastIndexOf_leadingDot s (len s) Hld) as Hr.
  destruct (Z.eqb_spec (lastIndexOf s "." (len s)) (-1)) as [He|Hne]; [lia|].
  now rewrite splitLoop_diverges.
Qed.

Lemma splitDomainReverse_None s :
  splitDomainReverse s = None <-> leadingDot s = true.
Proof.
  split.
  - intros Hn. destruct (leadingDot s) eqn:Hld; [reflexivity|].
    destruct (splitDomainReverse_returns s Hld) as (parts & Hp & _). congruence.
  - intros Hld. now apply splitDomainReverse_diverges.
Qed.

End SplitFacts.

(* --------------------------------------------------------------------- *)
(** ** Suffix trie: looking up a path that ends in a terminal node *)
(* --------------------------------------------------------------------- *)

Module PathFacts.
Import Js Trie MapFacts TrieFacts.

Lemma searchLoop_terminal parts n c e sub src :
  parts <> [] -> nodeAt parts n = Some c -> isEndOfDomain c = true ->
  exists sub', searchLoop parts n e sub src = (true, sub', source c).
Proof.
  revert n e sub src. induction parts as [|part rest IH]; intros n e sub src Hne Hat Hend.
  - contradiction.
  - simpl in *. destruct (mapGet part (children n)) as [child|] eqn:Hc; [|discriminate].
    destruct rest as [|part' rest'].
    + simpl in Hat. injection Hat as ->. rewrite Hend. simpl. eauto.
    + destruct (isEndOfDomain child); apply IH; auto; discriminate.
Qed.

Lemma searchParts_terminal parts n c :
  parts <> [] -> nodeAt parts n = Some c -> isEndOfDomain c = true ->
  searchParts parts n = mkSearchResult true exact 100 (source c).
Proof.
  intros Hne Hat Hend. unfold searchParts.
  destruct (searchLoop_terminal parts n c false false "" Hne Hat Hend) as [sub' ->].
  reflexivity.
Qed.

Lemma hasParts_nodeAt parts n :
  PooledTrieIndex.hasParts parts n =
  match nodeAt parts n with Some c => isEndOfDomain c | None => false end.
Proof.
  revert n. induction parts as [|part rest IH]; intros n; simpl; [reflexivity|].
  destruct (mapGet part (children n)); [apply IH|reflexivity].
Qed.

(** Terminal nodes below children whose keys do not include [part] have
    paths that do not start with [part]. *)
Lemma filter_childTerminals_notin part rest ch :
  ~ In part (map fst ch) ->
  filter (fun t : list string * string => fst t = part :: rest) (childTerminals ch) = [].
Proof.
  unfold childTerminals. induction ch as [|[k c] ch IH]; simpl; intros Hnin; [reflexivity|].
  rewrite filter_app, IH by tauto. rewrite app_nil_r.
  assert (k <> part) as Hk by tauto.
  induction (terminals c) as [|t ts IHt]; simpl; [reflexivity|].
  rewrite filter_cons_False; [exact IHt|]. simpl. congruence.
Qed.

Lemma filter_prefix_same part rest (ts : list (list string * string)) :
  filter (fun t : list string * string => fst t = part :: rest)
         (map (fun t => (part :: fst t, snd t)) ts)
  = map (fun t => (part :: fst t, snd t))
        (filter (fun t : list string * string => fst t = rest) ts).
Proof.
  induction ts as [|t ts IH]; simpl; [reflexivity|].
  destruct (decide (fst t = rest)) as [He|Hne].
  - rewrite (filter_cons_True _ t ts) by exact He.
    rewrite filter_cons_True by (simpl; congruence). simpl. now rewrite IH.
  - rewrite (filter_cons_False _ t ts) by exact Hne.
    rewrite filter_cons_False by (simpl; congruence). exact IH.
Qed.

Lemma filter_prefix_other k part rest (ts : list (list string * string)) :
  k <> part ->
  filter (fun t : list string * string => fst t = part :: rest)
         (map (fun t => (k :: fst t, snd t)) ts) = [].
Proof.
  intros Hk. induction ts as [|t ts IH]; simpl; [reflexivity|].
  rewrite filter_cons_False; [exact IH|]. simpl. congruence.
Qed.

Lemma filter_childTerminals part rest ch :
  NoDup (map fst ch) ->
  filter (fun t : list string * string => fst t = part :: rest) (childTerminals ch)
  = match mapGet part ch with
    | Some c => map (fun t => (part :: fst t, snd t))
                    (filter (fun t : list string * string => fst t = rest) (terminals c))
    | None => []
    end.
Proof.
  induction ch as [|[k c] ch IH]; simpl; intros Hnd; [reflexivity|].
  apply NoDup_cons in Hnd as [Hnin Hnd].
  change (childTerminals ((k, c) :: ch))
    with (map (fun t => (k :: fst t, snd t)) (terminals c) ++ childTerminals ch).
  rewrite filter_app.
  destruct (String.eqb_spec k part) as [->|Hk].
  - rewrite filter_prefix_same, filter_childTerminals_notin, app_nil_r; [reflexivity|].
    intros Hin. apply Hnin. now apply list_elem_of_In.
  - rewrite filter_prefix_other by exact Hk. simpl. now apply IH.
Qed.

Lemma filter_childTerminals_nil parts ch :
  parts = [] ->
  filter (fun t : list string * string => fst t = parts) (childTerminals ch) = [].
Proof.
  intros ->. unfold childTerminals. induction ch as [|[k c] ch IH]; simpl; [reflexivity|].
  rewrite filter_app, IH, app_nil_r.
  induction (terminals c) as [|t ts IHt]; simpl; [reflexivity|].
  rewrite filter_cons_False; [exact IHt|]. simpl. discriminate.
Qed.

(** In a trie with distinct keys, the terminal nodes whose path is [parts]
    are the node [parts] leads to, if it is terminal, and no other. *)
Lemma terminals_at parts n :
  uniqueKeys n ->
  filter (fun t : list string * string => fst t = parts) (terminals n)
  = match nodeAt parts n with
    | Some c => if isEndOfDomain c then [(parts, source c)] else []
    | None => []
    end.
Proof.
  revert n. induction parts as [|part rest IH]; intros [ch e src] Hu.
  - rewrite terminals_unfold, filter_app, filter_childTerminals_nil, app_nil_r
      by reflexivity.
    simpl. destruct e; [|reflexivity]. now rewrite filter_cons_True.
  - pose proof Hu as Hu'. apply uniqueKeys_unfold in Hu' as [Hnd Hall].
    rewrite terminals_unfold, filter_app, filter_childTerminals by exact Hnd.
    assert (filter (fun t : list string * string => fst t = part :: rest)
              (if e then [([], src)] else []) = []) as ->.
    { destruct e; [|reflexivity]. now rewrite filter_cons_False. }
    simpl. destruct (mapGet part ch) as [c|] eqn:Hc; [|reflexivity].
    rewrite IH by (apply (Hall (part, c)); now apply mapGet_Some_in).
    destruct (nodeAt rest c) as [c'|]; [|reflexivity].
    destruct (isEndOfDomain c'); reflexivity.
Qed.

End PathFacts.

(* --------------------------------------------------------------------- *)
(** ** Parent domains: the two ways of walking a domain agree *)
(* --------------------------------------------------------------------- *)

Module ParentFacts.
Import Js Checker.

Lemma dropChars_length n s : String.length (dropChars n s) = (String.length s - n)%nat.
Proof.
  revert s. induction n as [|n IH]; intros s; simpl; [lia|].
  destruct s as [|c rest]; simpl; [reflexivity|]. apply IH.
Qed.

Lemma dropChars_add n m s : dropChars n (dropChars m s) = dropChars (m + n) s.
Proof.
  revert s. induction m as [|m IH]; intros s; simpl; [reflexivity|].
  destruct s as [|c rest]; [destruct n; reflexivity|]. apply IH.
Qed.

(** What [findChar] finds, in terms of [afterDots]. *)
Lemma findChar_None t n : findChar "." t n = None -> afterDots t = [].
Proof.
  revert n. induction t as [|c t IH]; intros n; simpl; [reflexivity|].
  destruct (Ascii.eqb c "."); [discriminate|]. apply IH.
Qed.

Lemma findChar_Some t n i :
  findChar "." t n = Some i ->
  (n <= i < n + String.length t)%nat /\
  afterDots t = dropChars (S (i - n)) t :: afterDots (dropChars (S (i - n)) t).
Proof.
  revert n. induction t as [|c t IH]; intros n; simpl; [discriminate|].
  destruct (Ascii.eqb c ".") eqn:E.
  - intros [= <-]. rewrite Nat.sub_diag. simpl. split; [lia|reflexivity].
  - intros H. apply IH in H as [Hr Ha]. split; [lia|].
    replace (i - n)%nat with (S (i - S n)) by lia. exact Ha.
Qed.

(** With one round per remaining character, and one more, the loop tests
    the part after every separator from position [n] on, left to right. *)
Lemma parentWalk_from fuel test s n :
  (String.length (dropChars n s) < fuel)%nat ->
  DomainChecker.parentWalk fuel test s (indexOf s "." (Z.of_nat n))
  = existsb test (afterDots (dropChars n s)).
Proof.
  revert n. induction fuel as [|fuel IH]; intros n Hfuel; [lia|].
  cbn [DomainChecker.parentWalk].
  destruct (findChar "." (dropChars n s) n) as [i|] eqn:Hf.
  - assert (indexOf s "." (Z.of_nat n) = Z.of_nat i) as ->
      by (unfold indexOf; now rewrite Nat2Z.id, Hf).
    destruct (findChar_Some _ _ _ Hf) as [Hr Ha].
    destruct (Z.eqb_spec (Z.of_nat i) (-1)) as [He|_]; [lia|].
    rewrite Ha, dropChars_add.
    replace (n + S (i - n))%nat with (S i) by lia.
    unfold sliceFrom. replace (Z.of_nat i + 1) with (Z.of_nat (S i)) by lia.
    rewrite Nat2Z.id. cbn [existsb].
    destruct (test (dropChars (S i) s)); [reflexivity|]. cbn [orb].
    apply IH. rewrite dropChars_length in *. lia.
  - assert (indexOf s "." (Z.of_nat n) = -1) as ->
      by (unfold indexOf; now rewrite Nat2Z.id, Hf).
    rewrite Z.eqb_refl. erewrite findChar_None by eauto. reflexivity.
Qed.

(** The fuel [anyParent] gives the loop is enough, and so is any larger
    amount. *)
Lemma parentWalk_fuel fuel test s :
  (String.length s < fuel)%nat ->
  DomainChecker.parentWalk fuel test s (indexOf s "." 0) = existsb test (afterDots s).
Proof. intros H. apply (parentWalk_from fuel test s 0). exact H. Qed.

Lemma cached_anyParent test s :
  DomainChecker.anyParent test s = existsb test (afterDots s).
Proof. apply parentWalk_fuel. lia. Qed.

Lemma split_nonempty c s : split c s <> [].
Proof.
  destruct s as [|a rest]; simpl; [discriminate|].
  destruct (Ascii.eqb a c); [discriminate|]. destruct (split c rest); discriminate.
Qed.

Lemma join_split s : join "." (split "." s) = s.
Proof.
  induction s as [|a rest IH]; simpl; [reflexivity|].
  destruct (Ascii.eqb_spec a ".") as [->|Hne].
  - pose proof (split_nonempty "." rest) as Hn.
    destruct (split "." rest) as [|p ps] eqn:Hs; [contradiction|].
    change (join "." (EmptyString :: p :: ps))
      with (String.append EmptyString (String.append "." (join "." (p :: ps)))).
    rewrite IH. reflexivity.
  - pose proof (split_nonempty "." rest) as Hn.
    destruct (split "." rest) as [|p ps] eqn:Hs; [contradiction|].
    destruct ps as [|q ps]; simpl in *; now rewrite <- IH.
Qed.

Lemma suffixJoins_split s : suffixJoins (split "." s) = afterDots s.
Proof.
  induction s as [|a rest IH]; simpl; [reflexivity|].
  pose proof (split_nonempty "." rest) as Hn.
  destruct (Ascii.eqb a ".").
  - destruct (split "." rest) as [|p ps] eqn:Hs; [contradiction|].
    rewrite <- IH, <- (join_split rest), Hs. reflexivity.
  - destruct (split "." rest) as [|p ps] eqn:Hs; [contradiction|].
    rewrite <- IH. reflexivity.
Qed.

(** The indexed loop of the simple checker visits [suffixJoins]. *)
Lemma map_drop_suffixJoins (parts : list string) :
  map (fun i => join "." (drop i parts)) (seq 1 (length parts - 1)) = suffixJoins parts.
Proof.
  induction parts as [|p ps IH]; simpl; [reflexivity|].
  rewrite Nat.sub_0_r. destruct ps as [|q ps]; [reflexivity|].
  change (length (q :: ps)) with (S (length ps)).
  rewrite <- cons_seq. simpl map at 1. f_equal.
  rewrite <- IH.
  replace (length (q :: ps) - 1)%nat with (length ps) by (simpl; lia).
  rewrite <- seq_shift, map_map. reflexivity.
Qed.

Lemma simple_parentDomains s : SimpleDomainChecker.parentDomains s = afterDots s.
Proof.
  unfold SimpleDomainChecker.parentDomains. rewrite map_drop_suffixJoins.
  apply suffixJoins_split.
Qed.

(** Both classes test the same parent domains, in the same order. *)
Lemma anyParent_agree test s :
  DomainChecker.anyParent test s = SimpleDomainChecker.anyParent test s.
Proof.
  unfold SimpleDomainChecker.anyParent.
  now rewrite cached_anyParent, simple_parentDomains.
Qed.

End ParentFacts.

(* --------------------------------------------------------------------- *)
(** ** Domain checkers *)
(* --------------------------------------------------------------------- *)

Module CheckerFacts.
Import Js Types Checker.

Lemma setHas_true s x : setHas s x = true <-> x ∈ s.
Proof. unfold setHas. apply bool_decide_eq_true. Qed.

(** A lookup that misses the domain cache returns what
    [performDisposableCheck] computes. *)
Lemma checkDisposableDomain_uncached cfg dc domain :
  mapGet domain dc = None ->
  fst (DomainChecker.checkDisposableDomain cfg dc domain)
  = DomainChecker.performDisposableCheck cfg domain.
Proof. intros H. unfold DomainChecker.checkDisposableDomain. now rewrite H. Qed.

(** A filter to which the domain has been added does not reject it. *)
Lemma bloomRejects_added cfg b domain later :
  bloomFilter cfg
  = Some (ArrayBloomFilter.addAll (ArrayBloomFilter.add b domain) later) ->
  bloomRejects cfg domain = false.
Proof.
  intros Hb. unfold bloomRejects. rewrite Hb.
  rewrite ArrayBloomFilterFacts.array_contains_addAll_mono; [reflexivity|].
  apply ArrayBloomFilterFacts.array_contains_add.
Qed.

Lemma sameVerdict_refl r : sameVerdict r r.
Proof. repeat split. Qed.

Lemma sameVerdict_ofTrieResult r l1 l2 :
  sameVerdict (default noMatch (ofTrieResult r l1)) (default noMatch (ofTrieResult r l2)).
Proof.
  unfold ofTrieResult.
  destruct (Trie.found r && String.eqb (Trie.matchSource r) "disposable");
    repeat split.
Qed.

(** The two classes under the strategy "trie". *)
Lemma agree_trie cfg domain :
  indexingStrategy cfg = trie ->
  sameVerdict (DomainChecker.checkWithTrie cfg domain)
    (match SimpleDomainChecker.trieStep cfg domain with
     | Some r => r
     | None =>
         match SimpleDomainChecker.hashStep cfg domain with
         | Some r => r
         | None => noMatch
         end
     end).
Proof.
  intros Hs. unfold DomainChecker.checkWithTrie, SimpleDomainChecker.trieStep,
    SimpleDomainChecker.hashStep. rewrite Hs.
  destruct (domainTrie cfg) as [root|]; [|apply sameVerdict_refl].
  destruct (enableSubdomainChecking cfg); simpl; [|apply sameVerdict_refl].
  unfold ofTrieResult.
  destruct (Trie.found _ && String.eqb _ "disposable"); repeat split.
Qed.

(** The two classes under the strategy "hash". *)
Lemma agree_hash cfg domain :
  indexingStrategy cfg = hash ->
  sameVerdict (DomainChecker.checkWithHash cfg domain)
    (match SimpleDomainChecker.trieStep cfg domain with
     | Some r => r
     | None =>
         match SimpleDomainChecker.hashStep cfg domain with
         | Some r => r
         | None => noMatch
         end
     end).
Proof.
  intros Hs. unfold DomainChecker.checkWithHash, SimpleDomainChecker.trieStep,
    SimpleDomainChecker.hashStep. rewrite Hs, ParentFacts.anyParent_agree.
  destruct (enableSubdomainChecking cfg); simpl; [|apply sameVerdict_refl].
  destruct (SimpleDomainChecker.anyParent _ _); repeat split.
Qed.

(** Without subdomain checking neither class looks past the exact test. *)
Lemma agree_no_subdomains cfg domain :
  enableSubdomainChecking cfg = false ->
  (match indexingStrategy cfg with
   | trie => DomainChecker.checkWithTrie cfg domain
   | bloom => DomainChecker.checkWithBloom cfg domain
   | hybrid => DomainChecker.checkWithHybrid cfg domain
   | hash => DomainChecker.checkWithHash cfg domain
   end) = noMatch /\
  SimpleDomainChecker.trieStep cfg domain = None /\
  SimpleDomainChecker.hashStep cfg domain = None.
Proof.
  intros Hsub.
  unfold DomainChecker.checkWithTrie, DomainChecker.checkWithBloom,
    DomainChecker.checkWithHybrid, DomainChecker.checkWithHash,
    SimpleDomainChecker.trieStep, SimpleDomainChecker.hashStep.
  rewrite Hsub. simpl.
  destruct (indexingStrategy cfg), (domainTrie cfg), (bloomFilter cfg); repeat split.
Qed.

End CheckerFacts.

(* --------------------------------------------------------------------- *)
(** ** Request coalescing: invariants of the schedule *)
(* --------------------------------------------------------------------- *)

Module CacheManagerFacts.
Import Js Types MapFacts CacheManager.

Lemma findCall_Some c l x : findCall c l = Some x -> In x l /\ callId x = c.
Proof.
  induction l as [|y l IH]; simpl; [discriminate|].
  destruct (Nat.eqb_spec (callId y) c) as [He|Hne].
  - intros [= ->]. split; [now left|exact He].
  - intros H. destruct (IH H). split; [now right|assumption].
Qed.

Lemma removeCall_split c l x :
  findCall c l = Some x -> exists l1 l2, l = l1 ++ x :: l2 /\ removeCall c l = l1 ++ l2.
Proof.
  induction l as [|y l IH]; simpl; [discriminate|].
  destruct (Nat.eqb (callId y) c).
  - intros [= ->]. exists [], l. split; reflexivity.
  - intros H. destruct (IH H) as (l1 & l2 & -> & Hr).
    exists (y :: l1), l2. split; [reflexivity|]. simpl. now rewrite Hr.
Qed.

Lemma removeCall_In c l x : In x (removeCall c l) -> In x l.
Proof.
  induction l as [|y l IH]; simpl; [tauto|].
  destruct (Nat.eqb (callId y) c); simpl; [tauto|]. intros [H|H]; auto.
Qed.

Lemma ownerKeys_app l1 l2 : ownerKeys (l1 ++ l2) = ownerKeys l1 ++ ownerKeys l2.
Proof. unfold ownerKeys. now rewrite List.filter_app, map_app. Qed.

Lemma in_ownerKeys k l :
  In k (ownerKeys l) <-> exists c, In c l /\ owner c = true /\ callKey c = k.
Proof.
  unfold ownerKeys. rewrite in_map_iff. split.
  - intros (c & Hk & Hc). apply List.filter_In in Hc as [Hc Ho]. eauto.
  - intros (c & Hc & Ho & Hk). exists c. split; [exact Hk|].
    apply List.filter_In. auto.
Qed.

(** A settled promise keeps its value. *)
Lemma settledValue_app p l q v w :
  settledValue p l = Some v -> settledValue p (l ++ [(q, w)]) = Some v.
Proof.
  induction l as [|[r u] l IH]; simpl; [discriminate|].
  destruct (Nat.eqb r p); [trivial|exact IH].
Qed.

Lemma consistent_initial : consistent initial.
Proof.
  repeat split; simpl; try (intros; contradiction). constructor.
Qed.

Lemma consistent_invoke s email : consistent s -> consistent (invoke s email).
Proof.
  intros (Ha & Hr & Hd & He). unfold invoke.
  destruct (mapGet email (pendingOperations s)) as [pending|] eqn:Hp.
  - repeat split; simpl.
    + intros c Hc. apply in_app_or in Hc as [Hc|[<-|[]]]; [apply Ha in Hc; lia|simpl; lia].
    + intros c v Hc. apply Hr in Hc. lia.
    + intros c Hc Ho. apply in_app_or in Hc as [Hc|[<-|[]]]; [now apply Hd|discriminate].
    + rewrite ownerKeys_app. unfold ownerKeys at 2. simpl. now rewrite app_nil_r.
  - assert (~ In email (ownerKeys (suspended s))) as Hfresh.
    { rewrite in_ownerKeys. intros (c & Hc & Ho & Hk).
      specialize (Hd c Hc Ho). rewrite Hk in Hd. congruence. }
    repeat split; simpl.
    + intros c Hc. apply in_app_or in Hc as [Hc|[<-|[]]]; [apply Ha in Hc; lia|simpl; lia].
    + intros c v Hc. apply Hr in Hc. lia.
    + intros c Hc Ho. apply in_app_or in Hc as [Hc|[<-|[]]].
      * rewrite mapGet_mapSet_ne; [now apply Hd|].
        intros Heq. apply Hfresh. apply in_ownerKeys. eauto.
      * simpl. apply mapGet_mapSet_eq.
    + rewrite ownerKeys_app. unfold ownerKeys at 2. simpl.
      apply NoDup_app. split; [exact He|]. split; [|apply NoDup_singleton].
      intros x Hx Hin. apply list_elem_of_singleton in Hin. subst x.
      apply Hfresh. now apply list_elem_of_In.
Qed.

Lemma consistent_backendSettles s p o : consistent s -> consistent (backendSettles s p o).
Proof.
  intros H. unfold backendSettles.
  destruct (existsb _ _ && negb _); [|exact H].
  destruct H as (Ha & Hr & Hd & He). repeat split; simpl; assumption.
Qed.

Lemma consistent_resume s c : consistent s -> consistent (resume s c).
Proof.
  intros H. unfold resume.
  destruct (findCall c (suspended s)) as [call|] eqn:Hf; [|exact H].
  destruct (settledValue (awaited call) (settled s)) as [value|]; [|exact H].
  destruct H as (Ha & Hr & Hd & He).
  destruct (removeCall_split _ _ _ Hf) as (l1 & l2 & Hl & Hrm).
  rewrite Hl, !ownerKeys_app in He.
  change (call :: l2) with ([call] ++ l2) in He. rewrite ownerKeys_app in He.
  apply NoDup_app in He as (He1 & Hdis1 & He2).
  apply NoDup_app in He2 as (Hec & Hdis2 & He3).
  repeat split; simpl.
  - intros x Hx. apply removeCall_In in Hx. now apply Ha.
  - intros x v Hx. apply in_app_or in Hx as [Hx|[[= <- <-]|[]]]; [now apply Hr in Hx|].
    apply Ha. now apply findCall_Some in Hf.
  - intros x Hx Ho. rewrite Hrm in Hx.
    assert (In x (suspended s)) as Hin.
    { rewrite Hl. apply in_app_or in Hx as [Hx|Hx]; apply in_or_app; [now left|].
      right. now right. }
    destruct (owner call) eqn:Hoc; [|now apply Hd].
    rewrite mapGet_mapDelete_ne; [now apply Hd|].
    intros Heq.
    assert (In (callKey call) (ownerKeys [call])) as Hck.
    { apply in_ownerKeys. exists call. split; [now left|]. split; [exact Hoc|reflexivity]. }
    apply in_app_or in Hx as [Hx|Hx].
    + apply (Hdis1 (callKey x)).
      * apply list_elem_of_In, in_ownerKeys. eauto.
      * apply list_elem_of_In, in_or_app. left. now rewrite <- Heq.
    + apply (Hdis2 (callKey call)).
      * now apply list_elem_of_In.
      * apply list_elem_of_In, in_ownerKeys. eauto.
  - rewrite Hrm, ownerKeys_app. apply NoDup_app. split; [exact He1|]. split; [|exact He3].
    intros x Hx1 Hx2. apply (Hdis1 x Hx1).
    apply list_elem_of_In, in_or_app. right. now apply list_elem_of_In.
Qed.

Lemma consistent_step s e : consistent s -> consistent (step s e).
Proof.
  destruct e; simpl;
    [apply consistent_invoke | apply consistent_backendSettles | apply consistent_resume].
Qed.

Lemma consistent_run schedule s : consistent s -> consistent (run s schedule).
Proof.
  revert s. induction schedule as [|e schedule IH]; intros s H; simpl; [exact H|].
  apply IH. now apply consistent_step.
Qed.

Lemma backingCallsFor_app key s extra :
  filter (fun b : nat * string => snd b = key) (backingCalls s ++ extra)
  = backingCallsFor key s ++ filter (fun b : nat * string => snd b = key) extra.
Proof. unfold backingCallsFor. apply filter_app. Qed.

(** The first [get(key)] on a key with nothing pending starts the only
    computation. *)
Lemma coalescing_first s key :
  consistent s ->
  mapGet key (pendingOperations s) = None ->
  coalescing key (nextPromise s) (nextCall s) (backingCallsFor key s) (invoke s key).
Proof.
  intros (Ha & Hr & Hd & He) Hp. unfold invoke. rewrite Hp.
  split_coalescing; simpl.
  - apply mapGet_mapSet_eq.
  - unfold backingCallsFor at 1. simpl. rewrite backingCallsFor_app.
    now rewrite filter_cons_True, filter_nil.
  - lia.
  - intros c Hc Hk Ho. apply in_app_or in Hc as [Hc|[<-|[]]]; [|reflexivity].
    specialize (Hd c Hc Ho). rewrite Hk in Hd. congruence.
  - intros c Hc Hk Hle. apply in_app_or in Hc as [Hc|[<-|[]]]; [|reflexivity].
    apply Ha in Hc. lia.
  - intros c v Hc Hk Hle. apply Hr in Hc. lia.
Qed.

Lemma coalescing_step key p0 c0 base s e :
  coalescing key p0 c0 base s -> e <> Resume c0 ->
  coalescing key p0 c0 base (step s e).
Proof.
  intros (Hp & Hb & Hlt & Ho & Hw & Hret) Hne. destruct e as [email|p o|c]; simpl.
  - (* another call of get *)
    unfold invoke. destruct (String.eqb_spec email key) as [->|Hk].
    + rewrite Hp. split_coalescing; simpl; try assumption; try lia.
      * intros c Hc Hck Hoc. apply in_app_or in Hc as [Hc|[<-|[]]]; [auto|discriminate].
      * intros c Hc Hck Hle. apply in_app_or in Hc as [Hc|[<-|[]]]; [auto|reflexivity].
    + destruct (mapGet email (pendingOperations s)) as [pending|] eqn:Hpe.
      * split_coalescing; simpl; try assumption; try lia.
        -- intros c Hc Hck Hoc. apply in_app_or in Hc as [Hc|[<-|[]]]; [auto|].
           simpl in Hck. contradiction.
        -- intros c Hc Hck Hle. apply in_app_or in Hc as [Hc|[<-|[]]]; [auto|].
           simpl in Hck. contradiction.
      * split_coalescing; simpl; try assumption; try lia.
        -- now rewrite mapGet_mapSet_ne.
        -- unfold backingCallsFor at 1. simpl. rewrite backingCallsFor_app.
           rewrite filter_cons_False by exact Hk. now rewrite filter_nil, app_nil_r.
        -- intros c Hc Hck Hoc. apply in_app_or in Hc as [Hc|[<-|[]]]; [auto|].
           simpl in Hck. contradiction.
        -- intros c Hc Hck Hle. apply in_app_or in Hc as [Hc|[<-|[]]]; [auto|].
           simpl in Hck. contradiction.
  - (* the backing store answers *)
    unfold backendSettles.
    destruct (existsb _ _ && negb _); [|split_coalescing; assumption].
    split_coalescing; simpl; try assumption.
    intros c v Hc Hck Hle. destruct (Hret c v Hc Hck Hle) as [Haw Hsv].
    split; [exact Haw|]. now apply settledValue_app.
  - (* a suspended call goes on *)
    unfold resume.
    destruct (findCall c (suspended s)) as [call|] eqn:Hf; [|split_coalescing; assumption].
    destruct (settledValue (awaited call) (settled s)) as [value|] eqn:Hv;
      [|split_coalescing; assumption].
    destruct (findCall_Some _ _ _ Hf) as [Hin Hid].
    assert (owner call = true -> callKey call <> key) as Hother.
    { intros Hoc Hck. apply Hne. f_equal. rewrite <- Hid. now apply Ho. }
    split_coalescing; simpl; try assumption.
    + destruct (owner call) eqn:Hoc; [|exact Hp].
      rewrite mapGet_mapDelete_ne; [exact Hp|]. now apply Hother.
    + intros x Hx. apply removeCall_In in Hx. now apply Ho.
    + intros x Hx. apply removeCall_In in Hx. now apply Hw.
    + intros x v Hx Hck Hle.
      apply in_app_or in Hx as [Hx|[[= <- <-]|[]]]; [now apply Hret|].
      pose proof (Hw call Hin Hck Hle) as Haw. split; [exact Haw|].
      now rewrite <- Haw.
Qed.

Lemma coalescing_run key p0 c0 base schedule s :
  coalescing key p0 c0 base s -> ~ In (Resume c0) schedule ->
  coalescing key p0 c0 base (run s schedule).
Proof.
  revert s. induction schedule as [|e schedule IH]; intros s H Hnin; simpl; [exact H|].
  apply IH.
  - apply coalescing_step; [exact H|]. intros ->. apply Hnin. now left.
  - intros Hin. apply Hnin. now right.
Qed.

Lemma coalescing_sharing key p0 c0 base s :
  coalescing key p0 c0 base s -> sharing key p0 c0 base s.
Proof. intros (Hp & Hb & Hlt & Ho & Hw & Hret). split; [|split; [|split]]; assumption. Qed.

Lemma sharing_step key p0 c0 base s e :
  sharing key p0 c0 base s -> e <> Invoke key -> sharing key p0 c0 base (step s e).
Proof.
  intros (Hb & Hlt & Hw & Hret) Hne. destruct e as [email|p o|c]; simpl.
  - assert (email <> key) as Hk by congruence.
    unfold invoke. destruct (mapGet email (pendingOperations s)) as [pending|].
    + split; [|split; [|split]]; simpl; try assumption; try lia.
      intros c Hc Hck Hle. apply in_app_or in Hc as [Hc|[<-|[]]]; [auto|].
      simpl in Hck. contradiction.
    + split; [|split; [|split]]; simpl; try assumption; try lia.
      * unfold backingCallsFor at 1. simpl. rewrite backingCallsFor_app.
        rewrite filter_cons_False by exact Hk. now rewrite filter_nil, app_nil_r.
      * intros c Hc Hck Hle. apply in_app_or in Hc as [Hc|[<-|[]]]; [auto|].
        simpl in Hck. contradiction.
  - unfold backendSettles.
    destruct (existsb _ _ && negb _); [|split; [|split; [|split]]; assumption].
    split; [|split; [|split]]; simpl; try assumption.
    intros c v Hc Hck Hle. destruct (Hret c v Hc Hck Hle) as [Haw Hsv].
    split; [exact Haw|]. now apply settledValue_app.
  - unfold resume.
    destruct (findCall c (suspended s)) as [call|] eqn:Hf;
      [|split; [|split; [|split]]; assumption].
    destruct (settledValue (awaited call) (settled s)) as [value|] eqn:Hv;
      [|split; [|split; [|split]]; assumption].
    destruct (findCall_Some _ _ _ Hf) as [Hin Hid].
    split; [|split; [|split]]; simpl; try assumption.
    + intros x Hx. apply removeCall_In in Hx. now apply Hw.
    + intros x v Hx Hck Hle.
      apply in_app_or in Hx as [Hx|[[= <- <-]|[]]]; [now apply Hret|].
      pose proof (Hw call Hin Hck Hle) as Haw. split; [exact Haw|].
      now rewrite <- Haw.
Qed.

Lemma sharing_run key p0 c0 base schedule s :
  sharing key p0 c0 base s -> ~ In (Invoke key) schedule ->
  sharing key p0 c0 base (run s schedule).
Proof.
  revert s. induction schedule as [|e schedule IH]; intros s H Hnin; simpl; [exact H|].
  apply IH.
  - apply sharing_step; [exact H|]. intros ->. apply Hnin. now left.
  - intros Hin. apply Hnin. now right.
Qed.

Lemma run_app s l1 l2 : run s (l1 ++ l2) = run (run s l1) l2.
Proof. unfold run. apply fold_left_app. Qed.

End CacheManagerFacts.

(* --------------------------------------------------------------------- *)
(** ** The result cache and the facade *)
(* --------------------------------------------------------------------- *)

Module FacadeFacts.
Import Js Types MapFacts DisposableEmailChecker.

(** [set] at capacity removes the oldest key before it stores the new
    entry (unless that key is the empty string, which [!oldestKey] takes
    for no key at all). *)
Lemma set_evicts_oldest now c key r ttlArg oldestKey e rest :
  MemoryCache.cache c = (oldestKey, e) :: rest ->
  MemoryCache.maxSize c <= Z.of_nat (length (MemoryCache.cache c)) ->
  oldestKey <> ""%string ->
  MemoryCache.cache (MemoryCache.set now c key r ttlArg)
  = mapSet key (MemoryCache.mkEntry r now 0
                  (MemoryCache.orDefault ttlArg (MemoryCache.defaultTtl c)))
           (mapDelete oldestKey (MemoryCache.cache c)).
Proof.
  intros Hc Hfull Hne. unfold MemoryCache.set.
  destruct (Z.leb_spec (MemoryCache.maxSize c) (Z.of_nat (length (MemoryCache.cache c))));
    [|lia].
  rewrite Hc. apply String.eqb_neq in Hne. now rewrite Hne.
Qed.

Lemma cacheSound_new cfg ext a b : cacheSound cfg ext (MemoryCache.new a b).
Proof. intros k e []. Qed.

Lemma cacheSound_get cfg ext now c key :
  cacheSound cfg ext c ->
  cacheSound cfg ext (snd (MemoryCache.get now c key)) /\
  (forall r, fst (MemoryCache.get now c key) = Some r -> producedFor cfg ext key r).
Proof.
  intros Hs. unfold MemoryCache.get.
  destruct (mapGet key (MemoryCache.cache c)) as [entry|] eqn:Hg; simpl.
  - pose proof (Hs key entry (mapGet_Some_in _ _ _ Hg)) as Hentry.
    destruct (negb (MemoryCache.ttl entry =? 0)
              && (MemoryCache.ttl entry <? now - MemoryCache.timestamp entry)); simpl.
    + split; [|discriminate]. intros k e Hin. apply Hs. eapply in_mapDelete; eauto.
    + split; [|now intros r [= <-]].
      intros k e Hin. apply in_mapSet in Hin as [[= -> ->]|Hin]; [exact Hentry|].
      apply Hs. eapply in_mapDelete; eauto.
  - split; [exact Hs|discriminate].
Qed.

Lemma cacheSound_set cfg ext now c key r ttlArg :
  cacheSound cfg ext c -> producedFor cfg ext key r ->
  cacheSound cfg ext (MemoryCache.set now c key r ttlArg).
Proof.
  intros Hs Hr. unfold MemoryCache.set.
  destruct (MemoryCache.maxSize c <=? Z.of_nat (length (MemoryCache.cache c))).
  - destruct (MemoryCache.cache c) as [|[oldestKey e0] rest] eqn:Hc; [exact Hs|].
    destruct (String.eqb oldestKey ""); [exact Hs|].
    intros k e Hin. simpl in Hin.
    apply in_mapSet in Hin as [[= -> ->]|Hin]; [exact Hr|].
    apply Hs. rewrite Hc. eapply in_mapDelete; eauto.
  - intros k e Hin. simpl in Hin.
    apply in_mapSet in Hin as [[= -> ->]|Hin]; [exact Hr|]. now apply Hs.
Qed.

(** What [checkEmail] returns is a result produced for the email, with
    its time replaced, or the result of the [catch]. *)
Lemma checkEmail_cases cfg ext clock st email :
  cacheSound cfg ext (resultCache st) ->
  cacheSound cfg ext (resultCache (snd (checkEmail cfg ext clock st email))) /\
  ((exists r0,
       producedFor cfg ext email r0 /\
       fst (checkEmail cfg ext clock st email)
       = mkResult (Types.email r0) (isValid r0) (isDisposable r0) (isAllowed r0)
                  (isBlacklisted r0) (domain r0) (localPart r0) (matchType r0)
                  (confidence r0) (source r0) (elapsed clock) (errors r0) (warnings r0))
   \/
   (exists thrown,
       performEmailCheck cfg ext clock (domainCache st) email = inl thrown /\
       fst (checkEmail cfg ext clock st email) = failure clock email thrown)).
Proof.
  intros Hs. unfold checkEmail.
  assert (exists cached cache1,
             (if enableCaching cfg
              then MemoryCache.get (nowGet clock) (resultCache st) email
              else (None, resultCache st)) = (cached, cache1) /\
             cacheSound cfg ext cache1 /\
             (forall r, cached = Some r -> producedFor cfg ext email r))
    as (cached & cache1 & -> & Hs1 & Hc).
  { destruct (enableCaching cfg).
    - destruct (cacheSound_get cfg ext (nowGet clock) (resultCache st) email Hs) as [H1 H2].
      destruct (MemoryCache.get _ _ _) as [cached cache1]. eauto.
    - exists None, (resultCache st). split; [reflexivity|]. split; [exact Hs|discriminate]. }
  destruct cached as [r0|].
  - simpl. split; [exact Hs1|]. left. exists r0. split; [now apply Hc|reflexivity].
  - destruct (performEmailCheck cfg ext clock (domainCache st) email)
      as [thrown|[result dc']] eqn:Hp.
    + simpl. split; [exact Hs1|]. right. eauto.
    + assert (producedFor cfg ext email result) as Hprod by (exists clock; eauto).
      simpl. split.
      * destruct (enableCaching cfg); [now apply cacheSound_set|exact Hs1].
      * left. exists result. split; [exact Hprod|].
        unfold performEmailCheck in Hp.
        destruct (EmailValidator.validateEmailFormat _ _) as [t|[[] errs]];
          [discriminate| |now injection Hp as <- _].
        destruct (EmailValidator.parseEmail email) as [lp [d|]]; [|discriminate].
        destruct (DomainChecker.checkAllowlist _ _); [now injection Hp as <- _|].
        unfold classify in Hp.
        repeat match type of Hp with
               | context [let '(_, _) := ?x in _] => destruct x
               end.
        now injection Hp as <- _.
Qed.

Lemma reachable_cacheSound cfg ext st :
  reachable cfg ext st -> cacheSound cfg ext (resultCache st).
Proof.
  induction 1 as [a b|st clock email Hr IH|st Hr IH]; simpl.
  - apply cacheSound_new.
  - now apply checkEmail_cases.
  - intros k e [].
Qed.

(** Under one configuration, what the cache returns for an email was
    produced for it under that configuration. *)
Lemma reachable_cachedResult cfg ext clock st email r :
  reachable cfg ext st ->
  cachedResult cfg clock st email = Some r -> producedFor cfg ext email r.
Proof.
  intros Hr. unfold cachedResult. destruct (enableCaching cfg); [|discriminate].
  apply cacheSound_get. now apply reachable_cacheSound.
Qed.

(** What [checkEmail] returns when the cached result, if it takes one,
    was produced under the configuration in force: a result produced for
    the email, with its time replaced, or the result of the [catch]. *)
Lemma checkEmail_result cfg ext clock st email :
  (forall r, cachedResult cfg clock st email = Some r -> producedFor cfg ext email r) ->
  (exists r0,
      producedFor cfg ext email r0 /\
      fst (checkEmail cfg ext clock st email)
      = mkResult (Types.email r0) (isValid r0) (isDisposable r0) (isAllowed r0)
                 (isBlacklisted r0) (domain r0) (localPart r0) (matchType r0)
                 (confidence r0) (source r0) (elapsed clock) (errors r0) (warnings r0))
  \/
  (exists thrown,
      performEmailCheck cfg ext clock (domainCache st) email = inl thrown /\
      fst (checkEmail cfg ext clock st email) = failure clock email thrown).
Proof.
  unfold cachedResult, checkEmail. intros Hc.
  assert (exists cached cache1,
             (if enableCaching cfg
              then MemoryCache.get (nowGet clock) (resultCache st) email
              else (None, resultCache st)) = (cached, cache1) /\
             (forall r, cached = Some r -> producedFor cfg ext email r))
    as (cached & cache1 & -> & Hc').
  { destruct (enableCaching cfg).
    - destruct (MemoryCache.get _ _ _) as [cached cache1]. eauto.
    - exists None, (resultCache st). split; [reflexivity|discriminate]. }
  destruct cached as [r0|].
  - left. exists r0. split; [now apply Hc'|reflexivity].
  - destruct (performEmailCheck cfg ext clock (domainCache st) email)
      as [thrown|[result dc']] eqn:Hp.
    + right. eauto.
    + left. exists result. split; [exists clock; eauto|]. simpl.
      unfold performEmailCheck in Hp.
      destruct (EmailValidator.validateEmailFormat _ _) as [t|[[] errs]];
        [discriminate| |now injection Hp as <- _].
      destruct (EmailValidator.parseEmail email) as [lp [d|]]; [|discriminate].
      destruct (DomainChecker.checkAllowlist _ _); [now injection Hp as <- _|].
      unfold classify in Hp.
      repeat match type of Hp with
             | context [let '(_, _) := ?x in _] => destruct x
             end.
      now injection Hp as <- _.
Qed.

(** A failed validation always leaves a message. *)
Lemma validate_false_errors strict email errs :
  EmailValidator.validateEmailFormat strict email = inr (false, errs) -> errs <> [].
Proof.
  unfold EmailValidator.validateEmailFormat.
  destruct (negb (Regex.test _ email)); [intros [= <-]; discriminate|].
  destruct (254 <? len email); [intros [= <-]; discriminate|].
  destruct (split "@" email) as [|lp rest]; [discriminate|].
  destruct (64 <? len lp); [intros [= <-]; discriminate|].
  destruct rest as [|d rest']; [discriminate|].
  destruct (253 <? len d); [intros [= <-]; discriminate|discriminate].
Qed.

Lemma formatValid_true strict email :
  EmailValidator.formatValid strict email = true ->
  exists errs, EmailValidator.validateEmailFormat strict email = inr (true, errs).
Proof.
  unfold EmailValidator.formatValid.
  destruct (EmailValidator.validateEmailFormat strict email) as [t|[[] errs]];
    [discriminate|eauto|discriminate].
Qed.

(** Lower-casing neither creates nor removes an "@". *)
Lemma lowerChar_at c : Ascii.eqb (lowerChar c) "@" = Ascii.eqb c "@".
Proof. destruct c as [[] [] [] [] [] [] [] []]; reflexivity. Qed.

Lemma split_toLowerCase s :
  split "@" (toLowerCase s) = map toLowerCase (split "@" s).
Proof.
  induction s as [|c rest IH]; simpl; [reflexivity|].
  rewrite lowerChar_at, IH.
  destruct (Ascii.eqb c "@"); [reflexivity|].
  destruct (split "@" rest); reflexivity.
Qed.

(** Once [validateEmailFormat] has returned [true], [parseEmail] finds a
    domain. *)
Lemma parseEmail_total strict email :
  EmailValidator.formatValid strict email = true ->
  exists localPart domain,
    EmailValidator.parseEmail email = (localPart, Some domain).
Proof.
  intros Hv. apply formatValid_true in Hv as [errs Hv].
  unfold EmailValidator.validateEmailFormat in Hv.
  destruct (negb (Regex.test _ email)); [discriminate|].
  destruct (254 <? len email); [discriminate|].
  unfold EmailValidator.parseEmail. rewrite split_toLowerCase.
  destruct (split "@" email) as [|lp rest]; [discriminate|].
  destruct (64 <? len lp); [discriminate|].
  destruct rest as [|d rest']; [discriminate|]. simpl. eauto.
Qed.

(** A result produced for an email that fails validation. *)
Lemma produced_invalid cfg ext email r :
  producedFor cfg ext email r ->
  EmailValidator.formatValid (strictValidation cfg) email = false ->
  isValid r = false /\ isDisposable r = false /\ isAllowed r = false /\
  isBlacklisted r = false /\ confidence r = 0 /\ errors r <> [].
Proof.
  intros (clock & dc & dc' & Hp) Hv.
  unfold performEmailCheck in Hp. unfold EmailValidator.formatValid in Hv.
  destruct (EmailValidator.validateEmailFormat (strictValidation cfg) email)
    as [t|[[] errs]] eqn:Hval; [discriminate|discriminate|].
  injection Hp as <- _. simpl. repeat split.
  eapply validate_false_errors; eauto.
Qed.

(** A result produced for an email whose domain is on the allow list. *)
Lemma produced_allowed cfg ext email r localPart domain :
  producedFor cfg ext email r ->
  EmailValidator.formatValid (strictValidation cfg) email = true ->
  EmailValidator.parseEmail email = (localPart, Some domain) ->
  domain ∈ Checker.allowlistSet (checker cfg) ->
  isValid r = true /\ isAllowed r = true /\ isDisposable r = false /\
  isBlacklisted r = false /\ confidence r = 100.
Proof.
  intros (clock & dc & dc' & Hp) Hv Hparse Hin.
  apply formatValid_true in Hv as [errs Hv].
  unfold performEmailCheck in Hp. rewrite Hv, Hparse in Hp.
  unfold DomainChecker.checkAllowlist in Hp.
  apply CheckerFacts.setHas_true in Hin. rewrite Hin in Hp. simpl in Hp.
  injection Hp as <- _. repeat split.
Qed.

(** With the domain on the allow list, [performEmailCheck] neither throws
    nor touches the domain checker's cache. *)
Lemma performEmailCheck_allowed cfg ext clock dc email localPart domain :
  EmailValidator.formatValid (strictValidation cfg) email = true ->
  EmailValidator.parseEmail email = (localPart, Some domain) ->
  domain ∈ Checker.allowlistSet (checker cfg) ->
  exists r, performEmailCheck cfg ext clock dc email = inr (r, dc).
Proof.
  intros Hv Hparse Hin. apply formatValid_true in Hv as [errs Hv].
  unfold performEmailCheck. rewrite Hv, Hparse.
  unfold DomainChecker.checkAllowlist.
  apply CheckerFacts.setHas_true in Hin. rewrite Hin. simpl. eauto.
Qed.

End FacadeFacts.

(* --------------------------------------------------------------------- *)
(** ** Suffix trie: what [search] finds, in terms of what is recorded *)
(* --------------------------------------------------------------------- *)

Module SearchFacts.
Import Js Trie TrieIndex MapFacts.

Lemma terminalAt_cons part rest n :
  terminalAt (part :: rest) n
  = match mapGet part (children n) with
    | Some c => terminalAt rest c
    | None => None
    end.
Proof. unfold terminalAt. simpl. now destruct (mapGet part (children n)). Qed.

Lemma terminalAt_newNode parts : terminalAt parts newNode = None.
Proof. destruct parts; reflexivity. Qed.

(** The child [insert] steps into is there after [has]/[set]. *)
Lemma insertParts_cons part rest src n :
  insertParts (part :: rest) src n
  = Node (mapSet part
            (insertParts rest src (default newNode (mapGet part (children n))))
            (children n))
         (isEndOfDomain n) (source n).
Proof.
  cbn [insertParts]. unfold mapHas.
  destruct (mapGet part (children n)) as [c|] eqn:Hc.
  - rewrite Hc. reflexivity.
  - rewrite mapGet_mapSet_eq. simpl. f_equal.
    clear Hc. induction (children n) as [|[k v] ch IH]; simpl.
    + now rewrite String.eqb_refl.
    + destruct (String.eqb k part) eqn:E; simpl.
      * now rewrite String.eqb_refl.
      * now rewrite E, IH.
Qed.

(** [insert] makes its own path terminal, with the source given. *)
Lemma terminalAt_insertParts_same parts src n :
  terminalAt parts (insertParts parts src n) = Some src.
Proof.
  revert n. induction parts as [|part rest IH]; intros n; [reflexivity|].
  rewrite insertParts_cons, terminalAt_cons. cbn [children].
  rewrite mapGet_mapSet_eq. apply IH.
Qed.

(** [insert] changes what is recorded for no other path. *)
Lemma terminalAt_insertParts_other parts q src n :
  q <> parts -> terminalAt q (insertParts parts src n) = terminalAt q n.
Proof.
  revert q n. induction parts as [|part rest IH]; intros q n Hne.
  - destruct q as [|p qs]; [contradiction|]. now rewrite !terminalAt_cons.
  - rewrite insertParts_cons. destruct q as [|p qs]; [reflexivity|].
    rewrite !terminalAt_cons. cbn [children].
    destruct (String.eqb_spec part p) as [->|Hp].
    + rewrite mapGet_mapSet_eq, IH by congruence.
      destruct (mapGet p (children n)); [reflexivity|apply terminalAt_newNode].
    + now rewrite mapGet_mapSet_ne.
Qed.

Lemma firstFound_app {A} (f : A -> option string) l1 l2 :
  firstFound f (l1 ++ l2)
  = match firstFound f l1 with Some s => Some s | None => firstFound f l2 end.
Proof.
  induction l1 as [|a l1 IH]; simpl; [reflexivity|]. now destruct (f a).
Qed.

Lemma firstFound_map {A B} (g : A -> B) (f : B -> option string) l :
  firstFound f (map g l) = firstFound (fun a => f (g a)) l.
Proof. induction l as [|a l IH]; simpl; [reflexivity|]. now rewrite IH. Qed.

Lemma firstFound_ext {A} (f g : A -> option string) l :
  (forall a, In a l -> f a = g a) -> firstFound f l = firstFound g l.
Proof.
  induction l as [|a l IH]; simpl; intros H; [reflexivity|].
  rewrite (H a) by now left. destruct (g a); [reflexivity|]. apply IH. auto.
Qed.

Lemma firstFound_none {A} (f : A -> option string) l :
  (forall a, In a l -> f a = None) -> firstFound f l = None.
Proof.
  induction l as [|a l IH]; simpl; intros H; [reflexivity|].
  rewrite (H a) by now left. apply IH. auto.
Qed.

(** What the loop of [search] leaves in its three variables. *)
Lemma searchLoop_spec parts n sub src :
  parts <> [] ->
  match terminalAt parts n with
  | Some s => exists sub', searchLoop parts n false sub src = (true, sub', s)
  | None =>
      searchLoop parts n false sub src
      = match firstFound (fun q => terminalAt q n) (properPrefixes parts) with
        | Some s => (false, true, s)
        | None => (false, sub, src)
        end
  end.
Proof.
  revert n sub src. induction parts as [|part rest IH]; intros n sub src Hne; [contradiction|].
  rewrite terminalAt_cons. cbn [searchLoop].
  destruct (mapGet part (children n)) as [child|] eqn:Hc.
  - destruct rest as [|part' rest'].
    + unfold terminalAt. simpl. destruct (isEndOfDomain child); simpl; eauto.
    + set (rest := part' :: rest') in *.
      assert (rest <> []) as Hrest by discriminate.
      assert (properPrefixes (part :: rest)
              = map (cons part) (properPrefixes rest) ++ [[part]]) as -> by reflexivity.
      rewrite firstFound_app, firstFound_map.
      rewrite (firstFound_ext _ (fun q => terminalAt q child))
        by (intros a _; now rewrite terminalAt_cons, Hc).
      cbn [firstFound]. rewrite terminalAt_cons, Hc.
      assert (terminalAt [] child
              = if isEndOfDomain child then Some (source child) else None) as -> by reflexivity.
      destruct (isEndOfDomain child).
      * specialize (IH child true (source child) Hrest).
        replace (match rest with
                 | [] => searchLoop rest child true sub (source child)
                 | _ :: _ => searchLoop rest child false true (source child)
                 end) with (searchLoop rest child false true (source child)) by reflexivity.
        destruct (terminalAt rest child); [exact IH|].
        rewrite IH. now destruct (firstFound _ (properPrefixes rest)).
      * specialize (IH child sub src Hrest).
        destruct (terminalAt rest child); [exact IH|].
        rewrite IH. now destruct (firstFound _ (properPrefixes rest)).
  - rewrite firstFound_none; [reflexivity|].
    intros q Hq. destruct rest as [|part' rest']; [destruct Hq|].
    apply in_app_or in Hq as [Hq|[<-|[]]].
    + apply in_map_iff in Hq as (q' & <- & _). now rewrite terminalAt_cons, Hc.
    + now rewrite terminalAt_cons, Hc.
Qed.

Lemma searchParts_spec parts n :
  parts <> [] ->
  searchParts parts n
  = match terminalAt parts n with
    | Some s => mkSearchResult true exact 100 s
    | None =>
        match firstFound (fun q => terminalAt q n) (properPrefixes parts) with
        | Some s => mkSearchResult true subdomain 85 s
        | None => mkSearchResult false exact 0 ""
        end
    end.
Proof.
  intros Hne. unfold searchParts.
  pose proof (searchLoop_spec parts n false "" Hne) as H.
  destruct (terminalAt parts n).
  - destruct H as [sub' ->]. reflexivity.
  - rewrite H. now destruct (firstFound _ (properPrefixes parts)).
Qed.

End SearchFacts.

(* --------------------------------------------------------------------- *)
(** ** Domains as paths of the trie *)
(* --------------------------------------------------------------------- *)

Module DomainFacts.
Import Js Trie TrieIndex MapFacts SearchFacts Checker ParentFacts.

Lemma split_hasChar c s : Forall (fun p => hasChar c p = false) (split c s).
Proof.
  induction s as [|a rest IH]; simpl; [repeat constructor|].
  destruct (Ascii.eqb a c) eqn:E; [constructor; [reflexivity|exact IH]|].
  destruct (split c rest) as [|p ps]; [repeat constructor; simpl; now rewrite E|].
  inversion IH as [|? ? Hp Hps]; subst. constructor; [simpl; now rewrite E|exact Hps].
Qed.

Lemma split_no_sep c s : hasChar c s = false -> split c s = [s].
Proof.
  induction s as [|a rest IH]; simpl; [reflexivity|].
  destruct (Ascii.eqb a c); simpl; [discriminate|]. intros H. now rewrite IH.
Qed.

Lemma split_append c p s :
  hasChar c p = false ->
  split c (p ++ String c s) = p :: split c s.
Proof.
  induction p as [|a p IH]; simpl; intros H.
  - now rewrite Ascii.eqb_refl.
  - destruct (Ascii.eqb a c); simpl in H; [discriminate|]. now rewrite IH.
Qed.

(** [split] undoes [join] on labels that hold no separator. *)
Lemma split_join l :
  l <> [] -> Forall (fun p => hasChar "." p = false) l -> split "." (join "." l) = l.
Proof.
  induction l as [|p l IH]; intros Hne Hall; [contradiction|].
  inversion Hall as [|? ? Hp Hl]; subst.
  destruct l as [|q l]; [now apply split_no_sep|].
  change (join "." (p :: q :: l)) with (p ++ String "." (join "." (q :: l)))%string.
  rewrite split_append by exact Hp. f_equal. apply IH; [discriminate|exact Hl].
Qed.

(** Two domains with the same labels are the same domain. *)
Lemma reverseParts_inj d d' : reverseParts d = reverseParts d' -> d = d'.
Proof.
  unfold reverseParts. intros H.
  rewrite <- (join_split d), <- (join_split d').
  f_equal. apply (f_equal (@rev string)) in H. now rewrite !rev_involutive in H.
Qed.

Lemma reverseParts_nonempty d : reverseParts d <> [].
Proof.
  unfold reverseParts. intros H. apply (f_equal (@rev string)) in H.
  rewrite rev_involutive in H. now apply (split_nonempty "." d).
Qed.

Lemma properPrefixes_snoc q x :
  q <> [] -> properPrefixes (q ++ [x]) = q :: properPrefixes q.
Proof.
  induction q as [|a q IH]; intros Hne; [contradiction|].
  destruct q as [|b q]; [reflexivity|].
  change (properPrefixes ((a :: b :: q) ++ [x]))
    with (map (cons a) (properPrefixes ((b :: q) ++ [x])) ++ [[a]]).
  rewrite IH by discriminate. reflexivity.
Qed.

Lemma reverseParts_suffixJoins l :
  Forall (fun p => hasChar "." p = false) l ->
  map reverseParts (suffixJoins l) = properPrefixes (rev l).
Proof.
  induction l as [|p l IH]; intros Hall; [reflexivity|].
  inversion Hall as [|? ? Hp Hl]; subst.
  destruct l as [|q l]; [reflexivity|].
  change (suffixJoins (p :: q :: l)) with (join "." (q :: l) :: suffixJoins (q :: l)).
  change (rev (p :: q :: l)) with (rev (q :: l) ++ [p]).
  rewrite properPrefixes_snoc.
  - cbn [map]. rewrite IH by exact Hl. f_equal.
    unfold reverseParts. now rewrite split_join.
  - intros H. apply (f_equal (@length string)) in H.
    rewrite length_rev in H. discriminate.
Qed.

(** The parent domains of [d], as paths of the trie: the proper prefixes
    of the path of [d], longest first. *)
Lemma reverseParts_afterDots d :
  map reverseParts (afterDots d) = properPrefixes (reverseParts d).
Proof.
  rewrite <- suffixJoins_split. apply reverseParts_suffixJoins, split_hasChar.
Qed.

Lemma stored_insert_same root d src : stored (insert root d src) d = Some src.
Proof. apply terminalAt_insertParts_same. Qed.

Lemma stored_insert_other root d d' src :
  d <> d' -> stored (insert root d' src) d = stored root d.
Proof.
  intros Hne. apply terminalAt_insertParts_other.
  intros H. now apply Hne, reverseParts_inj.
Qed.

Lemma stored_newNode d : stored newNode d = None.
Proof. apply terminalAt_newNode. Qed.

Lemma search_spec root d :
  search root d
  = match stored root d with
    | Some s => mkSearchResult true exact 100 s
    | None =>
        match firstFound (stored root) (afterDots d) with
        | Some s => mkSearchResult true subdomain 85 s
        | None => mkSearchResult false exact 0 ""
        end
    end.
Proof.
  unfold search, stored. rewrite searchParts_spec by apply reverseParts_nonempty.
  destruct (terminalAt (reverseParts d) root); [reflexivity|].
  now rewrite <- reverseParts_afterDots, firstFound_map.
Qed.

End DomainFacts.

(* --------------------------------------------------------------------- *)
(** ** The two ways of splitting a domain agree *)
(* --------------------------------------------------------------------- *)

Module SplitAgreeFacts.
Import Js Trie TrieIndex MapFacts SearchFacts Checker ParentFacts SplitFacts
  PooledTrieIndex DomainFacts.

Lemma takeChars_all s : takeChars (String.length s) s = s.
Proof. induction s as [|a s IH]; simpl; [reflexivity|]. now rewrite IH. Qed.

Lemma length_takeChars n s :
  (n <= String.length s)%nat -> String.length (takeChars n s) = n.
Proof.
  revert s. induction n as [|n IH]; intros s H; [reflexivity|].
  destruct s as [|a s]; simpl in *; [lia|]. rewrite IH; lia.
Qed.

(** Looking past the end of the string finds nothing more. *)
Lemma findLastChar_beyond c s i n :
  (String.length s <= n)%nat -> findLastChar c s i n = findLastChar c s i (String.length s).
Proof.
  revert i n. induction s as [|a s IH]; intros i n H.
  - destruct n; reflexivity.
  - destruct n as [|n]; simpl in H; [lia|]. simpl.
    rewrite (IH (S i) n) by lia. reflexivity.
Qed.

Lemma findLastChar_None_split c s i n :
  findLastChar c s i n = None -> split c (takeChars n s) = [takeChars n s].
Proof.
  revert s i. induction n as [|n IH]; intros s i; [destruct s; reflexivity|].
  destruct s as [|a s]; [reflexivity|]. simpl.
  destruct (findLastChar c s (S i) n) eqn:Hrec; [discriminate|].
  destruct (Ascii.eqb a c); [discriminate|]. intros _.
  now rewrite (IH s (S i) Hrec).
Qed.

Lemma findLastChar_Some_split c s i n j :
  findLastChar c s i n = Some j ->
  exists k, j = (i + k)%nat /\ (k < n)%nat /\ (k < String.length s)%nat /\
    split c (takeChars n s)
    = split c (takeChars k s) ++ [takeChars (n - S k) (dropChars (S k) s)].
Proof.
  revert s i j. induction n as [|n IH]; intros s i j; [discriminate|].
  destruct s as [|a s]; [discriminate|]. simpl.
  destruct (findLastChar c s (S i) n) as [j'|] eqn:Hrec.
  - intros [= <-]. destruct (IH s (S i) j' Hrec) as (k & -> & Hk & Hl & Hs).
    exists (S k). split; [lia|]. split; [lia|]. split; [lia|].
    cbn [takeChars dropChars split]. rewrite Hs.
    destruct (Ascii.eqb a c); [reflexivity|].
    pose proof (split_nonempty c (takeChars k s)) as Hn.
    destruct (split c (takeChars k s)); [contradiction|reflexivity].
  - destruct (Ascii.eqb a c) eqn:E; [|discriminate]. intros [= <-].
    exists O. split; [lia|]. split; [lia|]. split; [lia|].
    cbn [takeChars dropChars split]. rewrite ?E, Nat.sub_0_r.
    now rewrite (findLastChar_None_split c s (S i) n Hrec).
Qed.

(** The first label is the string up to its length. *)
Lemma hd_split_prefix c s :
  takeChars (String.length (hd EmptyString (split c s))) s = hd EmptyString (split c s).
Proof.
  induction s as [|a s IH]; [reflexivity|]. simpl.
  destruct (Ascii.eqb a c); [reflexivity|].
  pose proof (split_nonempty c s) as Hn.
  destruct (split c s) as [|p ps]; [contradiction|]. simpl in *. now rewrite IH.
Qed.

(** Without a leading separator, a string that holds one starts with a
    non-empty label. *)
Lemma hd_split_nonempty s :
  leadingDot s = false -> s <> EmptyString ->
  hd EmptyString (split "." s) <> EmptyString.
Proof.
  destruct s as [|a s]; [contradiction|]. simpl. intros Hld _. rewrite Hld.
  pose proof (split_nonempty "." s) as Hn.
  destruct (split "." s); [contradiction|discriminate].
Qed.

Lemma leadingDot_takeChars n s :
  leadingDot s = false -> leadingDot (takeChars n s) = false.
Proof. destruct n, s; simpl; auto. Qed.

(** The loop of [splitDomainReverse] from [cur] on: it appends the labels
    of the first [cur] characters, last label first, but for the first
    label, whose length it leaves in [currentIndex]. *)
Lemma splitLoop_spec s :
  leadingDot s = false ->
  forall fuel cur parts,
    (cur <= String.length s)%nat -> (cur < fuel)%nat ->
    splitLoop fuel s parts (Z.of_nat cur)
      (match findLastChar "." s 0 cur with Some j => Z.of_nat j | None => -1 end)
    = Some (parts ++ rev (tl (split "." (takeChars cur s))),
            Z.of_nat (String.length (hd EmptyString (split "." (takeChars cur s))))).
Proof.
  intros Hld. induction fuel as [|fuel IH]; intros cur parts Hcur Hfuel; [lia|].
  cbn [splitLoop].
  destruct (findLastChar "." s 0 cur) as [j|] eqn:Hf.
  - destruct (Z.eqb_spec (Z.of_nat j) (-1)) as [He|_]; [lia|].
    destruct (findLastChar_Some_split _ _ _ _ _ Hf) as (k & -> & Hk & Hl & Hs).
    simpl in *.
    assert (k <> 0%nat) as Hk0.
    { intros ->. apply findLastChar_first in Hf.
      destruct s as [|a s]; [destruct Hf|]. subst a. discriminate. }
    assert (lastIndexOf s "." (Z.of_nat k - 1)
            = match findLastChar "." s 0 k with Some j => Z.of_nat j | None => -1 end) as ->.
    { unfold lastIndexOf. replace (S (Z.to_nat (Z.of_nat k - 1))) with k by lia.
      reflexivity. }
    rewrite IH by lia. rewrite Hs.
    pose proof (split_nonempty "." (takeChars k s)) as Hn.
    destruct (split "." (takeChars k s)) as [|h t]; [contradiction|].
    cbn [app tl hd]. rewrite rev_app_distr. cbn [rev app].
    unfold slice.
    replace (Z.to_nat (Z.of_nat cur - (Z.of_nat k + 1))) with (cur - S k)%nat by lia.
    replace (Z.to_nat (Z.of_nat k + 1)) with (S k) by lia.
    now rewrite <- app_assoc.
  - rewrite Z.eqb_refl. rewrite (findLastChar_None_split _ _ _ _ Hf). cbn [tl hd rev].
    now rewrite app_nil_r, length_takeChars.
Qed.

(** [splitDomainReverse] returns what [split(".").reverse()] returns, on
    every string without a leading separator. *)
Lemma splitDomainReverse_reverseParts s :
  leadingDot s = false -> splitDomainReverse s = Some (TrieIndex.reverseParts s).
Proof.
  intros Hld. unfold splitDomainReverse, splitDomainReverseFuel, TrieIndex.reverseParts.
  assert (lastIndexOf s "." (len s)
          = match findLastChar "." s 0 (String.length s) with
            | Some j => Z.of_nat j | None => -1 end) as ->.
  { unfold lastIndexOf, len. rewrite Nat2Z.id.
    now rewrite (findLastChar_beyond "." s 0 (S (String.length s))) by lia. }
  destruct (findLastChar "." s 0 (String.length s)) as [j|] eqn:Hf.
  - destruct (Z.eqb_spec (Z.of_nat j) (-1)) as [He|_]; [lia|].
    pose proof (splitLoop_spec s Hld (S (String.length s)) (String.length s) []) as Hl.
    rewrite Hf in Hl. unfold len. rewrite Hl by lia. rewrite takeChars_all.
    assert (s <> EmptyString) as Hs by (intros ->; discriminate).
    pose proof (hd_split_nonempty s Hld Hs) as Hh.
    pose proof (hd_split_prefix "." s) as Hp.
    pose proof (split_nonempty "." s) as Hn.
    destruct (split "." s) as [|h t]; [contradiction|]. cbn [hd tl rev app] in *.
    destruct (Z.ltb_spec 0 (Z.of_nat (String.length h))) as [_|Hz].
    + unfold slice. rewrite Z.sub_0_r, Nat2Z.id. simpl dropChars. now rewrite Hp.
    + destruct h; [contradiction|simpl in Hz; lia].
  - rewrite Z.eqb_refl. apply findLastChar_None_split in Hf.
    rewrite takeChars_all in Hf. now rewrite Hf.
Qed.

Lemma mapSet_mapSet {V} k (v w : V) m : mapSet k w (mapSet k v m) = mapSet k w m.
Proof.
  induction m as [|[k0 v0] m IH]; simpl.
  - now rewrite String.eqb_refl.
  - destruct (String.eqb k0 k) eqn:E; simpl.
    + now rewrite String.eqb_refl.
    + now rewrite E, IH.
Qed.

(** The trie [insert] builds does not depend on where its new nodes come
    from: the pooled class builds what the plain class builds. *)
Lemma pooled_insertParts parts src n pool :
  fst (insertParts parts src n pool) = TrieIndex.insertParts parts src n.
Proof.
  revert n pool. induction parts as [|part rest IH]; intros n pool; [reflexivity|].
  rewrite insertParts_cons. cbn [insertParts].
  destruct (mapGet part (children n)) as [child|] eqn:Hc.
  - specialize (IH child pool).
    destruct (insertParts rest src child pool) as [child' pool']. simpl in *. now subst.
  - pose proof (PooledTrieFacts.getPooledNode_fst pool) as Hg.
    destruct (getPooledNode pool) as [fresh pool1]. simpl in Hg. subst fresh.
    specialize (IH newNode pool1).
    destruct (insertParts rest src newNode pool1) as [child' pool']. simpl in *. now subst.
Qed.

End SplitAgreeFacts.

(* --------------------------------------------------------------------- *)
(** ** Parent domains *)
(* --------------------------------------------------------------------- *)

Module ParentDomainFacts.
Import Js Trie TrieIndex MapFacts SearchFacts Checker ParentFacts DomainFacts.

(** The parent domains of [d] are the strings that follow one of its
    separators. *)
Lemma afterDots_spec d p :
  In p (afterDots d) <-> exists pre, d = (pre ++ "." ++ p)%string.
Proof.
  split.
  - induction d as [|a d IH]; simpl; [tauto|].
    destruct (Ascii.eqb_spec a ".") as [->|Hne].
    + intros [<-|Hin]; [now exists EmptyString|].
      destruct (IH Hin) as [pre ->]. now exists (String "." pre).
    + intros Hin. destruct (IH Hin) as [pre ->]. now exists (String a pre).
  - intros [pre ->]. induction pre as [|a pre IH]; simpl; [now left|].
    destruct (Ascii.eqb a "."); [now right|exact IH].
Qed.

Lemma afterDots_shorter d p :
  In p (afterDots d) -> (String.length p < String.length d)%nat.
Proof.
  induction d as [|a d IH]; simpl; [tauto|].
  destruct (Ascii.eqb a ".").
  - intros [<-|Hin]; [lia|]. specialize (IH Hin). lia.
  - intros Hin. specialize (IH Hin). lia.
Qed.

Lemma afterDots_ne d p : In p (afterDots d) -> p <> d.
Proof. intros Hin ->. apply afterDots_shorter in Hin. lia. Qed.

Lemma firstFound_None_all {A} (f : A -> option string) l :
  firstFound f l = None -> forall a, In a l -> f a = None.
Proof.
  induction l as [|x l IH]; simpl; [tauto|].
  destruct (f x) eqn:E; [discriminate|]. intros H a [<-|Ha]; auto.
Qed.

Lemma firstFound_only (f : string -> option string) l x s :
  In x l -> f x = Some s -> (forall a, In a l -> a <> x -> f a = None) ->
  firstFound f l = Some s.
Proof.
  induction l as [|y l IH]; simpl; [tauto|]. intros Hin Hx Hother.
  destruct (String.eqb_spec y x) as [->|Hne]; [now rewrite Hx|].
  rewrite (Hother y) by auto.
  destruct Hin as [->|Hin]; [contradiction|]. apply IH; auto.
Qed.

Lemma search_not_found root d :
  found (search root d) = false ->
  stored root d = None /\ forall p, In p (afterDots d) -> stored root p = None.
Proof.
  rewrite search_spec.
  destruct (stored root d); [discriminate|].
  destruct (firstFound (stored root) (afterDots d)) eqn:E; [discriminate|].
  intros _. split; [reflexivity|]. now apply firstFound_None_all.
Qed.

End ParentDomainFacts.

(* --------------------------------------------------------------------- *)
(** ** The index the facade builds *)
(* --------------------------------------------------------------------- *)

Module BuildFacts.
Import Js Trie TrieIndex MapFacts SearchFacts Checker ParentFacts DomainFacts
  ParentDomainFacts SplitAgreeFacts DisposableEmailChecker Types.

Lemma stored_fold_insert src l root d :
  stored (fold_left (fun t x => TrieIndex.insert t x src) l root) d
  = if bool_decide (d ∈ l) then Some src else stored root d.
Proof.
  revert root. induction l as [|x l IH]; intros root; simpl; [reflexivity|].
  rewrite IH. destruct (decide (d ∈ l)) as [Hin|Hnin].
  - rewrite !bool_decide_eq_true_2; [reflexivity| |exact Hin]. now right.
  - rewrite (bool_decide_eq_false_2 (d ∈ l)) by exact Hnin.
    destruct (decide (d = x)) as [->|Hne].
    + rewrite stored_insert_same, bool_decide_eq_true_2; [reflexivity|]. now left.
    + rewrite stored_insert_other by exact Hne.
      rewrite bool_decide_eq_false_2; [reflexivity|].
      intros Hc. apply elem_of_cons in Hc as [?|?]; contradiction.
Qed.

(** What the trie of [buildTrieIndex] records for a domain: the label of
    the last of the three loops that inserted it. *)
Lemma stored_buildTrieIndex data d :
  stored (buildTrieIndex data) d
  = if bool_decide (d ∈ blacklist data) then Some "blacklisted"%string
    else if bool_decide (d ∈ allowlist data) then Some "allowed"%string
    else if bool_decide (d ∈ disposableDomains data) then Some "disposable"%string
    else None.
Proof.
  unfold buildTrieIndex. rewrite !stored_fold_insert, stored_newNode. reflexivity.
Qed.

Lemma contains_fold_add l b x :
  ArrayBloomFilter.contains b x = true ->
  ArrayBloomFilter.contains (fold_left ArrayBloomFilter.add l b) x = true.
Proof. apply ArrayBloomFilterFacts.array_contains_addAll_mono. Qed.

Lemma contains_fold_add_in l b x :
  ArrayBloomFilter.wf b -> x ∈ l ->
  ArrayBloomFilter.contains (fold_left ArrayBloomFilter.add l b) x = true.
Proof.
  revert b. induction l as [|y l IH]; intros b Hwf Hin; [now apply elem_of_nil in Hin|].
  simpl. apply elem_of_cons in Hin as [->|Hin].
  - apply contains_fold_add. now apply ArrayBloomFilterFacts.array_contains_add.
  - apply IH; [|exact Hin]. now apply ArrayBloomFilterFacts.array_wf_add.
Qed.

End BuildFacts.

(* --------------------------------------------------------------------- *)
(** ** The node pool *)
(* --------------------------------------------------------------------- *)

Module PoolFacts.
Import Js Trie PooledTrieIndex TrieFacts.

(** Induction on a trie: a property of every child gives it for the node. *)
Lemma TrieNode_forall_ind (P : TrieNode -> Prop) :
  (forall ch e src, Forall (fun p => P (snd p)) ch -> P (Node ch e src)) ->
  forall n, P n.
Proof.
  intros H. fix IH 1. intros [ch e src]. apply H.
  induction ch as [|[k c] ch IHch]; constructor; [apply IH|exact IHch].
Qed.

Lemma clearNode_unfold ch e src pool :
  clearNode (Node ch e src) pool
  = fold_left (fun pool' p =>
                 returnNodeToPool (Node [] (isEndOfDomain (snd p)) (source (snd p)))
                                  (clearNode (snd p) pool'))
              ch pool.
Proof.
  cbn [clearNode]. revert pool.
  induction ch as [|[k c] ch IH]; intros pool; [reflexivity|]. simpl. now rewrite <- IH.
Qed.

Lemma length_returnNodeToPool node pool :
  Z.of_nat (length (returnNodeToPool node pool))
  = Z.max (Z.of_nat (length pool)) (Z.min 10000 (Z.of_nat (length pool) + 1)).
Proof.
  unfold returnNodeToPool.
  destruct (Z.ltb_spec (Z.of_nat (length pool)) 10000); simpl length; lia.
Qed.

(** [clearNode] offers every node below [node] to the pool, which takes
    them until it holds 10000. *)
Lemma length_clearNode node :
  forall pool,
    Z.of_nat (length (clearNode node pool))
    = Z.max (Z.of_nat (length pool))
            (Z.min 10000 (Z.of_nat (length pool) + (Z.of_nat (nodeCount node) - 1))).
Proof.
  induction node as [ch e src IH] using TrieNode_forall_ind. intros pool.
  rewrite clearNode_unfold, nodeCount_unfold. unfold sumNodes.
  replace (Z.of_nat (S (list_sum (map (fun p => nodeCount (snd p)) ch))) - 1)
    with (Z.of_nat (list_sum (map (fun p => nodeCount (snd p)) ch))) by lia.
  revert pool. induction ch as [|[k c] ch IHch]; intros pool; simpl; [lia|].
  inversion IH as [|? ? Hc Hch]; subst. simpl in Hc.
  rewrite IHch by exact Hch. rewrite length_returnNodeToPool, Hc.
  assert (1 <= Z.of_nat (nodeCount c)) by (destruct c; simpl; lia).
  lia.
Qed.

End PoolFacts.

(* --------------------------------------------------------------------- *)
(** ** Pooled trie: [has] after a sequence of [insert] calls *)
(* --------------------------------------------------------------------- *)

Module PooledHasFacts.
Import Js Trie TrieIndex MapFacts SearchFacts Checker ParentFacts DomainFacts
  ParentDomainFacts SplitAgreeFacts PooledTrieIndex PathFacts.

Lemma has_stored root d :
  leadingDot d = false ->
  has root d = Some (bool_decide (is_Some (stored root d))).
Proof.
  intros Hld. unfold has. rewrite splitDomainReverse_reverseParts by exact Hld. simpl.
  f_equal. rewrite hasParts_nodeAt. unfold stored, terminalAt.
  destruct (nodeAt (TrieIndex.reverseParts d) root) as [c|]; [|reflexivity].
  destruct (isEndOfDomain c); reflexivity.
Qed.

Lemma insertAll_stored entries :
  Forall (fun e => leadingDot (fst e) = false) entries ->
  forall root pool, exists root' pool',
    insertAll root pool entries = Some (root', pool') /\
    forall d, is_Some (stored root' d) <-> In d (map fst entries) \/ is_Some (stored root d).
Proof.
  induction 1 as [|[x src] entries Hx Hall IH]; intros root pool.
  - exists root, pool. split; [reflexivity|]. simpl. tauto.
  - simpl in Hx. cbn [insertAll]. unfold insert at 1.
    rewrite splitDomainReverse_reverseParts by exact Hx. simpl.
    pose proof (pooled_insertParts (TrieIndex.reverseParts x) src root pool) as Hp.
    destruct (insertParts (TrieIndex.reverseParts x) src root pool) as [root1 pool1].
    simpl in Hp. destruct (IH root1 pool1) as (root' & pool' & Hins & Hst).
    exists root', pool'. split; [exact Hins|]. intros d. rewrite Hst. subst root1.
    change (TrieIndex.insertParts (TrieIndex.reverseParts x) src root)
      with (TrieIndex.insert root x src).
    simpl. destruct (decide (d = x)) as [->|Hne].
    + rewrite stored_insert_same. split; [auto|]. intros _. right. eauto.
    + rewrite stored_insert_other by exact Hne. split; [tauto|].
      intros [[Hc|Hin]|Hs]; auto. congruence.
Qed.

End PooledHasFacts.

(* --------------------------------------------------------------------- *)
(** ** The LRU cache: size, keys and [cleanup] *)
(* --------------------------------------------------------------------- *)

Module MemoryCacheFacts.
Import Js Types MapFacts MemoryCache.

Section WithValues.
Context {V : Type}.
Implicit Types (m : list (string * V)) (k : string) (v : V).

Lemma length_mapDelete k m : (length (mapDelete k m) <= length m)%nat.
Proof.
  induction m as [|[k0 v0] m IH]; simpl; [lia|].
  destruct (String.eqb k0 k); simpl; lia.
Qed.

Lemma length_mapDelete_present k m :
  is_Some (mapGet k m) -> S (length (mapDelete k m)) = length m.
Proof.
  induction m as [|[k0 v0] m IH]; simpl; intros [v Hv]; [discriminate|].
  destruct (String.eqb k0 k); simpl; [reflexivity|]. rewrite IH; eauto.
Qed.

Lemma length_mapSet k v m : (length (mapSet k v m) <= S (length m))%nat.
Proof.
  induction m as [|[k0 v0] m IH]; simpl; [lia|].
  destruct (String.eqb k0 k); simpl; lia.
Qed.

Lemma keys_mapDelete_sub k m x : In x (map fst (mapDelete k m)) -> In x (map fst m).
Proof.
  induction m as [|[k0 v0] m IH]; simpl; [tauto|].
  destruct (String.eqb k0 k); simpl; [tauto|]. intros [H|H]; auto.
Qed.

Lemma NoDup_keys_mapDelete k m : NoDup (map fst m) -> NoDup (map fst (mapDelete k m)).
Proof.
  induction m as [|[k0 v0] m IH]; simpl; intros Hnd; [exact Hnd|].
  apply NoDup_cons in Hnd as [Hnin Hnd].
  destruct (String.eqb k0 k); simpl; [exact Hnd|].
  apply NoDup_cons. split; [|now apply IH].
  rewrite list_elem_of_In in *. intros Hin. apply Hnin. now apply keys_mapDelete_sub in Hin.
Qed.

Lemma mapGet_mapDelete_same k m : NoDup (map fst m) -> mapGet k (mapDelete k m) = None.
Proof.
  induction m as [|[k0 v0] m IH]; simpl; intros Hnd; [reflexivity|].
  apply NoDup_cons in Hnd as [Hnin Hnd].
  destruct (String.eqb_spec k0 k) as [->|Hne].
  - destruct (mapGet k m) as [v|] eqn:E; [|reflexivity].
    exfalso. apply Hnin. apply list_elem_of_In.
    apply mapGet_Some_in in E. apply in_map_iff. now exists (k, v).
  - simpl. apply String.eqb_neq in Hne. rewrite Hne. now apply IH.
Qed.

Lemma mapDelete_app_absent k v pre rest :
  ~ In k (map fst pre) -> mapDelete k (pre ++ (k, v) :: rest) = pre ++ rest.
Proof.
  induction pre as [|[k0 v0] pre IH]; simpl; intros Hnin.
  - now rewrite String.eqb_refl.
  - destruct (String.eqb_spec k0 k) as [->|Hne]; [tauto|]. rewrite IH; tauto.
Qed.

End WithValues.

(** The loop of [cleanup] on a map with distinct keys keeps the entries
    that are not stale, in their order, and counts the others. *)
Lemma cleanup_loop now threshold l :
  forall pre n,
    NoDup (map fst (pre ++ l)) ->
    fold_left
      (fun (acc : Z * list (string * CacheEntry)) (p : string * CacheEntry) =>
         let '(removedCount, m) := acc in
         let '(key, entry) := p in
         if negb (ttl entry =? 0) && (threshold <? now - timestamp entry)
         then (removedCount + 1, mapDelete key m)
         else (removedCount, m))
      l (n, pre ++ l)
    = (n + Z.of_nat (length (List.filter (stale now threshold) l)),
       pre ++ List.filter (fun p => negb (stale now threshold p)) l).
Proof.
  induction l as [|[k e] l IH]; intros pre n Hnd; simpl.
  - f_equal. lia.
  - change (negb (ttl e =? 0) && (threshold <? now - timestamp e))
      with (stale now threshold (k, e)).
    destruct (stale now threshold (k, e)) eqn:E; simpl.
    + rewrite mapDelete_app_absent.
      * rewrite IH.
        -- f_equal. lia.
        -- rewrite map_app in *. simpl in Hnd.
           apply NoDup_app in Hnd as (H1 & H2 & H3). apply NoDup_cons in H3 as [_ H3].
           apply NoDup_app. split; [exact H1|]. split; [|exact H3].
           intros x Hx Hin. apply (H2 x Hx). now right.
      * rewrite map_app in Hnd. simpl in Hnd.
        apply NoDup_app in Hnd as (_ & H2 & _). intros Hin.
        apply (H2 k); [now apply list_elem_of_In|now left].
    + replace (pre ++ (k, e) :: l) with ((pre ++ [(k, e)]) ++ l)
        by now rewrite <- app_assoc.
      rewrite IH by (now rewrite <- app_assoc). now rewrite <- app_assoc.
Qed.

Lemma cleanup_spec now c ttlMs :
  NoDup (map fst (cache c)) ->
  let threshold := orDefault ttlMs (defaultTtl c) in
  cleanup now c ttlMs
  = (Z.of_nat (length (List.filter (stale now threshold) (cache c))),
     Build (List.filter (fun p => negb (stale now threshold p)) (cache c))
           (maxSize c) (defaultTtl c)).
Proof.
  intros Hnd threshold. unfold cleanup. fold threshold.
  pose proof (cleanup_loop now threshold (cache c) [] 0 Hnd) as H. simpl in H.
  rewrite H. reflexivity.
Qed.

Lemma length_filter_le {A} (f : A -> bool) l : (length (List.filter f l) <= length l)%nat.
Proof. induction l as [|a l IH]; simpl; [lia|]. destruct (f a); simpl; lia. Qed.

Lemma NoDup_keys_filter {A} (f : string * A -> bool) l :
  NoDup (map fst l) -> NoDup (map fst (List.filter f l)).
Proof.
  induction l as [|a l IH]; simpl; intros Hnd; [exact Hnd|].
  apply NoDup_cons in Hnd as [Hnin Hnd]. destruct (f a); simpl; [|now apply IH].
  apply NoDup_cons. split; [|now apply IH].
  rewrite list_elem_of_In in *. intros Hin. apply Hnin.
  apply in_map_iff in Hin as (x & Hx & Hin). apply filter_In in Hin as [Hin _].
  apply in_map_iff. eauto.
Qed.

Lemma bounded_new a b : bounded (new a b).
Proof. split; simpl; [constructor|lia]. Qed.

Lemma bounded_after c call : bounded c -> bounded (after c call).
Proof.
  intros Hinv. pose proof Hinv as [Hnd Hsz].
  destruct call as [now key|now key r ttlArg|key| |now ttlMs]; simpl.
  - unfold get. destruct (mapGet key (cache c)) as [entry|] eqn:Hg; [|exact Hinv].
    pose proof (length_mapDelete_present key (cache c) (ltac:(eauto))) as Hl.
    destruct (negb (ttl entry =? 0) && (ttl entry <? now - timestamp entry));
      split; simpl.
    + now apply NoDup_keys_mapDelete.
    + lia.
    + now apply NoDup_keys_mapSet, NoDup_keys_mapDelete.
    + pose proof (length_mapSet key
                    (mkEntry (result entry) (timestamp entry) (hitCount entry + 1) (ttl entry))
                    (mapDelete key (cache c))). lia.
  - unfold set.
    destruct (Z.leb_spec (maxSize c) (Z.of_nat (length (cache c)))) as [Hfull|Hroom].
    + destruct (cache c) as [|[oldestKey e0] rest] eqn:Hc; [exact Hinv|].
      destruct (String.eqb oldestKey "") eqn:Ho; [exact Hinv|]. split; simpl.
      * apply NoDup_keys_mapSet. rewrite String.eqb_refl.
        simpl in Hnd. now apply NoDup_cons in Hnd as [_ Hnd].
      * rewrite String.eqb_refl.
        pose proof (length_mapSet key
                      (mkEntry r now 0 (orDefault ttlArg (defaultTtl c))) rest).
        simpl in Hsz, Hfull. lia.
    + split; simpl; [now apply NoDup_keys_mapSet|].
      pose proof (length_mapSet key
                    (mkEntry r now 0 (orDefault ttlArg (defaultTtl c))) (cache c)). lia.
  - split; simpl; [now apply NoDup_keys_mapDelete|].
    pose proof (length_mapDelete key (cache c)). lia.
  - split; simpl; [constructor|lia].
  - rewrite cleanup_spec by exact Hnd. split; simpl.
    + now apply NoDup_keys_filter.
    + pose proof (length_filter_le
                    (fun p => negb (stale now (orDefault ttlMs (defaultTtl c)) p))
                    (cache c)). lia.
Qed.

Lemma maxSize_after c call : maxSize (after c call) = maxSize c.
Proof.
  destruct call as [now key|now key r ttlArg|key| |now ttlMs]; simpl; try reflexivity.
  - unfold get. destruct (mapGet key (cache c)) as [entry|]; [|reflexivity].
    now destruct (negb (ttl entry =? 0) && (ttl entry <? now - timestamp entry)).
  - unfold set. destruct (maxSize c <=? Z.of_nat (length (cache c))); [|reflexivity].
    destruct (cache c) as [|[oldestKey e0] rest]; [reflexivity|].
    now destruct (String.eqb oldestKey "").
  - unfold cleanup. now destruct (fold_left _ _ _).
Qed.

Lemma bounded_run calls c : bounded c -> bounded (fold_left after calls c).
Proof.
  revert c. induction calls as [|call calls IH]; intros c Hc; [exact Hc|].
  simpl. apply IH. now apply bounded_after.
Qed.

Lemma maxSize_run calls c : maxSize (fold_left after calls c) = maxSize c.
Proof.
  revert c. induction calls as [|call calls IH]; intros c; [reflexivity|].
  simpl. now rewrite IH, maxSize_after.
Qed.

End MemoryCacheFacts.

(* --------------------------------------------------------------------- *)
(** ** The LRU cache: order of eviction *)
(* --------------------------------------------------------------------- *)

Module LruFacts.
Import Js Types MapFacts MemoryCache MemoryCacheFacts.

(** After a hit on [key], the entry of [key] is the newest: with another
    entry in the cache, the oldest key is a different one. *)
Lemma get_hit_moves_last now c key r :
  NoDup (map fst (cache c)) -> (2 <= length (cache c))%nat ->
  fst (get now c key) = Some r ->
  is_Some (mapGet key (cache (snd (get now c key)))) /\
  exists k0 e0 rest, cache (snd (get now c key)) = (k0, e0) :: rest /\ k0 <> key.
Proof.
  intros Hnd Hlen. unfold get.
  destruct (mapGet key (cache c)) as [entry|] eqn:Hg; [|discriminate].
  destruct (negb (ttl entry =? 0) && (ttl entry <? now - timestamp entry));
    [discriminate|]. simpl. intros _.
  split; [rewrite mapGet_mapSet_eq; eauto|].
  pose proof (length_mapDelete_present key (cache c) (ltac:(eauto))) as Hl.
  pose proof (mapGet_mapDelete_same key (cache c) Hnd) as Hgone.
  destruct (mapDelete key (cache c)) as [|[k0 e0] rest]; [simpl in Hl; lia|].
  simpl in Hgone. simpl.
  destruct (String.eqb_spec k0 key) as [->|Hne]; [discriminate|]. eauto.
Qed.

End LruFacts.

(* --------------------------------------------------------------------- *)
(** ** The domain cache of [DomainChecker] *)
(* --------------------------------------------------------------------- *)

Module DomainCacheFacts.
Import Js Types Checker DomainChecker MapFacts MemoryCacheFacts.

(** The disposable check reads neither the allow list nor the blacklist. *)
Lemma performDisposableCheck_withLists cfg allow black domain :
  performDisposableCheck (withLists cfg allow black) domain
  = performDisposableCheck cfg domain.
Proof. reflexivity. Qed.

Lemma cacheInv_new cfg : cacheInv cfg (mkState cfg []).
Proof. split; [reflexivity|]. split; [simpl; unfold CACHE_SIZE_LIMIT; lia|intros ? ? []]. Qed.

Lemma cacheInv_delete cfg st cfg' d :
  cacheInv cfg st ->
  (forall domain, performDisposableCheck cfg' domain
                  = performDisposableCheck (config st) domain) ->
  cacheInv cfg (mkState cfg' (mapDelete d (cached st))).
Proof.
  intros (Hcfg & Hsz & Hs) Hsame. split; [|split]; simpl.
  - intros domain. now rewrite Hsame.
  - pose proof (length_mapDelete d (cached st)). lia.
  - intros domain r Hin. apply Hs. eapply in_mapDelete; eauto.
Qed.

Lemma cacheInv_after cfg st call : cacheInv cfg st -> cacheInv cfg (after st call).
Proof.
  intros Hinv. destruct call as [dom|dom|dom|dom|dom|]; simpl;
    try (apply cacheInv_delete; [exact Hinv|reflexivity]).
  - destruct Hinv as (Hcfg & Hsz & Hs). unfold checkDisposableDomain.
    destruct (mapGet dom (cached st)) as [hit|] eqn:Hg; [now split|].
    split; [exact Hcfg|]. simpl. unfold CACHE_SIZE_LIMIT in *.
    destruct (Z.leb_spec 5000 (Z.of_nat (length (cached st)))) as [Hfull|Hroom].
    + destruct (cached st) as [|[firstKey r0] rest] eqn:Hc; [simpl in Hfull; lia|].
      split.
      * simpl. rewrite String.eqb_refl.
        pose proof (length_mapSet dom (performDisposableCheck (config st) dom) rest).
        simpl in Hsz. lia.
      * intros d r Hin. apply in_mapSet in Hin as [[= -> ->]|Hin]; [apply Hcfg|].
        apply Hs. eapply in_mapDelete; eauto.
    + split.
      * pose proof (length_mapSet dom (performDisposableCheck (config st) dom)
                      (cached st)). lia.
      * intros d r Hin. apply in_mapSet in Hin as [[= -> ->]|Hin]; [apply Hcfg|].
        now apply Hs.
  - destruct Hinv as (Hcfg & Hsz & Hs). split; [exact Hcfg|].
    split; [simpl; unfold CACHE_SIZE_LIMIT; lia|intros ? ? []].
Qed.

Lemma cacheInv_run cfg calls st :
  cacheInv cfg st -> cacheInv cfg (fold_left after calls st).
Proof.
  revert st. induction calls as [|call calls IH]; intros st H; [exact H|].
  simpl. apply IH. now apply cacheInv_after.
Qed.

End DomainCacheFacts.

(* --------------------------------------------------------------------- *)
(** ** Regular expressions: [test] decides the words *)
(* --------------------------------------------------------------------- *)

Module RegexFacts.
Import Regex.

#[local] Open Scope string_scope.

Lemma append_cons a (s t : string) : String a s ++ t = String a (s ++ t).
Proof. reflexivity. Qed.

Lemma append_nil_r (s : string) : s ++ "" = s.
Proof. induction s as [|a s IH]; [reflexivity|]. now rewrite append_cons, IH. Qed.

Lemma append_assoc (s1 s2 s3 : string) : (s1 ++ s2) ++ s3 = s1 ++ (s2 ++ s3).
Proof. induction s1 as [|a s1 IH]; [reflexivity|]. now rewrite !append_cons, IH. Qed.

Lemma chars_append (a b : string) :
  list_ascii_of_string (a ++ b) = (list_ascii_of_string a ++ list_ascii_of_string b)%list.
Proof. induction a as [|x a IH]; [reflexivity|]. rewrite append_cons. simpl. now rewrite IH. Qed.

Lemma matches_void s : ~ matches Void s.
Proof. intros H. inversion H. Qed.

Lemma matches_eps_inv s : matches Eps s -> s = "".
Proof. intros H. now inversion H. Qed.

Lemma matches_cat_inv r1 r2 s :
  matches (Cat r1 r2) s -> exists s1 s2, s = s1 ++ s2 /\ matches r1 s1 /\ matches r2 s2.
Proof. intros H. inversion H; subst. eauto. Qed.

Lemma matches_alt_inv r1 r2 s : matches (Alt r1 r2) s -> matches r1 s \/ matches r2 s.
Proof. intros H. inversion H; subst; auto. Qed.

Lemma append_eq_nil (s1 s2 : string) : s1 ++ s2 = "" -> s1 = "" /\ s2 = "".
Proof. destruct s1; [now split|discriminate]. Qed.

Lemma nullable_matches r : nullable r = true <-> matches r "".
Proof.
  induction r as [| |p|r1 IH1 r2 IH2|r1 IH1 r2 IH2|r IH]; simpl.
  - split; [discriminate|]. intros H. inversion H.
  - split; [constructor|reflexivity].
  - split; [discriminate|]. intros H. inversion H.
  - rewrite andb_true_iff, IH1, IH2. split.
    + intros [H1 H2]. exact (matches_cat _ _ "" "" H1 H2).
    + intros H. apply matches_cat_inv in H as (s1 & s2 & Hs & H1 & H2).
      symmetry in Hs. apply append_eq_nil in Hs as [-> ->]. now split.
  - rewrite orb_true_iff, IH1, IH2. split.
    + intros [H|H]; [now apply matches_alt_l|now apply matches_alt_r].
    + apply matches_alt_inv.
  - split; [constructor|reflexivity].
Qed.

Lemma matches_cat_smart r1 r2 s : matches (cat r1 r2) s <-> matches (Cat r1 r2) s.
Proof.
  destruct r1, r2; simpl; split; intros H; try assumption; try (now inversion H);
    try (exact (matches_cat Eps _ "" _ matches_eps H));
    inversion H as [| |? ? ? ? H1 H2| | | |]; subst;
    try (now inversion H1); try (now inversion H2);
    apply matches_eps_inv in H1; subst; exact H2.
Qed.

Lemma matches_alt_smart r1 r2 s : matches (alt r1 r2) s <-> matches (Alt r1 r2) s.
Proof.
  destruct r1, r2; simpl; split; intros H; try assumption;
    try (now apply matches_alt_l); try (now apply matches_alt_r);
    inversion H as [| | |? ? ? H1|? ? ? H1| |]; subst;
    try assumption; now inversion H1.
Qed.

(** A word of [Star r] that starts with [c] starts with a word of [r]
    that starts with [c]. *)
Lemma matches_star_cons_inv r c s :
  matches (Star r) (String c s) ->
  exists s1 s2, s = s1 ++ s2 /\ matches r (String c s1) /\ matches (Star r) s2.
Proof.
  intros H. remember (Star r) as r' eqn:Hr. remember (String c s) as w eqn:Hw.
  revert s Hw.
  induction H as [| | | | | |r0 s1 s2 H1 _ H2 IH2]; intros w' Hw; try discriminate.
  injection Hr as ->. destruct s1 as [|a s1].
  - change (s2 = String c w') in Hw. now apply IH2.
  - rewrite append_cons in Hw. injection Hw as -> <-. eauto.
Qed.

Lemma deriv_matches r : forall c s, matches (deriv c r) s <-> matches r (String c s).
Proof.
  induction r as [| |p|r1 IH1 r2 IH2|r1 IH1 r2 IH2|r IH]; intros c s; simpl.
  - split; intros H; inversion H.
  - split; intros H; inversion H.
  - destruct (p c) eqn:E.
    + split.
      * intros H. apply matches_eps_inv in H. subst. now constructor.
      * intros H. inversion H; subst. constructor.
    + split; [intros H; inversion H|]. intros H. inversion H; subst. congruence.
  - rewrite matches_alt_smart. split.
    + intros H. apply matches_alt_inv in H as [H1|H1].
      * apply matches_cat_smart, matches_cat_inv in H1 as (s1 & s2 & -> & Ha & Hb).
        apply IH1 in Ha. exact (matches_cat _ _ (String c s1) s2 Ha Hb).
      * destruct (nullable r1) eqn:En; [|inversion H1].
        apply IH2 in H1. apply nullable_matches in En.
        exact (matches_cat _ _ "" _ En H1).
    + intros H. apply matches_cat_inv in H as (s1 & s2 & Hs & Ha & Hb).
      destruct s1 as [|a s1].
      * change (String c s = s2) in Hs. subst s2. apply matches_alt_r.
        apply nullable_matches in Ha. rewrite Ha. now apply IH2.
      * rewrite append_cons in Hs. injection Hs as <- ->.
        apply matches_alt_l, matches_cat_smart.
        apply matches_cat; [now apply IH1|exact Hb].
  - rewrite matches_alt_smart. split.
    + intros H. apply matches_alt_inv in H as [H|H];
        [apply matches_alt_l; now apply IH1|apply matches_alt_r; now apply IH2].
    + intros H. apply matches_alt_inv in H as [H|H];
        [apply matches_alt_l; now apply IH1|apply matches_alt_r; now apply IH2].
  - rewrite matches_cat_smart. split.
    + intros H. apply matches_cat_inv in H as (s1 & s2 & -> & Ha & Hb).
      apply IH in Ha. exact (matches_star_cons _ (String c s1) s2 Ha Hb).
    + intros H. apply matches_star_cons_inv in H as (s1 & s2 & -> & Ha & Hb).
      apply matches_cat; [now apply IH|exact Hb].
Qed.

(** [test] decides [matches]. *)
Lemma test_matches r s : test r s = true <-> matches r s.
Proof.
  revert r. induction s as [|c s IH]; intros r; simpl.
  - apply nullable_matches.
  - rewrite IH. apply deriv_matches.
Qed.

(** The characters of a word lie within the classes of the expression. *)
Lemma matches_within P r s :
  within P r -> matches r s -> forall c, In c (list_ascii_of_string s) -> P c.
Proof.
  intros Hw Hm. induction Hm as [|p a Hp|r1 r2 s1 s2 _ IH1 _ IH2|r1 r2 s _ IH|r1 r2 s _ IH|r
                                 |r s1 s2 _ IH1 _ IH2]; simpl in *; intros c Hin.
  - destruct Hin.
  - destruct Hin as [<-|[]]. now apply Hw.
  - rewrite chars_append in Hin. apply in_app_or in Hin as [Hin|Hin]; [apply IH1|apply IH2]; tauto.
  - apply IH; tauto.
  - apply IH; tauto.
  - destruct Hin.
  - rewrite chars_append in Hin. apply in_app_or in Hin as [Hin|Hin]; [apply IH1|apply IH2]; tauto.
Qed.

End RegexFacts.

(* --------------------------------------------------------------------- *)
(** ** The shape of an accepted e-mail address *)
(* --------------------------------------------------------------------- *)

Module EmailShapeFacts.
Import Js Regex RegexFacts EmailValidator DomainFacts.
#[local] Open Scope string_scope.

Lemma within_upTo P n r : within P r -> within P (upTo n r).
Proof. intros H. induction n as [|n IH]; simpl; auto. Qed.

Lemma hasChar_chars c s :
  (forall a, In a (list_ascii_of_string s) -> a <> c) -> hasChar c s = false.
Proof.
  induction s as [|a s IH]; simpl; intros H; [reflexivity|].
  rewrite IH by auto. destruct (Ascii.eqb_spec a c) as [->|]; [|reflexivity].
  exfalso. apply (H c); auto.
Qed.

Lemma alnum_not_at c : alnum c = true -> c <> "@"%char.
Proof. intros H ->. discriminate. Qed.

Lemma within_label P :
  (forall c, alnumHyphen c = true -> P c) -> within P label.
Proof.
  intros H. assert (forall c, alnum c = true -> P c) as Ha.
  { intros c Hc. apply H. unfold alnumHyphen. now rewrite Hc. }
  unfold label, opt. cbn [within].
  split; [exact Ha|]. split; [exact I|]. split; [|exact Ha].
  apply within_upTo. exact H.
Qed.

Lemma within_domainRegex P :
  (forall c, alnumHyphen c = true -> P c) -> P "."%char -> within P domainRegex.
Proof.
  intros H Hdot. unfold domainRegex. cbn [within]. split; [now apply within_label|].
  split; [|now apply within_label].
  intros c Hc. apply Ascii.eqb_eq in Hc. now subst.
Qed.

Lemma matches_chr a s : matches (chr a) s -> s = String a "".
Proof. intros H. inversion H as [|p c Hc| | | | |]; subst. apply Ascii.eqb_eq in Hc. now subst. Qed.

Lemma matches_class_inv p s : matches (Class p) s -> exists c, s = String c "" /\ p c = true.
Proof. intros H. inversion H; subst. eauto. Qed.

(** A word of [label] starts with a letter or a digit. *)
Lemma matches_label_first s :
  matches label s -> exists c rest, s = String c rest /\ alnum c = true.
Proof.
  intros H. apply matches_cat_inv in H as (s1 & s2 & -> & H1 & _).
  apply matches_class_inv in H1 as (c & -> & Hc). eauto.
Qed.

Lemma matches_domainRegex_first d :
  matches domainRegex d -> exists c rest, d = String c rest /\ alnum c = true.
Proof.
  intros H. apply matches_cat_inv in H as (s1 & s2 & -> & H1 & _).
  apply matches_label_first in H1 as (c & rest & -> & Hc). eauto.
Qed.

Lemma matches_domainRegex_no_at d : matches domainRegex d -> hasChar "@" d = false.
Proof.
  intros H. apply hasChar_chars.
  apply (matches_within (fun a => a <> "@"%char) domainRegex d); [|exact H].
  apply within_domainRegex; [|discriminate].
  intros c Hc ->. discriminate.
Qed.

(** [r+] is within [r*]. *)
Lemma matches_plus_star r s : matches (plus r) s -> matches (Star r) s.
Proof.
  intros H. apply matches_cat_inv in H as (s1 & s2 & -> & H1 & H2).
  now apply matches_star_cons.
Qed.

(** What both regular expressions accept: a non-empty local part without
    "@", one "@", and a word of [domainRegex]. *)
Lemma email_shape strict s :
  test (if strict : bool then strictEmailRegex else emailRegex) s = true ->
  exists l d, s = l ++ "@" ++ d /\ l <> "" /\ hasChar "@" l = false /\
              matches domainRegex d.
Proof.
  intros H. apply test_matches in H. destruct strict.
  - apply matches_cat_inv in H as (l & s2 & -> & Hl & H2).
    apply matches_cat_inv in H2 as (a & d & -> & Ha & Hd).
    apply matches_chr in Ha. subst a. exists l, d. split; [reflexivity|].
    split; [|split].
    + apply matches_cat_inv in Hl as (x & y & -> & Hx & _).
      apply matches_class_inv in Hx as (c & -> & _). discriminate.
    + apply hasChar_chars.
      refine (matches_within (fun a => a <> "@"%char) _ l _ Hl).
      unfold opt. cbn [within].
      split; [apply alnum_not_at|]. split; [exact I|]. split; [|apply alnum_not_at].
      intros c Hc ->. discriminate.
    + apply matches_cat_inv in Hd as (x & y & -> & Hx & Hy).
      apply matches_cat; [exact Hx|now apply matches_plus_star].
  - apply matches_cat_inv in H as (l & s2 & -> & Hl & H2).
    apply matches_cat_inv in H2 as (a & d & -> & Ha & Hd).
    apply matches_chr in Ha. subst a. exists l, d. split; [reflexivity|].
    split; [|split; [|exact Hd]].
    + apply matches_cat_inv in Hl as (x & y & -> & Hx & _).
      apply matches_class_inv in Hx as (c & -> & _). discriminate.
    + apply hasChar_chars.
      refine (matches_within (fun a => a <> "@"%char) _ l _ Hl).
      unfold plus. cbn [within]. split; intros c Hc ->; discriminate.
Qed.

(** Strings around one separator. *)
Lemma split_around c l d :
  hasChar c l = false -> hasChar c d = false ->
  split c (l ++ String c d) = [l; d].
Proof. intros Hl Hd. now rewrite split_append, split_no_sep. Qed.

Lemma findChar_append c l d i :
  hasChar c l = false ->
  findChar c (l ++ String c d) i = Some (i + String.length l)%nat.
Proof.
  revert i. induction l as [|a l IH]; intros i H.
  - simpl. rewrite Ascii.eqb_refl. f_equal. lia.
  - simpl in H. apply orb_false_iff in H as [Ha Hl].
    rewrite append_cons. simpl. rewrite Ha, IH by exact Hl. f_equal. simpl. lia.
Qed.

Lemma findChar_absent c s i : hasChar c s = false -> findChar c s i = None.
Proof.
  revert i. induction s as [|a s IH]; intros i H; [reflexivity|].
  simpl in *. apply orb_false_iff in H as [Ha Hs]. now rewrite Ha, IH.
Qed.

Lemma dropChars_append l d : dropChars (String.length l) (l ++ d) = d.
Proof. induction l as [|a l IH]; [reflexivity|]. rewrite append_cons. exact IH. Qed.

Lemma takeChars_append l d : takeChars (String.length l) (l ++ d) = l.
Proof.
  induction l as [|a l IH]; [now destruct d|]. rewrite append_cons. simpl. now rewrite IH.
Qed.

Lemma length_append (l d : string) :
  String.length (l ++ d) = (String.length l + String.length d)%nat.
Proof. induction l as [|a l IH]; [reflexivity|]. rewrite append_cons. simpl. now rewrite IH. Qed.

Lemma toLowerCase_append l d : toLowerCase (l ++ d) = toLowerCase l ++ toLowerCase d.
Proof.
  induction l as [|a l IH]; [reflexivity|]. rewrite append_cons. simpl.
  now rewrite IH, append_cons.
Qed.

Lemma hasChar_toLowerCase_at s : hasChar "@" (toLowerCase s) = hasChar "@" s.
Proof.
  induction s as [|a s IH]; [reflexivity|]. simpl.
  now rewrite FacadeFacts.lowerChar_at, IH.
Qed.

End EmailShapeFacts.

(* --------------------------------------------------------------------- *)
(** ** The two validators on an address of the accepted shape *)
(* --------------------------------------------------------------------- *)

Module ValidatorFacts.
Import Js Regex RegexFacts EmailValidator DomainFacts EmailShapeFacts.

Lemma shape_of_test strict email :
  test (if strict : bool then strictEmailRegex else emailRegex) email = true ->
  exists l d, Shape email l d.
Proof.
  intros H. apply email_shape in H as (l & d & -> & Hl & Hla & Hd).
  exists l, d. split; auto. now apply matches_domainRegex_no_at.
Qed.

Lemma shape_split email l d : Shape email l d -> split "@" email = [l; d].
Proof. intros [-> _ Hl _ Hd]. now apply split_around. Qed.

Lemma shape_len email l d :
  Shape email l d -> len email = len l + 1 + len d /\ 1 <= len l /\ 1 <= len d.
Proof.
  intros [-> Hl _ Hd _]. unfold len. rewrite length_append. simpl.
  apply matches_domainRegex_first in Hd as (c & rest & -> & _).
  destruct l; [contradiction|]. simpl. lia.
Qed.

Lemma shape_indexOf email l d :
  Shape email l d ->
  indexOf email "@" 0 = len l /\
  indexOf email "@" (len l + 1) = -1 /\
  slice email 0 (len l) = l /\
  sliceFrom email (len l + 1) = d.
Proof.
  intros [-> _ Hl _ Hd]. unfold indexOf, slice, sliceFrom, len.
  split; [|split; [|split]].
  - simpl. rewrite findChar_append by exact Hl. reflexivity.
  - replace (Z.to_nat (Z.of_nat (String.length l) + 1)) with (S (String.length l)) by lia.
    assert (dropChars (S (String.length l)) (l ++ String "@" d)%string = d) as ->.
    { replace (S (String.length l)) with (String.length l + 1)%nat by lia.
      rewrite <- ParentFacts.dropChars_add, dropChars_append. reflexivity. }
    now rewrite findChar_absent.
  - simpl. rewrite Z.sub_0_r, Nat2Z.id. apply takeChars_append.
  - replace (Z.to_nat (Z.of_nat (String.length l) + 1)) with (String.length l + 1)%nat by lia.
    rewrite <- ParentFacts.dropChars_add, dropChars_append. reflexivity.
Qed.

Lemma simple_on_shape strict email l d :
  test (if strict : bool then strictEmailRegex else emailRegex) email = true ->
  Shape email l d ->
  validateEmailFormat strict email
  = if 254 <? len email
    then inr (false, ["Email address too long (max 254 characters)"%string])
    else if 64 <? len l
    then inr (false, ["Local part too long (max 64 characters)"%string])
    else if 253 <? len d
    then inr (false, ["Domain too long (max 253 characters)"%string])
    else inr (true, []).
Proof.
  intros Ht Hs. unfold validateEmailFormat. rewrite Ht. simpl.
  now rewrite (shape_split _ _ _ Hs).
Qed.

Lemma fast_on_shape strict email l d :
  test (if strict : bool then strictEmailRegex else emailRegex) email = true ->
  Shape email l d ->
  FastEmailValidator.validateEmailFormat strict email
  = if 254 <? len email
    then (false, ["Email address too long (max 254 characters)"%string])
    else if 64 <? len l
    then (false, ["Local part too long (max 64 characters)"%string])
    else if 253 <? len d
    then (false, ["Domain too long (max 253 characters)"%string])
    else (true, []).
Proof.
  intros Ht Hs. unfold FastEmailValidator.validateEmailFormat.
  destruct (shape_indexOf _ _ _ Hs) as (Hi & Hi2 & Hsl & Hsf).
  destruct (shape_len _ _ _ Hs) as (Hlen & Hl1 & Hd1).
  rewrite Hi, Hi2, Hsl, Hsf, Ht.
  destruct (Z.eqb_spec (len l) (-1)); [lia|].
  destruct (Z.eqb_spec (len l) 0); [lia|].
  destruct (Z.eqb_spec (len l) (len email - 1)); [lia|]. reflexivity.
Qed.

Lemma fast_without_test strict email :
  test (if strict : bool then strictEmailRegex else emailRegex) email = false ->
  fst (FastEmailValidator.validateEmailFormat strict email) = false.
Proof.
  intros Ht. unfold FastEmailValidator.validateEmailFormat. rewrite Ht.
  change (negb false) with true. cbv iota.
  repeat match goal with |- context [if ?b then _ else _] => destruct b end; reflexivity.
Qed.

End ValidatorFacts.

(* --------------------------------------------------------------------- *)
(** ** Bloom filters without a bit set *)
(* --------------------------------------------------------------------- *)

Module ClearFacts.

Lemma forallb_const_false {A} (l : list A) : forallb (fun _ => false) l = Nat.eqb (length l) 0.
Proof. destruct l; reflexivity. Qed.

Lemma forallb_all_false {A} (f : A -> bool) (l : list A) :
  (forall a, f a = false) -> forallb f l = Nat.eqb (length l) 0.
Proof. intros H. destruct l as [|a l]; simpl; [reflexivity|]. now rewrite H. Qed.

Lemma testBit_zeros arr i :
  (forall n byte, arr !! n = Some byte -> byte = 0) -> BloomFilter.testBit arr i = false.
Proof.
  intros H. rewrite BloomFilterFacts.testBit_spec.
  destruct (arr !! Z.to_nat (i / BloomFilter.bitsPerByte)) as [byte|] eqn:E; [|reflexivity].
  rewrite (H _ _ E). apply Z.bits_0.
Qed.

Lemma isSet_falses arr i :
  (forall n bit, arr !! n = Some bit -> bit = false) -> ArrayBloomFilter.isSet arr i = false.
Proof.
  intros H. unfold ArrayBloomFilter.isSet.
  destruct (arr !! Z.to_nat i) as [bit|] eqn:E; [|reflexivity]. simpl. now apply (H _ _ E).
Qed.

Lemma length_bitIndices b item :
  length (BloomFilter.bitIndices b item) = BloomFilter.numHashFunctions b.
Proof.
  unfold BloomFilter.bitIndices, BloomFilter.hashSeeds, BloomFilter.generateHashSeeds.
  now rewrite !length_map, length_seq.
Qed.

Lemma length_indices b item :
  length (ArrayBloomFilter.indices b item) = ArrayBloomFilter.numHashFunctions b.
Proof. unfold ArrayBloomFilter.indices. now rewrite length_map, length_seq. Qed.

End ClearFacts.

(* --------------------------------------------------------------------- *)
(** ** [pendingOperations] and the calls in flight *)
(* --------------------------------------------------------------------- *)

Module PendingFacts.
Import Js Types MapFacts CacheManager CacheManagerFacts MemoryCacheFacts.

Lemma keys_mapDelete_split {V} k (m : list (string * V)) a b :
  map fst m = a ++ k :: b -> ~ In k a -> map fst (mapDelete k m) = a ++ b.
Proof.
  revert a. induction m as [|[k0 v0] m IH]; intros a Hm Hnin; simpl in *.
  - destruct a; discriminate.
  - destruct a as [|x a]; simpl in Hm; injection Hm as -> Hm.
    + now rewrite String.eqb_refl.
    + destruct (String.eqb_spec x k) as [->|Hne]; [exfalso; apply Hnin; now left|].
      simpl. f_equal. apply IH; [exact Hm|]. intros Hin. apply Hnin. now right.
Qed.

(** [pendingOperations] holds one promise for each call that created it
    and has not yet run its [finally], in the order of the calls. *)
Lemma pending_keys_step s e :
  consistent s ->
  map fst (pendingOperations s) = ownerKeys (suspended s) ->
  map fst (pendingOperations (step s e)) = ownerKeys (suspended (step s e)).
Proof.
  intros Hc HJ. destruct e as [email|p o|c]; simpl.
  - unfold invoke. destruct (mapGet email (pendingOperations s)) eqn:Hp; simpl.
    + rewrite ownerKeys_app. unfold ownerKeys at 2. simpl. now rewrite app_nil_r.
    + rewrite keys_mapSet_absent by exact Hp. rewrite ownerKeys_app, HJ. reflexivity.
  - unfold backendSettles. now destruct (existsb _ _ && negb _).
  - unfold resume. destruct (findCall c (suspended s)) as [call|] eqn:Hf; [|exact HJ].
    destruct (settledValue (awaited call) (settled s)); [|exact HJ]. simpl.
    destruct (removeCall_split _ _ _ Hf) as (l1 & l2 & Hl & ->).
    destruct Hc as (_ & _ & _ & Hnd). rewrite Hl in HJ, Hnd.
    rewrite ownerKeys_app in *.
    change (call :: l2) with ([call] ++ l2) in HJ, Hnd. rewrite ownerKeys_app in *.
    unfold ownerKeys in HJ at 2. unfold ownerKeys in Hnd at 2. simpl in HJ, Hnd.
    destruct (owner call); simpl in HJ, Hnd.
    + apply (keys_mapDelete_split _ _ _ _ HJ).
      apply NoDup_app in Hnd as (_ & Hdis & _). intros Hin.
      apply (Hdis (callKey call)); [now apply list_elem_of_In|]. now left.
    + exact HJ.
Qed.

Lemma pending_keys_run schedule s :
  consistent s ->
  map fst (pendingOperations s) = ownerKeys (suspended s) ->
  map fst (pendingOperations (run s schedule)) = ownerKeys (suspended (run s schedule)).
Proof.
  revert s. induction schedule as [|e schedule IH]; intros s Hc HJ; [exact HJ|].
  simpl. apply IH; [now apply consistent_step|now apply pending_keys_step].
Qed.

End PendingFacts.

(* --------------------------------------------------------------------- *)
(** ** Counting results *)
(* --------------------------------------------------------------------- *)

Module ReportFacts.
Import Types AnalyticsEngine.

Lemma count_cons f r results : count f (r :: results) = (if f r then 1 else 0) + count f results.
Proof. unfold count. simpl. destruct (f r); simpl; lia. Qed.

Lemma count_nonneg f results : 0 <= count f results.
Proof. unfold count. lia. Qed.

End ReportFacts.

(* --------------------------------------------------------------------- *)
(** ** Pattern scores *)
(* --------------------------------------------------------------------- *)

Module ScoreFacts.
Import EmailValidator.

(** A loop over patterns adds points and warnings together. *)
Lemma scorePatterns_spec points label patterns email acc :
  0 < points ->
  let acc' := scorePatterns points label patterns email acc in
  fst acc <= fst acc' /\
  (length (snd acc) <= length (snd acc'))%nat /\
  (fst acc < fst acc' <-> (length (snd acc) < length (snd acc'))%nat).
Proof.
  intros Hp. unfold scorePatterns. revert acc.
  induction patterns as [|p ps IH]; intros acc; simpl; [lia|].
  destruct (patternTest p email).
  - specialize (IH (fst acc + points, snd acc ++ [(label ++ patternSource p)%string])).
    simpl in IH. rewrite length_app in IH. simpl in IH. lia.
  - apply IH.
Qed.

End ScoreFacts.

(* --------------------------------------------------------------------- *)
(** ** Results of the facade: flags and confidence *)
(* --------------------------------------------------------------------- *)

Module ResultFacts.
Import Js Types MapFacts Checker DisposableEmailChecker FacadeFacts AnalyticsEngine
  ReportFacts ValidatorFacts.

(** [validateEmailFormat] returns on every string. *)
Lemma validateEmailFormat_returns strict email :
  exists (valid : bool) (errors : list string),
    EmailValidator.validateEmailFormat strict email = inr (valid, errors) /\
    (valid = false -> exists message, errors = [message]).
Proof.
  destruct (Regex.test (if strict then EmailValidator.strictEmailRegex
                        else EmailValidator.emailRegex) email) eqn:Ht.
  - destruct (shape_of_test _ _ Ht) as (l & d & Hs).
    rewrite (simple_on_shape _ _ _ _ Ht Hs).
    destruct (254 <? len email); [eauto 6|].
    destruct (64 <? len l); [eauto 6|].
    destruct (253 <? len d); [eauto 6|].
    exists true, []. split; [reflexivity|discriminate].
  - unfold EmailValidator.validateEmailFormat. rewrite Ht. simpl. eauto 6.
Qed.

(** [performEmailCheck] returns on every string: nothing in it throws. *)
Lemma performEmailCheck_returns cfg ext clock dc email :
  exists r dc', performEmailCheck cfg ext clock dc email = inr (r, dc').
Proof.
  unfold performEmailCheck.
  destruct (validateEmailFormat_returns (strictValidation cfg) email)
    as (valid & errs & Hv & _).
  pose proof (parseEmail_total (strictValidation cfg) email) as Hp.
  unfold EmailValidator.formatValid in Hp. rewrite Hv in *.
  destruct valid; [|eauto].
  destruct (Hp eq_refl) as (lp & d & ->).
  destruct (DomainChecker.checkAllowlist (checker cfg) d); eauto.
  destruct (classify cfg ext clock dc email lp d); eauto.
Qed.

Lemma searchParts_confidence parts root :
  0 <= Trie.confidence (Trie.searchParts parts root) <= 100.
Proof.
  unfold Trie.searchParts.
  destruct (Trie.searchLoop parts root false false "") as [[e s] src].
  destruct e; [simpl; lia|]. destruct s; simpl; lia.
Qed.

Lemma ofTrieResult_confidence r label :
  0 <= Trie.confidence r <= 100 ->
  0 <= dConfidence (default noMatch (ofTrieResult r label)) <= 100.
Proof.
  intros H. unfold ofTrieResult.
  destruct (Trie.found r && String.eqb (Trie.matchSource r) "disposable"); simpl; lia.
Qed.

Lemma checkWithHash_confidence cfg d :
  0 <= dConfidence (DomainChecker.checkWithHash cfg d) <= 100.
Proof.
  unfold DomainChecker.checkWithHash.
  destruct (negb (enableSubdomainChecking cfg)); [simpl; lia|].
  destruct (DomainChecker.anyParent _ _); simpl; lia.
Qed.

Lemma checkWithTrie_confidence cfg d :
  0 <= dConfidence (DomainChecker.checkWithTrie cfg d) <= 100.
Proof.
  unfold DomainChecker.checkWithTrie.
  destruct (domainTrie cfg); [|simpl; lia].
  destruct (negb (enableSubdomainChecking cfg)); [simpl; lia|].
  apply ofTrieResult_confidence, searchParts_confidence.
Qed.

Lemma performDisposableCheck_confidence cfg d :
  0 <= dConfidence (DomainChecker.performDisposableCheck cfg d) <= 100.
Proof.
  unfold DomainChecker.performDisposableCheck.
  destruct (bloomRejects cfg d); [simpl; lia|].
  destruct (setHas (disposableDomainsSet cfg) d); [simpl; lia|].
  destruct (indexingStrategy cfg).
  - apply checkWithTrie_confidence.
  - apply checkWithHash_confidence.
  - unfold DomainChecker.checkWithBloom. destruct (bloomFilter cfg); [|simpl; lia].
    destruct (enableSubdomainChecking cfg); [apply checkWithHash_confidence|simpl; lia].
  - unfold DomainChecker.checkWithHybrid.
    destruct (domainTrie cfg);
      [destruct (enableSubdomainChecking cfg && _)|];
      first [apply checkWithTrie_confidence|apply checkWithHash_confidence].
Qed.

Lemma checkBlacklist_confidence cfg d :
  0 <= dConfidence (DomainChecker.checkBlacklist cfg d) <= 100.
Proof.
  unfold DomainChecker.checkBlacklist, DomainChecker.checkSubdomainBlacklist.
  destruct (setHas (blacklistSet cfg) d); [simpl; lia|].
  destruct (enableSubdomainChecking cfg); simpl; [|lia].
  destruct (DomainChecker.anyParent _ _); simpl; lia.
Qed.

(** The domain check keeps the domain cache within percentages. *)
Lemma checkDisposableDomain_confidence cfg dc d :
  (forall k r, In (k, r) dc -> 0 <= dConfidence r <= 100) ->
  0 <= dConfidence (fst (DomainChecker.checkDisposableDomain cfg dc d)) <= 100 /\
  (forall k r, In (k, r) (snd (DomainChecker.checkDisposableDomain cfg dc d)) ->
               0 <= dConfidence r <= 100).
Proof.
  intros Hdc. unfold DomainChecker.checkDisposableDomain.
  destruct (mapGet d dc) as [hit|] eqn:Hg; simpl.
  - split; [|exact Hdc]. apply (Hdc d). now apply mapGet_Some_in.
  - split; [apply performDisposableCheck_confidence|].
    intros k r Hin. apply in_mapSet in Hin as [[= -> ->]|Hin];
      [apply performDisposableCheck_confidence|].
    destruct (DomainChecker.CACHE_SIZE_LIMIT <=? Z.of_nat (length dc)); [|now apply (Hdc k)].
    destruct dc as [|[firstKey r0] rest]; [destruct Hin|].
    apply (Hdc k). eapply in_mapDelete; eauto.
Qed.

Lemma classify_confidence cfg ext clock dc email lp d :
  (forall e l x, fst (analyzePatterns ext e l x) <= 100) ->
  (forall k r, In (k, r) dc -> 0 <= dConfidence r <= 100) ->
  0 <= confidence (fst (classify cfg ext clock dc email lp d)) <= 100 /\
  (forall k r, In (k, r) (snd (classify cfg ext clock dc email lp d)) ->
               0 <= dConfidence r <= 100).
Proof.
  intros Hext Hdc. unfold classify.
  pose proof (checkBlacklist_confidence (checker cfg) d) as Hb.
  destruct (checkDisposableDomain_confidence (checker cfg) dc d Hdc) as [Hd Hdc'].
  destruct (DomainChecker.checkDisposableDomain (checker cfg) dc d) as [dr dc'].
  simpl in Hd, Hdc'.
  pose proof (Hext email lp d) as Hs.
  destruct (analyzePatterns ext email lp d) as [score warns]. simpl in Hs.
  destruct (isMatch (DomainChecker.checkBlacklist (checker cfg) d));
    destruct (isMatch dr); destruct (enablePatternMatching cfg);
    destruct (Z.ltb_spec 0 score); destruct (80 <=? score);
    destruct (DisposableEmailChecker.checkMxRecord cfg);
    destruct (mxLookup ext d) as [[]|]; simpl; (split; [lia|exact Hdc']).
Qed.

Lemma performEmailCheck_confidence cfg ext clock dc email r dc' :
  (forall e l x, fst (analyzePatterns ext e l x) <= 100) ->
  (forall k x, In (k, x) dc -> 0 <= dConfidence x <= 100) ->
  performEmailCheck cfg ext clock dc email = inr (r, dc') ->
  0 <= confidence r <= 100 /\
  (forall k x, In (k, x) dc' -> 0 <= dConfidence x <= 100).
Proof.
  intros Hext Hdc. unfold performEmailCheck.
  destruct (EmailValidator.validateEmailFormat _ _) as [t|[[] errs]]; [discriminate| |].
  - destruct (EmailValidator.parseEmail email) as [lp [d|]]; [|discriminate].
    destruct (DomainChecker.checkAllowlist _ _).
    + intros [= <- <-]. split; [simpl; lia|exact Hdc].
    + intros [= H]. pose proof (classify_confidence cfg ext clock dc email lp d Hext Hdc) as Hc.
      rewrite H in Hc. exact Hc.
  - intros [= <- <-]. split; [simpl; lia|exact Hdc].
Qed.

Lemma confidenceBounded_get now c key :
  (forall k e, In (k, e) (MemoryCache.cache c) ->
               0 <= confidence (MemoryCache.result e) <= 100) ->
  (forall r, fst (MemoryCache.get now c key) = Some r -> 0 <= confidence r <= 100) /\
  (forall k e, In (k, e) (MemoryCache.cache (snd (MemoryCache.get now c key))) ->
               0 <= confidence (MemoryCache.result e) <= 100).
Proof.
  intros Hc. unfold MemoryCache.get.
  destruct (mapGet key (MemoryCache.cache c)) as [entry|] eqn:Hg; simpl;
    [|split; [discriminate|exact Hc]].
  pose proof (Hc key entry (mapGet_Some_in _ _ _ Hg)) as He.
  destruct (negb (MemoryCache.ttl entry =? 0) && _); simpl.
  - split; [discriminate|]. intros k e Hin. apply (Hc k). eapply in_mapDelete; eauto.
  - split; [now intros r [= <-]|].
    intros k e Hin. apply in_mapSet in Hin as [[= -> ->]|Hin]; [exact He|].
    apply (Hc k). eapply in_mapDelete; eauto.
Qed.

Lemma confidenceBounded_set now c key r ttlArg :
  (forall k e, In (k, e) (MemoryCache.cache c) ->
               0 <= confidence (MemoryCache.result e) <= 100) ->
  0 <= confidence r <= 100 ->
  (forall k e, In (k, e) (MemoryCache.cache (MemoryCache.set now c key r ttlArg)) ->
               0 <= confidence (MemoryCache.result e) <= 100).
Proof.
  intros Hc Hr. unfold MemoryCache.set.
  destruct (MemoryCache.maxSize c <=? Z.of_nat (length (MemoryCache.cache c))).
  - destruct (MemoryCache.cache c) as [|[oldestKey e0] rest] eqn:E; [now rewrite E|].
    destruct (String.eqb oldestKey ""); [now rewrite E|].
    intros k e Hin. simpl in Hin. apply in_mapSet in Hin as [[= -> ->]|Hin]; [exact Hr|].
    apply (Hc k). eapply in_mapDelete; eauto.
  - intros k e Hin. simpl in Hin. apply in_mapSet in Hin as [[= -> ->]|Hin]; [exact Hr|].
    now apply (Hc k).
Qed.

Lemma checkEmail_confidence cfg ext clock st email :
  (forall e l x, fst (analyzePatterns ext e l x) <= 100) ->
  confidenceBounded st ->
  0 <= confidence (fst (checkEmail cfg ext clock st email)) <= 100 /\
  confidenceBounded (snd (checkEmail cfg ext clock st email)).
Proof.
  intros Hext [Hrc Hdc]. unfold checkEmail.
  assert (exists cached cache1,
             (if enableCaching cfg
              then MemoryCache.get (nowGet clock) (resultCache st) email
              else (None, resultCache st)) = (cached, cache1) /\
             (forall r, cached = Some r -> 0 <= confidence r <= 100) /\
             (forall k e, In (k, e) (MemoryCache.cache cache1) ->
                          0 <= confidence (MemoryCache.result e) <= 100))
    as (cached & cache1 & -> & Hhit & Hc1).
  { destruct (enableCaching cfg).
    - destruct (confidenceBounded_get (nowGet clock) (resultCache st) email Hrc) as [H1 H2].
      destruct (MemoryCache.get _ _ _) as [cached cache1]. eauto.
    - exists None, (resultCache st). split; [reflexivity|]. split; [discriminate|exact Hrc]. }
  destruct cached as [r0|].
  - simpl. split; [now apply Hhit|]. split; assumption.
  - destruct (performEmailCheck cfg ext clock (domainCache st) email)
      as [thrown|[result dc']] eqn:Hp.
    + destruct thrown. simpl. split; [lia|]. split; assumption.
    + destruct (performEmailCheck_confidence _ _ _ _ _ _ _ Hext Hdc Hp) as [Hr Hdc'].
      simpl. split; [exact Hr|]. split; simpl; [|exact Hdc'].
      destruct (enableCaching cfg); [now apply confidenceBounded_set|exact Hc1].
Qed.

Lemma reachable_confidenceBounded cfg ext st :
  (forall e l x, fst (analyzePatterns ext e l x) <= 100) ->
  reachable cfg ext st -> confidenceBounded st.
Proof.
  intros Hext. induction 1 as [a b|st clock email Hr IH|st Hr IH].
  - split; intros ? ? [].
  - now apply checkEmail_confidence.
  - destruct IH as [_ Hd]. split; [intros ? ? []|exact Hd].
Qed.

(** The flags of a result [performEmailCheck] produces. *)
Lemma produced_flags cfg ext email r : producedFor cfg ext email r -> flagsConsistent r.
Proof.
  intros (clock & dc & dc' & Hp). unfold performEmailCheck in Hp.
  destruct (EmailValidator.validateEmailFormat _ _) as [t|[[] errs]]; [discriminate| |].
  - destruct (EmailValidator.parseEmail email) as [lp [d|]]; [|discriminate].
    destruct (DomainChecker.checkAllowlist _ _).
    + injection Hp as <- _. repeat split; simpl; auto; discriminate.
    + unfold classify in Hp.
      repeat match type of Hp with
             | context [let '(_, _) := ?x in _] => destruct x
             end.
      injection Hp as <- _. repeat split; simpl; auto; discriminate.
  - injection Hp as <- _. repeat split; simpl; auto; discriminate.
Qed.

Lemma checkEmail_flags cfg ext clock st email :
  reachable cfg ext st -> flagsConsistent (fst (checkEmail cfg ext clock st email)).
Proof.
  intros Hr. apply reachable_cacheSound in Hr.
  destruct (checkEmail_cases cfg ext clock st email Hr) as [_ [(r0 & Hp & ->)|(t & _ & ->)]].
  - apply produced_flags in Hp. exact Hp.
  - destruct t. repeat split; simpl; auto; discriminate.
Qed.

(** Counting over results whose flags go together. *)
Lemma summary_flags results :
  Forall flagsConsistent results ->
  allowed (summary results) + disposable (summary results) <= valid (summary results) /\
  blacklisted (summary results) <= valid (summary results).
Proof.
  unfold summary. simpl.
  induction 1 as [|r results (Ha & Hd & Hb) _ IH]; [unfold count; simpl; lia|].
  rewrite !count_cons.
  destruct (isAllowed r) eqn:Ea, (isDisposable r) eqn:Ed, (isBlacklisted r) eqn:Eb,
    (isValid r) eqn:Ev;
    try (destruct (Ha eq_refl) as (? & ? & ?)); try specialize (Hd eq_refl);
    try specialize (Hb eq_refl); try discriminate; lia.
Qed.

Lemma summary_total results :
  valid (summary results) + invalid (summary results) = total (summary results).
Proof.
  unfold summary. simpl. induction results as [|r results IH]; [reflexivity|].
  rewrite !count_cons. simpl length. destruct (isValid r); simpl; lia.
Qed.

End ResultFacts.

(* --------------------------------------------------------------------- *)
(** ** Counters of [MetricsManager] *)
(* --------------------------------------------------------------------- *)

Module MetricsFacts.
Import Types MetricsManager.

Lemma countersConsistent_after m call :
  countersConsistent m -> countersConsistent (after m call).
Proof.
  unfold countersConsistent. intros H. destruct call as [operation result|]; simpl.
  - unfold updateMetrics, bump.
    destruct (String.eqb operation "validation").
    + destruct result as [r|]; simpl; [|lia].
      destruct (isDisposable r), (isAllowed r), (isBlacklisted r); lia.
    + destruct (String.eqb operation "error"); simpl; lia.
  - lia.
Qed.

Lemma countersConsistent_run calls m :
  countersConsistent m -> countersConsistent (fold_left after calls m).
Proof.
  revert m. induction calls as [|c calls IH]; intros m H; [exact H|].
  simpl. apply IH. now apply countersConsistent_after.
Qed.

End MetricsFacts.

(* --------------------------------------------------------------------- *)
(** ** Pattern scores and warnings *)
(* --------------------------------------------------------------------- *)

Module ScoreRangeFacts.
Import EmailValidator ScoreFacts.

Lemma scored_scorePatterns points label patterns email acc :
  0 < points -> scored acc -> scored (scorePatterns points label patterns email acc).
Proof.
  intros Hp [H0 H1]. pose proof (scorePatterns_spec points label patterns email acc Hp) as H.
  simpl in H. unfold scored. lia.
Qed.

Lemma scored_add (b : bool) points warning acc :
  0 < points -> scored acc ->
  scored (if b then (fst acc + points, snd acc ++ [warning]) else acc).
Proof.
  intros Hp [H0 H1]. destruct b; [|now split]. unfold scored. simpl.
  rewrite length_app. simpl. lia.
Qed.

End ScoreRangeFacts.

(* --------------------------------------------------------------------- *)
(** ** Loading and saving domain lists *)
(* --------------------------------------------------------------------- *)

Module DataLoaderFacts.
Import Js Regex RegexFacts EmailValidator EmailShapeFacts DomainFacts DataLoader.

Lemma matches_map_lower r s :
  preserves lowerChar r -> matches r s -> matches r (toLowerCase s).
Proof.
  intros Hp Hm.
  induction Hm as [|p a Ha|r1 r2 s1 s2 _ IH1 _ IH2|r1 r2 s _ IH|r1 r2 s _ IH|r
                  |r s1 s2 _ IH1 _ IH2]; simpl in *.
  - constructor.
  - constructor. now apply Hp.
  - rewrite toLowerCase_append. constructor; [apply IH1|apply IH2]; tauto.
  - apply matches_alt_l. apply IH. tauto.
  - apply matches_alt_r. apply IH. tauto.
  - constructor.
  - rewrite toLowerCase_append. constructor; [now apply IH1|now apply IH2].
Qed.

Lemma alnum_lowerChar c : alnum c = true -> alnum (lowerChar c) = true.
Proof. destruct c as [[] [] [] [] [] [] [] []]; intros H; try discriminate H; reflexivity. Qed.

Lemma alnumHyphen_lowerChar c : alnumHyphen c = true -> alnumHyphen (lowerChar c) = true.
Proof. destruct c as [[] [] [] [] [] [] [] []]; intros H; try discriminate H; reflexivity. Qed.

Lemma lowerChar_idem c : lowerChar (lowerChar c) = lowerChar c.
Proof. destruct c as [[] [] [] [] [] [] [] []]; reflexivity. Qed.

Lemma toLowerCase_idem s : toLowerCase (toLowerCase s) = toLowerCase s.
Proof. induction s as [|c s IH]; simpl; [reflexivity|]. now rewrite lowerChar_idem, IH. Qed.

Lemma length_toLowerCase s : String.length (toLowerCase s) = String.length s.
Proof. induction s as [|c s IH]; simpl; [reflexivity|]. now rewrite IH. Qed.

Lemma preserves_upTo f n r : preserves f r -> preserves f (upTo n r).
Proof. intros H. induction n as [|n IH]; simpl; auto. Qed.

Lemma preserves_label : preserves lowerChar label.
Proof.
  unfold label, opt. cbn [preserves].
  split; [exact alnum_lowerChar|]. split; [exact I|]. split; [|exact alnum_lowerChar].
  apply preserves_upTo. exact alnumHyphen_lowerChar.
Qed.

Lemma preserves_domainRegex : preserves lowerChar domainRegex.
Proof.
  unfold domainRegex. cbn [preserves]. split; [exact preserves_label|].
  split; [|exact preserves_label].
  intros c Hc. apply Ascii.eqb_eq in Hc. now subst.
Qed.

(** Lower case keeps a domain valid. *)
Lemma isValidDomain_toLowerCase d :
  isValidDomain d = true -> isValidDomain (toLowerCase d) = true.
Proof.
  unfold isValidDomain, len. rewrite length_toLowerCase.
  intros H. apply andb_true_iff in H as [Ht Hl]. apply andb_true_iff. split; [|exact Hl].
  apply test_matches. apply matches_map_lower; [exact preserves_domainRegex|].
  now apply test_matches.
Qed.

Lemma stored_toLowerCase d : isValidDomain d = true -> stored (toLowerCase d).
Proof. intros H. split; [now apply isValidDomain_toLowerCase|apply toLowerCase_idem]. Qed.

(** A valid domain holds letters, digits, "-" and "." only. *)
Lemma valid_chars d c :
  isValidDomain d = true -> In c (list_ascii_of_string d) ->
  alnumHyphen c = true \/ c = "."%char.
Proof.
  unfold isValidDomain. intros H. apply andb_true_iff in H as [Ht _].
  apply test_matches in Ht.
  refine (matches_within (fun a => alnumHyphen a = true \/ a = "."%char) _ d _ Ht c).
  apply within_domainRegex; auto.
Qed.

Lemma valid_first d :
  isValidDomain d = true -> exists c rest, d = String c rest /\ alnum c = true.
Proof.
  unfold isValidDomain. intros H. apply andb_true_iff in H as [Ht _].
  apply test_matches in Ht. now apply matches_domainRegex_first.
Qed.

Lemma valid_leadingDot d : isValidDomain d = true -> PooledTrieIndex.leadingDot d = false.
Proof.
  intros H. destruct (valid_first d H) as (c & rest & -> & Hc). simpl.
  destruct (Ascii.eqb_spec c ".") as [->|]; [discriminate|reflexivity].
Qed.

Lemma setAdd_in x y s : In y (setAdd x s) <-> y = x \/ In y s.
Proof.
  unfold setAdd. destruct (existsb (String.eqb x) s) eqn:E.
  - split; [tauto|]. intros [->|H]; [|exact H].
    apply existsb_exists in E as (z & Hz & Heq). apply String.eqb_eq in Heq. now subst.
  - rewrite in_app_iff. simpl. split; [intros [H|[<-|[]]]; tauto|intros [->|H]; tauto].
Qed.

Lemma setAdd_NoDup x s : NoDup s -> NoDup (setAdd x s).
Proof.
  unfold setAdd. intros H. destruct (existsb (String.eqb x) s) eqn:E; [exact H|].
  apply NoDup_app. split; [exact H|]. split; [|apply NoDup_singleton].
  intros y Hy Hx. apply list_elem_of_In in Hy. apply list_elem_of_In in Hx.
  destruct Hx as [<-|[]].
  assert (existsb (String.eqb x) s = true) as E'; [|congruence].
  apply existsb_exists. exists x. split; [exact Hy|apply String.eqb_refl].
Qed.

Lemma fill_spec domains acc x :
  In x (fold_left
          (fun domainsSet domain =>
             if isValidDomain domain then setAdd (toLowerCase domain) domainsSet
             else domainsSet) domains acc)
  <-> In x acc \/ exists d, In d domains /\ isValidDomain d = true /\ x = toLowerCase d.
Proof.
  revert acc. induction domains as [|d domains IH]; intros acc; simpl.
  - split; [tauto|]. intros [H|(d & [] & _)]. exact H.
  - rewrite IH. destruct (isValidDomain d) eqn:Hv.
    + rewrite setAdd_in. split.
      * intros [[->|H]|(d' & Hd' & Hv' & ->)]; [right; eauto|tauto|right; eauto].
      * intros [H|(d' & [<-|Hd'] & Hv' & ->)]; [tauto|tauto|right; eauto].
    + split.
      * intros [H|(d' & Hd' & Hv' & ->)]; [tauto|right; eauto].
      * intros [H|(d' & [<-|Hd'] & Hv' & ->)]; [tauto|congruence|right; eauto].
Qed.

Lemma fill_NoDup domains acc :
  NoDup acc ->
  NoDup (fold_left
           (fun domainsSet domain =>
              if isValidDomain domain then setAdd (toLowerCase domain) domainsSet
              else domainsSet) domains acc).
Proof.
  revert acc. induction domains as [|d domains IH]; intros acc H; simpl; [exact H|].
  apply IH. destruct (isValidDomain d); [now apply setAdd_NoDup|exact H].
Qed.

(** What [validDomains] keeps. *)
Lemma validDomains_spec domains x :
  In x (validDomains domains)
  <-> exists d, In d domains /\ isValidDomain d = true /\ x = toLowerCase d.
Proof. unfold validDomains. rewrite fill_spec. simpl. tauto. Qed.

Lemma validDomains_NoDup domains : NoDup (validDomains domains).
Proof. apply fill_NoDup. constructor. Qed.

Lemma validDomains_stored domains x : In x (validDomains domains) -> stored x.
Proof.
  intros H. apply validDomains_spec in H as (d & _ & Hv & ->). now apply stored_toLowerCase.
Qed.

(** Stored domains, once more through the loop, are kept as they are. *)
Lemma fill_stored domains acc :
  Forall stored domains -> NoDup (acc ++ domains) ->
  fold_left
    (fun domainsSet domain =>
       if isValidDomain domain then setAdd (toLowerCase domain) domainsSet
       else domainsSet) domains acc
  = acc ++ domains.
Proof.
  revert acc. induction domains as [|d domains IH]; intros acc Hall Hnd; simpl.
  - now rewrite app_nil_r.
  - inversion Hall as [|? ? [Hv Hl] Hrest]; subst. rewrite Hv, Hl.
    assert (setAdd d acc = acc ++ [d]) as ->.
    { unfold setAdd. destruct (existsb (String.eqb d) acc) eqn:E; [|reflexivity].
      exfalso. apply existsb_exists in E as (z & Hz & Heq). apply String.eqb_eq in Heq.
      subst z. apply NoDup_app in Hnd as (_ & Hdis & _).
      apply (Hdis d); [now apply list_elem_of_In|]. apply list_elem_of_In. now left. }
    rewrite IH; [now rewrite <- app_assoc|exact Hrest|now rewrite <- app_assoc].
Qed.

Lemma validDomains_stored_id domains :
  Forall stored domains -> NoDup domains -> validDomains domains = domains.
Proof. intros Hall Hnd. unfold validDomains. now rewrite fill_stored. Qed.

(** [trim] leaves a string without white space as it is. *)
Lemma trimStart_id s :
  (forall c, In c (list_ascii_of_string s) -> isWhiteSpace c = false) -> trimStart s = s.
Proof. destruct s as [|c s]; simpl; [reflexivity|]. intros H. now rewrite H by now left. Qed.

Lemma trimEnd_id s :
  (forall c, In c (list_ascii_of_string s) -> isWhiteSpace c = false) -> trimEnd s = s.
Proof.
  induction s as [|c s IH]; simpl; [reflexivity|]. intros H.
  rewrite IH by auto. rewrite (H c) by now left. now destruct s.
Qed.

Lemma trim_id s :
  (forall c, In c (list_ascii_of_string s) -> isWhiteSpace c = false) -> trim s = s.
Proof. intros H. unfold trim. rewrite trimStart_id by exact H. now apply trimEnd_id. Qed.

Lemma alnumHyphen_plain c :
  alnumHyphen c = true \/ c = "."%char ->
  isWhiteSpace c = false /\ c <> "010"%char.
Proof.
  intros [H| ->]; [|split; [reflexivity|discriminate]].
  destruct c as [[] [] [] [] [] [] [] []]; try discriminate H; split; try reflexivity;
    discriminate.
Qed.

Lemma stored_line d :
  isValidDomain d = true ->
  trim d = d /\ d <> ""%string /\ hasChar "010" d = false.
Proof.
  intros Hv. split; [|split].
  - apply trim_id. intros c Hc. now apply alnumHyphen_plain, (valid_chars d).
  - destruct (valid_first d Hv) as (c & rest & -> & _). discriminate.
  - apply hasChar_chars. intros c Hc. now apply alnumHyphen_plain, (valid_chars d).
Qed.

(** [split] undoes [join], for any separator. *)
Lemma split_join_sep c l :
  l <> [] -> Forall (fun p => hasChar c p = false) l ->
  split c (join (String c "") l) = l.
Proof.
  induction l as [|p l IH]; intros Hne Hall; [contradiction|].
  inversion Hall as [|? ? Hp Hl]; subst.
  destruct l as [|q l]; [now apply split_no_sep|].
  change (join (String c "") (p :: q :: l))
    with (p ++ String c (join (String c "") (q :: l)))%string.
  rewrite split_append by exact Hp. f_equal. apply IH; [discriminate|exact Hl].
Qed.

(** The lines of a file of valid domains, one on each line. *)
Lemma lines_join l :
  Forall (fun d => isValidDomain d = true) l -> lines (join (String "010" "") l) = l.
Proof.
  intros Hall. destruct l as [|d l]; [reflexivity|].
  unfold lines. rewrite split_join_sep; [|discriminate|].
  - induction Hall as [|x xs Hx _ IH]; [reflexivity|].
    destruct (stored_line x Hx) as (Ht & Hne & _). simpl. rewrite Ht.
    destruct (String.eqb_spec x ""); [contradiction|]. simpl. now rewrite IH.
  - eapply Forall_impl; [exact Hall|]. intros x Hx. now apply stored_line.
Qed.

Lemma insertSorted_perm x l : Permutation (insertSorted x l) (x :: l).
Proof.
  induction l as [|y l IH]; simpl; [reflexivity|].
  destruct (String.leb x y); [reflexivity|]. rewrite IH. apply perm_swap.
Qed.

Lemma sort_perm l : Permutation (sort l) l.
Proof.
  induction l as [|x l IH]; simpl; [reflexivity|].
  rewrite insertSorted_perm. now constructor.
Qed.

(** [trim] on a trimmed string. *)
Lemma trimStart_head s :
  trimStart s = ""%string \/
  exists c rest, trimStart s = String c rest /\ isWhiteSpace c = false.
Proof.
  induction s as [|c s IH]; simpl; [now left|].
  destruct (isWhiteSpace c) eqn:E; [exact IH|right; eauto].
Qed.

Lemma trimEnd_idem s : trimEnd (trimEnd s) = trimEnd s.
Proof.
  induction s as [|c s IH]; simpl; [reflexivity|].
  destruct (trimEnd s) as [|k kept] eqn:E.
  - destruct (isWhiteSpace c) eqn:Ec; simpl; [reflexivity|now rewrite Ec].
  - cbn [trimEnd]. cbn [trimEnd] in IH. now rewrite IH.
Qed.

Lemma trimEnd_head c rest :
  isWhiteSpace c = false -> exists kept, trimEnd (String c rest) = String c kept.
Proof. intros H. simpl. destruct (trimEnd rest); [rewrite H|]; eauto. Qed.

Lemma trim_idem s : trim (trim s) = trim s.
Proof.
  unfold trim. destruct (trimStart_head s) as [->|(c & rest & -> & Hc)]; [reflexivity|].
  destruct (trimEnd_head c rest Hc) as (kept & Hk). rewrite Hk.
  cbn [trimStart]. rewrite Hc, <- Hk. apply trimEnd_idem.
Qed.

Lemma hasChar_trimStart c s : hasChar c s = false -> hasChar c (trimStart s) = false.
Proof.
  induction s as [|a s IH]; simpl; [reflexivity|]. intros H.
  apply orb_false_iff in H as [Ha Hs].
  destruct (isWhiteSpace a); [now apply IH|]. simpl. now rewrite Ha, Hs.
Qed.

Lemma hasChar_trimEnd c s : hasChar c s = false -> hasChar c (trimEnd s) = false.
Proof.
  induction s as [|a s IH]; simpl; [reflexivity|]. intros H.
  apply orb_false_iff in H as [Ha Hs]. specialize (IH Hs).
  destruct (trimEnd s) as [|k kept].
  - destruct (isWhiteSpace a); [reflexivity|]. simpl. now rewrite Ha.
  - cbn [hasChar]. cbn [hasChar] in IH. now rewrite Ha, IH.
Qed.

Lemma hasChar_trim c s : hasChar c s = false -> hasChar c (trim s) = false.
Proof. intros H. unfold trim. now apply hasChar_trimEnd, hasChar_trimStart. Qed.

(** The lines of a content are trimmed, not empty and without a line
    feed. *)
Lemma lines_plain content :
  Forall (fun l => trim l = l /\ l <> ""%string /\ hasChar "010" l = false) (lines content).
Proof.
  unfold lines. pose proof (split_hasChar "010" content) as Hs.
  induction Hs as [|p ps Hp _ IH]; simpl; [constructor|].
  destruct (String.eqb_spec (trim p) ""); simpl; [exact IH|].
  constructor; [|exact IH]. split; [apply trim_idem|]. split; [assumption|].
  now apply hasChar_trim.
Qed.

Lemma lines_join_plain l :
  Forall (fun l => trim l = l /\ l <> ""%string /\ hasChar "010" l = false) l ->
  lines (join (String "010" "") l) = l.
Proof.
  intros Hall. destruct l as [|d l]; [reflexivity|].
  unfold lines. rewrite split_join_sep; [|discriminate|].
  - induction Hall as [|x xs (Ht & Hne & _) _ IH]; [reflexivity|].
    simpl. rewrite Ht. destruct (String.eqb_spec x ""); [contradiction|]. simpl.
    now rewrite IH.
  - eapply Forall_impl; [exact Hall|]. now intros x (_ & _ & Hx).
Qed.

(** Written out and read again, the lines of a content are the same. *)
Lemma lines_join_lines content :
  lines (join (String "010" "") (lines content)) = lines content.
Proof. apply lines_join_plain, lines_plain. Qed.

End DataLoaderFacts.

(* --------------------------------------------------------------------- *)
(** ** Changes of the lists and the result cache *)
(* --------------------------------------------------------------------- *)

Module ListChangeFacts.
Import Types DisposableEmailChecker.

Lemma change_keeps changes checker :
  resultCache (snd (fold_left change changes checker)) = resultCache (snd checker) /\
  enableCaching (fst (fold_left change changes checker)) = enableCaching (fst checker).
Proof.
  revert checker. induction changes as [|c changes IH]; intros checker; [now split|].
  simpl. destruct (IH (change checker c)) as [-> ->]. now destruct c.
Qed.

End ListChangeFacts.

(* --------------------------------------------------------------------- *)
(** ** The default factory of the registry *)
(* --------------------------------------------------------------------- *)

Module RegistryFacts.
Import Js MapFacts CacheFactoryRegistry.

Lemma mapHas_mapSet {V} k k' (v : V) m :
  mapHas k m = true -> mapHas k (mapSet k' v m) = true.
Proof.
  unfold mapHas. destruct (String.eqb_spec k' k) as [->|Hne].
  - now rewrite mapGet_mapSet_eq.
  - now rewrite mapGet_mapSet_ne.
Qed.

Lemma defaultRegistered_after r call :
  keepsDefault r [call] = true ->
  mapHas (defaultFactory r) (factories r) = true ->
  mapHas (defaultFactory (after r call)) (factories (after r call)) = true.
Proof.
  destruct call as [type factory|type|type]; simpl.
  - intros _. apply mapHas_mapSet.
  - intros _ H. unfold setDefault.
    destruct (mapHas type (factories r)) eqn:E; [exact E|exact H].
  - rewrite andb_true_r. intros Hne H. apply negb_true_iff, String.eqb_neq in Hne.
    unfold mapHas in *. now rewrite mapGet_mapDelete_ne.
Qed.

Lemma defaultRegistered_run calls r :
  keepsDefault r calls = true ->
  mapHas (defaultFactory r) (factories r) = true ->
  mapHas (defaultFactory (fold_left after calls r))
         (factories (fold_left after calls r)) = true.
Proof.
  revert r. induction calls as [|call calls IH]; intros r Hk H; [exact H|].
  simpl in Hk. apply andb_true_iff in Hk as [Hc Hk]. simpl. apply IH; [exact Hk|].
  apply defaultRegistered_after; [|exact H]. simpl. now rewrite Hc.
Qed.

End RegistryFacts.

(* --------------------------------------------------------------------- *)
(** ** The edit distance of [calculateSimilarity] *)
(* --------------------------------------------------------------------- *)

Module DistanceFacts.
Import Js RegexFacts EmailShapeFacts AnalyticsEngine.
#[local] Open Scope string_scope.

Lemma len_snoc p c : len (p ++ String c "") = len p + 1.
Proof. unfold len. rewrite length_append. simpl. lia. Qed.

Lemma snoc_inj p q a b : p ++ String a "" = q ++ String b "" -> p = q /\ a = b.
Proof.
  revert q. induction p as [|x p IH]; intros [|y q] H; simpl in H.
  - injection H as ->. now split.
  - injection H as -> H. destruct q; discriminate.
  - injection H as -> H. destruct p; discriminate.
  - injection H as -> H. apply IH in H as [-> ->]. now split.
Qed.

Lemma len_nonneg p : 0 <= len p.
Proof. unfold len. lia. Qed.

(** Row 0. *)
Lemma firstRow_ok_from p1 rest :
  rowOk "" p1 rest (map Z.of_nat (seq (String.length p1) (S (String.length rest)))).
Proof.
  revert p1. induction rest as [|c rest IH]; intros p1.
  - simpl. unfold cellOk, len. simpl. split; [lia|].
    split; [intros H; destruct p1; [reflexivity|simpl in H; lia]|now intros <-].
  - cbn [String.length seq map rowOk]. split.
    + unfold cellOk, len. simpl. split; [lia|].
      split; [intros H; destruct p1; [reflexivity|simpl in H; lia]|now intros <-].
    + specialize (IH (p1 ++ String c "")). rewrite length_append in IH. simpl in IH.
      replace (String.length p1 + 1)%nat with (S (String.length p1)) in IH by lia.
      exact IH.
Qed.

Lemma firstRow_ok str1 : rowOk "" "" str1 (firstRow str1).
Proof. apply (firstRow_ok_from "" str1). Qed.

(** One cell from its three neighbours. *)
Lemma cell_step p2 p1 c2 c1 diag left up :
  cellOk p2 p1 diag -> cellOk (p2 ++ String c2 "") p1 left ->
  cellOk p2 (p1 ++ String c1 "") up ->
  cellOk (p2 ++ String c2 "") (p1 ++ String c1 "")
    (if Ascii.eqb c2 c1 then diag else Z.min (Z.min (diag + 1) (left + 1)) (up + 1)).
Proof.
  unfold cellOk. rewrite !len_snoc. intros [Hd Hd0] [Hl Hl0] [Hu Hu0].
  destruct (Ascii.eqb_spec c2 c1) as [->|Hne].
  - split; [lia|]. rewrite Hd0. split; [now intros ->|].
    intros H. now apply snoc_inj in H as [-> _].
  - split; [lia|]. split; [lia|]. intros H. apply snoc_inj in H as [_ ->]. contradiction.
Qed.

Lemma rowOk_head p2 p1 rest row :
  rowOk p2 p1 rest row -> exists v row', row = v :: row' /\ cellOk p2 p1 v.
Proof.
  destruct row as [|v row]; [now destruct rest|]. intros H. exists v, row. split; [reflexivity|].
  destruct rest, row; simpl in H; tauto.
Qed.

Lemma rowOk_cons p2 p1 c rest v row :
  rowOk p2 p1 (String c rest) (v :: row) <->
  cellOk p2 p1 v /\ rowOk p2 (p1 ++ String c "") rest row.
Proof. destruct row; simpl; tauto. Qed.

Lemma rowOk_end p2 p1 v row : rowOk p2 p1 "" (v :: row) <-> row = [] /\ cellOk p2 p1 v.
Proof. destruct row; simpl; [tauto|]. split; [tauto|]. now intros [? _]. Qed.

(** The cells of a row from those of the row above. *)
Lemma fillRow_ok p2 c2 p1 c1 rest above left :
  rowOk p2 p1 (String c1 rest) above ->
  cellOk (p2 ++ String c2 "") p1 left ->
  rowOk (p2 ++ String c2 "") (p1 ++ String c1 "") rest
        (fillRow c2 (String c1 rest) above left).
Proof.
  revert p1 c1 above left. induction rest as [|c rest IH]; intros p1 c1 above left Ha Hl.
  - destruct above as [|diag above]; [contradiction|].
    apply rowOk_cons in Ha as [Hd Ha].
    destruct above as [|up above]; [contradiction|].
    apply rowOk_end in Ha as [-> Hu]. simpl. now apply cell_step.
  - destruct above as [|diag above]; [contradiction|].
    apply rowOk_cons in Ha as [Hd Ha].
    destruct (rowOk_head _ _ _ _ Ha) as (up & above' & -> & Hu).
    pose proof (cell_step _ _ c2 c1 _ _ _ Hd Hl Hu) as Hc.
    change (fillRow c2 (String c1 (String c rest)) (diag :: up :: above') left)
      with ((if Ascii.eqb c2 c1 then diag
             else Z.min (Z.min (diag + 1) (left + 1)) (up + 1))
            :: fillRow c2 (String c rest) (up :: above')
                 (if Ascii.eqb c2 c1 then diag
                  else Z.min (Z.min (diag + 1) (left + 1)) (up + 1))).
    apply rowOk_cons. split; [exact Hc|]. now apply IH.
Qed.

Lemma firstCell_ok p2 c2 : cellOk (p2 ++ String c2 "") "" (len p2 + 1).
Proof.
  unfold cellOk. rewrite len_snoc. pose proof (len_nonneg p2).
  change (len "") with 0. split; [lia|]. split; [lia|]. intros H'. destruct p2; discriminate.
Qed.

Lemma nextRow_ok p2 c2 str1 above :
  rowOk p2 "" str1 above ->
  rowOk (p2 ++ String c2 "") "" str1 (nextRow str1 (len p2 + 1) c2 above).
Proof.
  intros Ha. unfold nextRow. destruct str1 as [|c1 rest].
  - destruct above as [|v above]; [contradiction|]. apply rowOk_end in Ha as [-> _].
    simpl. apply firstCell_ok.
  - apply rowOk_cons. split; [apply firstCell_ok|].
    apply (fillRow_ok p2 c2 "" c1 rest above); [exact Ha|apply firstCell_ok].
Qed.

Lemma lastRow_ok str1 p2 rest above :
  rowOk p2 "" str1 above ->
  rowOk (p2 ++ rest) "" str1 (lastRow str1 rest (len p2 + 1) above).
Proof.
  revert p2 above. induction rest as [|c2 rest IH]; intros p2 above Ha.
  - now rewrite append_nil_r.
  - cbn [lastRow]. specialize (IH (p2 ++ String c2 "") _ (nextRow_ok p2 c2 str1 above Ha)).
    rewrite len_snoc, append_assoc in IH. exact IH.
Qed.

(** The last cell of a row stands for the whole of [str1]. *)
Lemma rowOk_last p2 p1 rest row : rowOk p2 p1 rest row -> cellOk p2 (p1 ++ rest) (List.last row 0).
Proof.
  revert p1 row. induction rest as [|c rest IH]; intros p1 row H.
  - destruct row as [|v row]; [contradiction|]. apply rowOk_end in H as [-> H].
    now rewrite append_nil_r.
  - destruct row as [|v row]; [contradiction|]. apply rowOk_cons in H as [_ H].
    destruct (rowOk_head _ _ _ _ H) as (w & row' & -> & _).
    apply IH in H. rewrite append_assoc in H. exact H.
Qed.

End DistanceFacts.

(* ===================================================================== *)
(** * The stated properties *)
(* ===================================================================== *)

(** C1. No false negatives: on either Bloom filter class, once [add(x)] has
    been called [contains(x)] is true, and it stays true after any further
    sequence of [add] calls (no [clear] in between).  [wf] is what the
    constructor establishes. *)
Theorem bloom_no_false_negatives :
  (forall (b : BloomFilter.t) (x : string) (later : list string),
      BloomFilter.wf b ->
      BloomFilter.contains (BloomFilter.addAll (BloomFilter.add b x) later) x = true)
  /\
  (forall (b : ArrayBloomFilter.t) (x : string) (later : list string),
      ArrayBloomFilter.wf b ->
      ArrayBloomFilter.contains
        (ArrayBloomFilter.addAll (ArrayBloomFilter.add b x) later) x = true).
Proof.
  split.
  - intros b x later Hwf.
    apply BloomFilterFacts.contains_addAll_mono.
    now apply BloomFilterFacts.contains_add.
  - intros b x later _.
    apply ArrayBloomFilterFacts.array_contains_addAll_mono.
    apply ArrayBloomFilterFacts.array_contains_add.
Qed.

Lemma bloom_no_false_negatives_witness :
  BloomFilter.wf (BloomFilter.new 96 7) /\
  BloomFilter.contains
    (BloomFilter.addAll (BloomFilter.add (BloomFilter.new 96 7) "mailinator.com")
       ["10minutemail.com"; "temp-mail.org"]) "mailinator.com" = true /\
  ArrayBloomFilter.wf (ArrayBloomFilter.new 96 7) /\
  ArrayBloomFilter.contains
    (ArrayBloomFilter.addAll
       (ArrayBloomFilter.add (ArrayBloomFilter.new 96 7) "mailinator.com")
       ["10minutemail.com"; "temp-mail.org"]) "mailinator.com" = true.
Proof.
  assert (BloomFilter.wf (BloomFilter.new 96 7)) as H1
    by (split; [reflexivity | left; reflexivity]).
  assert (ArrayBloomFilter.wf (ArrayBloomFilter.new 96 7)) as H2
    by (left; reflexivity).
  split; [exact H1|]. split; [exact (proj1 bloom_no_false_negatives _ _ _ H1)|].
  split; [exact H2|]. exact (proj2 bloom_no_false_negatives _ _ _ H2).
Defined.

(** C2. Exact and subdomain matches: on an empty trie of either class,
    after [insert("mailinator.com", "disposable")], [search] answers
    exact/100 for "mailinator.com", subdomain/85 for "x.mailinator.com" and
    not found/0 for "notmailinator.com". *)
Theorem trie_exact_vs_subdomain :
  (let root := TrieIndex.insert Trie.newNode "mailinator.com" "disposable" in
   TrieIndex.search root "mailinator.com"
     = Trie.mkSearchResult true Trie.exact 100 "disposable" /\
   TrieIndex.search root "x.mailinator.com"
     = Trie.mkSearchResult true Trie.subdomain 85 "disposable" /\
   TrieIndex.search root "notmailinator.com"
     = Trie.mkSearchResult false Trie.exact 0 "")
  /\
  (forall nodePool : PooledTrieIndex.Pool,
     exists root nodePool',
       PooledTrieIndex.insert Trie.newNode nodePool "mailinator.com" "disposable"
         = Some (root, nodePool') /\
       PooledTrieIndex.search root "mailinator.com"
         = Some (Trie.mkSearchResult true Trie.exact 100 "disposable") /\
       PooledTrieIndex.search root "x.mailinator.com"
         = Some (Trie.mkSearchResult true Trie.subdomain 85 "disposable") /\
       PooledTrieIndex.search root "notmailinator.com"
         = Some (Trie.mkSearchResult false Trie.exact 0 "")).
Proof.
  split.
  - vm_compute. repeat split.
  - intros [|n1 [|n2 rest]]; eexists; eexists;
      (split; [vm_compute; reflexivity|]); vm_compute; repeat split.
Qed.

(** C3 as stated fails.  A checker that was given a Bloom filter which
    does not hold the domain answers "no match" for a member of the raw
    disposable set, in both classes: first with the empty filter
    [new BloomFilter(10, 0.01)] (96 bits, 7 hash functions), then with a
    filter of that size that was filled before "mailinator.com" joined the
    set. *)
Lemma exact_hit_not_always_counterexample :
  (let cfg := Checker.mkConfig {["mailinator.com"%string]} ∅ ∅ [] true None
                (Some (ArrayBloomFilter.new 96 7)) Checker.hybrid in
   "mailinator.com"%string ∈ Checker.disposableDomainsSet cfg /\
   SimpleDomainChecker.checkDisposableDomain cfg "mailinator.com" = Types.noMatch /\
   DomainChecker.performDisposableCheck cfg "mailinator.com" = Types.noMatch /\
   fst (DomainChecker.checkDisposableDomain cfg [] "mailinator.com") = Types.noMatch)
  /\
  (let stale := ArrayBloomFilter.add (ArrayBloomFilter.new 96 7) "10minutemail.com" in
   let cfg := Checker.mkConfig ({["10minutemail.com"%string]} ∪ {["mailinator.com"%string]})
                ∅ ∅ [] true None (Some stale) Checker.hybrid in
   "mailinator.com"%string ∈ Checker.disposableDomainsSet cfg /\
   SimpleDomainChecker.checkDisposableDomain cfg "mailinator.com" = Types.noMatch /\
   DomainChecker.performDisposableCheck cfg "mailinator.com" = Types.noMatch /\
   fst (DomainChecker.checkDisposableDomain cfg [] "mailinator.com") = Types.noMatch).
Proof.
  split; simpl; (split; [set_solver|]); (split; [|split]); vm_compute; reflexivity.
Qed.

(** C3, amended.  For every configuration and every member of the raw
    disposable set that the Bloom filter, when there is one, does not
    reject, both classes answer exact, confidence 100, source "database",
    whatever the strategy, the trie and the subdomain flag; for the class
    with the domain cache this is the answer of a lookup that is not served
    from that cache. *)
Theorem exact_hit_wins (cfg : Checker.Config) (domain : string) :
  domain ∈ Checker.disposableDomainsSet cfg ->
  Checker.bloomRejects cfg domain = false ->
  SimpleDomainChecker.checkDisposableDomain cfg domain
    = Types.mkDomainResult true Types.exact 100 (Some "database"%string) /\
  DomainChecker.performDisposableCheck cfg domain
    = Types.mkDomainResult true Types.exact 100 (Some "database"%string) /\
  (forall domainCache,
      Js.mapGet domain domainCache = None ->
      fst (DomainChecker.checkDisposableDomain cfg domainCache domain)
      = Types.mkDomainResult true Types.exact 100 (Some "database"%string)).
Proof.
  intros Hin Hbloom. apply CheckerFacts.setHas_true in Hin.
  assert (DomainChecker.performDisposableCheck cfg domain
          = Types.mkDomainResult true Types.exact 100 (Some "database"%string)) as Hp.
  { unfold DomainChecker.performDisposableCheck. now rewrite Hbloom, Hin. }
  split; [|split; [exact Hp|]].
  - unfold SimpleDomainChecker.checkDisposableDomain. now rewrite Hbloom, Hin.
  - intros dc Hdc. now rewrite CheckerFacts.checkDisposableDomain_uncached.
Qed.

Lemma exact_hit_wins_witness :
  let filter := ArrayBloomFilter.add (ArrayBloomFilter.new 96 7) "mailinator.com" in
  let cfg := Checker.mkConfig {["mailinator.com"%string]} ∅ ∅ [] false None
               (Some filter) Checker.bloom in
  "mailinator.com"%string ∈ Checker.disposableDomainsSet cfg /\
  Checker.bloomRejects cfg "mailinator.com" = false /\
  SimpleDomainChecker.checkDisposableDomain cfg "mailinator.com"
    = Types.mkDomainResult true Types.exact 100 (Some "database"%string).
Proof.
  intros filter cfg.
  assert ("mailinator.com"%string ∈ Checker.disposableDomainsSet cfg) as H1
    by (simpl; set_solver).
  assert (Checker.bloomRejects cfg "mailinator.com" = false) as H2
    by (vm_compute; reflexivity).
  split; [exact H1|]. split; [exact H2|].
  exact (proj1 (exact_hit_wins cfg "mailinator.com" H1 H2)).
Defined.

(** C4 as stated fails.  "a@mailinator.com" is checked while
    "mailinator.com" is in the disposable set only, and its result is
    cached; then [addToAllowlist("mailinator.com")] puts the domain in the
    allow set as well.  The next [checkEmail] of the address, within the
    ttl, returns the cached result: not allowed, disposable. *)
Lemma allowlist_precedence_counterexample :
  let cfg := DisposableEmailChecker.mkConfig false true false false
               (Checker.mkConfig {["mailinator.com"%string]} ∅ ∅ [] true None None
                  Checker.hash) in
  let ext := DisposableEmailChecker.mkCollaborators
               (fun _ _ _ => (0, [])) (fun _ => Some true) in
  let st0 := DisposableEmailChecker.mkState (MemoryCache.new None None) [] in
  let st1 := snd (DisposableEmailChecker.checkEmail cfg ext
                    (DisposableEmailChecker.mkClock 1000 1001 3) st0 "a@mailinator.com") in
  let cfg' := fst (DisposableEmailChecker.addToAllowlist cfg st1 "mailinator.com") in
  let st2 := snd (DisposableEmailChecker.addToAllowlist cfg st1 "mailinator.com") in
  let out := DisposableEmailChecker.checkEmail cfg' ext
               (DisposableEmailChecker.mkClock 5000 5001 1) st2 "a@mailinator.com" in
  EmailValidator.formatValid (DisposableEmailChecker.strictValidation cfg')
    "a@mailinator.com" = true /\
  EmailValidator.parseEmail "a@mailinator.com"
    = ("a"%string, Some "mailinator.com"%string) /\
  "mailinator.com"%string ∈ Checker.allowlistSet (DisposableEmailChecker.checker cfg') /\
  "mailinator.com"%string
    ∈ Checker.disposableDomainsSet (DisposableEmailChecker.checker cfg') /\
  Types.isAllowed (fst out) = false /\
  Types.isDisposable (fst out) = true.
Proof.
  simpl. split; [vm_compute; reflexivity|]. split; [vm_compute; reflexivity|].
  split; [set_solver|]. split; [set_solver|]. split; vm_compute; reflexivity.
Qed.

(** C4, amended.  Allow-list precedence holds of every result that is
    computed by the call, or was cached under the configuration in force:
    when the result that [checkEmail] takes from the cache, if it takes
    one, was produced for the email under the present lists, then for every
    email that passes format validation and whose parsed domain is in both
    the allow set and the disposable set, [checkEmail] returns
    [isAllowed = true], [isDisposable = false] and confidence 100.  The
    block-list and disposable checks do not run: [isBlacklisted] stays
    false and the domain checker's cache is left as it was. *)
Theorem allowlist_precedence
    (cfg : DisposableEmailChecker.Config) (ext : DisposableEmailChecker.Collaborators)
    (st : DisposableEmailChecker.State) (clock : DisposableEmailChecker.Clock)
    (email localPart domain : string) :
  (forall r, DisposableEmailChecker.cachedResult cfg clock st email = Some r ->
             DisposableEmailChecker.producedFor cfg ext email r) ->
  EmailValidator.formatValid (DisposableEmailChecker.strictValidation cfg) email = true ->
  EmailValidator.parseEmail email = (localPart, Some domain) ->
  domain ∈ Checker.allowlistSet (DisposableEmailChecker.checker cfg) ->
  domain ∈ Checker.disposableDomainsSet (DisposableEmailChecker.checker cfg) ->
  let out := DisposableEmailChecker.checkEmail cfg ext clock st email in
  Types.isAllowed (fst out) = true /\
  Types.isDisposable (fst out) = false /\
  Types.confidence (fst out) = 100 /\
  Types.isValid (fst out) = true /\
  Types.isBlacklisted (fst out) = false /\
  DisposableEmailChecker.domainCache (snd out) = DisposableEmailChecker.domainCache st.
Proof.
  intros Hcached Hvalid Hparse Hallow _ out. subst out.
  destruct (FacadeFacts.performEmailCheck_allowed cfg ext clock
              (DisposableEmailChecker.domainCache st) email localPart domain
              Hvalid Hparse Hallow) as [r1 Hperform].
  destruct (FacadeFacts.checkEmail_result cfg ext clock st email Hcached)
    as [(r0 & Hprod & Hres)|(thrown & Hthrown & _)]; [|congruence].
  destruct (FacadeFacts.produced_allowed cfg ext email r0 localPart domain
              Hprod Hvalid Hparse Hallow) as (Hv & Ha & Hd & Hb & Hc).
  rewrite Hres. simpl.
  repeat (split; [assumption|]).
  unfold DisposableEmailChecker.checkEmail.
  destruct (if DisposableEmailChecker.enableCaching cfg then _ else _) as [[r|] cache1];
    [reflexivity|].
  rewrite Hperform. reflexivity.
Qed.

Lemma allowlist_precedence_witness :
  let cfg := DisposableEmailChecker.mkConfig false true true false
               (Checker.mkConfig {["mailinator.com"%string]} {["mailinator.com"%string]}
                  ∅ [] true None None Checker.hybrid) in
  let ext := DisposableEmailChecker.mkCollaborators
               (fun _ _ _ => (0, [])) (fun _ => Some true) in
  let st0 := DisposableEmailChecker.mkState (MemoryCache.new None None) [] in
  let st1 := snd (DisposableEmailChecker.checkEmail cfg ext
                    (DisposableEmailChecker.mkClock 0 0 0) st0 "User@Mailinator.com") in
  let first := DisposableEmailChecker.checkEmail cfg ext
                 (DisposableEmailChecker.mkClock 0 0 0) st0 "User@Mailinator.com" in
  let again := DisposableEmailChecker.checkEmail cfg ext
                 (DisposableEmailChecker.mkClock 10 10 0) st1 "User@Mailinator.com" in
  EmailValidator.formatValid false "User@Mailinator.com" = true /\
  EmailValidator.parseEmail "User@Mailinator.com" = ("user"%string, Some "mailinator.com"%string) /\
  (Types.isAllowed (fst first) = true /\
   Types.isDisposable (fst first) = false /\
   Types.confidence (fst first) = 100) /\
  (DisposableEmailChecker.cachedResult cfg (DisposableEmailChecker.mkClock 10 10 0) st1
     "User@Mailinator.com" <> None /\
   Types.isAllowed (fst again) = true /\
   Types.isDisposable (fst again) = false /\
   Types.confidence (fst again) = 100).
Proof.
  intros cfg ext st0 st1 first again.
  assert (EmailValidator.formatValid false "User@Mailinator.com" = true) as H1
    by (vm_compute; reflexivity).
  assert (EmailValidator.parseEmail "User@Mailinator.com"
          = ("user"%string, Some "mailinator.com"%string)) as H2
    by (vm_compute; reflexivity).
  split; [exact H1|]. split; [exact H2|]. split.
  - destruct (allowlist_precedence cfg ext st0 (DisposableEmailChecker.mkClock 0 0 0)
                "User@Mailinator.com" "user" "mailinator.com"
                ltac:(intros r Hr; vm_compute in Hr; discriminate) H1 H2
                ltac:(simpl; set_solver) ltac:(simpl; set_solver))
      as (Ha & Hd & Hc & _).
    split; [exact Ha|]. split; [exact Hd|exact Hc].
  - split; [vm_compute; discriminate|].
    destruct (allowlist_precedence cfg ext st1 (DisposableEmailChecker.mkClock 10 10 0)
                "User@Mailinator.com" "user" "mailinator.com"
                (fun r => FacadeFacts.reachable_cachedResult cfg ext _ st1 _ r
                            (DisposableEmailChecker.reachable_checkEmail cfg ext st0 _ _
                               (DisposableEmailChecker.reachable_new cfg ext None None)))
                H1 H2 ltac:(simpl; set_solver) ltac:(simpl; set_solver))
      as (Ha & Hd & Hc & _).
    split; [exact Ha|]. split; [exact Hd|exact Hc].
Defined.

(** C5 as stated fails.  "a@localhost" passes the default format check and
    its result is cached; [updateConfig({ strictValidation: true })] then
    makes the check strict, which the address fails.  The next [checkEmail]
    of the address, within the ttl, returns the cached result: valid, with
    no error. *)
Lemma malformed_email_result_counterexample :
  let cfg := DisposableEmailChecker.mkConfig false true false false
               (Checker.mkConfig {["mailinator.com"%string]} ∅ ∅ [] true None None
                  Checker.hash) in
  let ext := DisposableEmailChecker.mkCollaborators
               (fun _ _ _ => (0, [])) (fun _ => Some true) in
  let st0 := DisposableEmailChecker.mkState (MemoryCache.new None None) [] in
  let st1 := snd (DisposableEmailChecker.checkEmail cfg ext
                    (DisposableEmailChecker.mkClock 1000 1001 3) st0 "a@localhost") in
  let cfg' := DisposableEmailChecker.updateConfig cfg true in
  let r := fst (DisposableEmailChecker.checkEmail cfg' ext
                  (DisposableEmailChecker.mkClock 5000 5001 1) st1 "a@localhost") in
  EmailValidator.formatValid (DisposableEmailChecker.strictValidation cfg') "a@localhost"
    = false /\
  Types.isValid r = true /\
  Types.errors r = [].
Proof. vm_compute. repeat split. Qed.

(** C5, amended.  Malformed input never throws: [checkEmail] returns a
    result for every string (the function is total; what is thrown inside
    is caught).  When the result it takes from the cache, if it takes
    one, was produced for the string under the configuration in force,
    then for every string that fails format validation the result has all
    four flags false, confidence 0 and at least one error message. *)
Theorem malformed_email_result
    (cfg : DisposableEmailChecker.Config) (ext : DisposableEmailChecker.Collaborators)
    (st : DisposableEmailChecker.State) (clock : DisposableEmailChecker.Clock)
    (email : string) :
  (forall r, DisposableEmailChecker.cachedResult cfg clock st email = Some r ->
             DisposableEmailChecker.producedFor cfg ext email r) ->
  EmailValidator.formatValid (DisposableEmailChecker.strictValidation cfg) email = false ->
  let r := fst (DisposableEmailChecker.checkEmail cfg ext clock st email) in
  Types.isValid r = false /\
  Types.isDisposable r = false /\
  Types.isAllowed r = false /\
  Types.isBlacklisted r = false /\
  Types.confidence r = 0 /\
  Types.errors r <> [].
Proof.
  intros Hcached Hinvalid r. subst r.
  destruct (FacadeFacts.checkEmail_result cfg ext clock st email Hcached)
    as [(r0 & Hprod & ->)|(thrown & _ & ->)].
  - exact (FacadeFacts.produced_invalid cfg ext email r0 Hprod Hinvalid).
  - destruct thrown as [message]. simpl. repeat split. discriminate.
Qed.

Lemma malformed_email_result_witness :
  let cfg := DisposableEmailChecker.mkConfig false true true false
               (Checker.mkConfig {["mailinator.com"%string]} ∅ ∅ [] true None None
                  Checker.hybrid) in
  let ext := DisposableEmailChecker.mkCollaborators
               (fun _ _ _ => (0, [])) (fun _ => Some true) in
  let st0 := DisposableEmailChecker.mkState (MemoryCache.new None None) [] in
  let st1 := snd (DisposableEmailChecker.checkEmail cfg ext
                    (DisposableEmailChecker.mkClock 0 0 0) st0 "user@@mailinator.com") in
  let r := fst (DisposableEmailChecker.checkEmail cfg ext
                  (DisposableEmailChecker.mkClock 10 10 0) st1 "user@@mailinator.com") in
  EmailValidator.formatValid false "user@@mailinator.com" = false /\
  DisposableEmailChecker.cachedResult cfg (DisposableEmailChecker.mkClock 10 10 0) st1
    "user@@mailinator.com" <> None /\
  Types.isValid r = false /\
  Types.isDisposable r = false /\
  Types.isAllowed r = false /\
  Types.isBlacklisted r = false /\
  Types.confidence r = 0 /\
  Types.errors r <> [].
Proof.
  intros cfg ext st0 st1 r.
  assert (EmailValidator.formatValid false "user@@mailinator.com" = false) as H1
    by (vm_compute; reflexivity).
  split; [exact H1|]. split; [vm_compute; discriminate|].
  exact (malformed_email_result cfg ext st1 (DisposableEmailChecker.mkClock 10 10 0)
           "user@@mailinator.com"
           (fun r => FacadeFacts.reachable_cachedResult cfg ext _ st1 _ r
                       (DisposableEmailChecker.reachable_checkEmail cfg ext st0 _ _
                          (DisposableEmailChecker.reachable_new cfg ext None None)))
           H1).
Defined.

(** C6. LRU eviction at capacity: a [MemoryCache] built with [maxSize] 2
    that is given the keys "a", "b", "c" in this order, with no read in
    between, has evicted "a" and holds "b" and "c", whatever the results,
    the times of the calls and the TTLs. *)
Theorem lru_eviction_at_capacity
    (configDefaultTtl : option Z) (ra rb rc : Types.EmailValidationResult)
    (ta tb tc : Z) (ttla ttlb ttlc : option Z) :
  let c0 := MemoryCache.new (Some 2) configDefaultTtl in
  let c1 := MemoryCache.set ta c0 "a" ra ttla in
  let c2 := MemoryCache.set tb c1 "b" rb ttlb in
  let c3 := MemoryCache.set tc c2 "c" rc ttlc in
  MemoryCache.has c3 "a" = false /\
  MemoryCache.has c3 "b" = true /\
  MemoryCache.has c3 "c" = true /\
  map fst (MemoryCache.cache c3) = ["b"%string; "c"%string].
Proof. repeat split. Qed.

(** C7. Request coalescing.  Take any state the manager reaches in which
    no promise is pending for [key], then a call of [get(key)], then any
    schedule [during] that runs before that call gets control back (it may
    call [get(key)] any number of times, and do anything for other keys),
    then any schedule [rest] without a new call of [get(key)].  One backing
    call was made for [key] in all that time, every call of [get(key)]
    waits for its promise, and those that have returned carry its value:
    any two of them returned the same result. *)
Theorem request_coalescing (before during rest : list CacheManager.Event) (key : string) :
  let s0 := CacheManager.run CacheManager.initial before in
  Js.mapGet key (CacheManager.pendingOperations s0) = None ->
  ~ In (CacheManager.Resume (CacheManager.nextCall s0)) during ->
  ~ In (CacheManager.Invoke key) rest ->
  let s := CacheManager.run s0 (CacheManager.Invoke key :: during ++ rest) in
  let p0 := CacheManager.nextPromise s0 in
  CacheManager.backingCallsFor key s = CacheManager.backingCallsFor key s0 ++ [(p0, key)] /\
  (forall c, In c (CacheManager.suspended s) ->
             CacheManager.callKey c = key ->
             (CacheManager.nextCall s0 <= CacheManager.callId c)%nat ->
             CacheManager.awaited c = p0) /\
  (forall c v, In (c, v) (CacheManager.returned s) ->
               CacheManager.callKey c = key ->
               (CacheManager.nextCall s0 <= CacheManager.callId c)%nat ->
               CacheManager.awaited c = p0 /\
               CacheManager.settledValue p0 (CacheManager.settled s) = Some v) /\
  (forall c v c' v',
      In (c, v) (CacheManager.returned s) -> In (c', v') (CacheManager.returned s) ->
      CacheManager.callKey c = key -> CacheManager.callKey c' = key ->
      (CacheManager.nextCall s0 <= CacheManager.callId c)%nat ->
      (CacheManager.nextCall s0 <= CacheManager.callId c')%nat ->
      v = v').
Proof.
  intros s0 Hpending Hduring Hrest s p0.
  assert (CacheManager.consistent s0) as Hcons
    by (apply CacheManagerFacts.consistent_run, CacheManagerFacts.consistent_initial).
  pose proof (CacheManagerFacts.coalescing_first s0 key Hcons Hpending) as H1.
  pose proof (CacheManagerFacts.coalescing_run key _ _ _ during _ H1 Hduring) as H2.
  apply CacheManagerFacts.coalescing_sharing in H2.
  pose proof (CacheManagerFacts.sharing_run key _ _ _ rest _ H2 Hrest) as H3.
  assert (s = CacheManager.run
                (CacheManager.run (CacheManager.invoke s0 key) during) rest) as Hs.
  { subst s. simpl. apply CacheManagerFacts.run_app. }
  rewrite <- Hs in H3. destruct H3 as (Hb & _ & Hw & Hret).
  split; [exact Hb|]. split; [exact Hw|]. split; [exact Hret|].
  intros c v c' v' Hc Hc' Hk Hk' Hle Hle'.
  destruct (Hret c v Hc Hk Hle) as [_ Hv].
  destruct (Hret c' v' Hc' Hk' Hle') as [_ Hv'].
  congruence.
Qed.

Lemma request_coalescing_witness :
  let key := "user@example.com"%string in
  let during := [CacheManager.Invoke key; CacheManager.Invoke key;
                 CacheManager.BackendSettles 0 (CacheManager.Fulfilled None);
                 CacheManager.Resume 1] in
  let rest := [CacheManager.Resume 0; CacheManager.Resume 2] in
  let s := CacheManager.run CacheManager.initial (CacheManager.Invoke key :: during ++ rest) in
  Js.mapGet key (CacheManager.pendingOperations CacheManager.initial) = None /\
  ~ In (CacheManager.Resume 0) during /\
  ~ In (CacheManager.Invoke key) rest /\
  CacheManager.backingCallsFor key s = [(0%nat, key)] /\
  map (fun cv => CacheManager.callId (fst cv)) (CacheManager.returned s) = [1; 0; 2]%nat /\
  (forall c v c' v',
      In (c, v) (CacheManager.returned s) -> In (c', v') (CacheManager.returned s) ->
      CacheManager.callKey c = key -> CacheManager.callKey c' = key ->
      (0 <= CacheManager.callId c)%nat -> (0 <= CacheManager.callId c')%nat ->
      v = v').
Proof.
  intros key during rest s.
  assert (~ In (CacheManager.Resume 0) during) as H1
    by (intros [H|[H|[H|[H|[]]]]]; discriminate).
  assert (~ In (CacheManager.Invoke key) rest) as H2
    by (intros [H|[H|[]]]; discriminate).
  split; [reflexivity|]. split; [exact H1|]. split; [exact H2|].
  destruct (request_coalescing [] during rest key eq_refl H1 H2) as (Hb & _ & _ & Heq).
  split; [exact Hb|]. split; [reflexivity|exact Heq].
Defined.

(** C8. Inserting a domain a second time, with another source: the second
    [insert] creates no node (the node count is unchanged and nothing is
    taken from the pool), and the trie then has exactly one terminal node
    for the domain, whose source is the one inserted last.  The domain does
    not begin with the separator (no domain of the data model does); the
    keys of a [Map] are distinct. *)
Theorem insert_twice_last_source_wins
    (root : Trie.TrieNode) (nodePool : PooledTrieIndex.Pool) (d s1 s2 : string) :
  PooledTrieIndex.leadingDot d = false ->
  Trie.uniqueKeys root ->
  exists parts root1 pool1 root2,
    PooledTrieIndex.splitDomainReverse d = Some parts /\
    PooledTrieIndex.insert root nodePool d s1 = Some (root1, pool1) /\
    PooledTrieIndex.insert root1 pool1 d s2 = Some (root2, pool1) /\
    PooledTrieIndex.getStats_nodeCount root2 = PooledTrieIndex.getStats_nodeCount root1 /\
    filter (fun t : list string * string => fst t = parts) (Trie.terminals root2)
      = [(parts, s2)] /\
    length (Trie.terminals root2) = length (Trie.terminals root1) /\
    PooledTrieIndex.has root2 d = Some true /\
    PooledTrieIndex.search root2 d = Some (Trie.mkSearchResult true Trie.exact 100 s2).
Proof.
  intros Hld Hu.
  destruct (SplitFacts.splitDomainReverse_returns d Hld) as (parts & Hsplit & Hne).
  destruct (PooledTrieIndex.insertParts parts s1 root nodePool) as [root1 pool1] eqn:H1.
  destruct (PooledTrieFacts.nodeAt_insertParts parts s1 root nodePool)
    as (c1 & Hat1 & Hend1 & Hsrc1).
  rewrite H1 in Hat1. simpl in Hat1.
  destruct (PooledTrieFacts.insertParts_existing parts s2 root1 pool1 c1 Hat1)
    as (root2 & H2 & Hcnt & Hat2 & Hterm).
  assert (Trie.uniqueKeys root2) as Hu2.
  { pose proof (PooledTrieFacts.uniqueKeys_insertParts parts s1 root nodePool Hu) as Hu1.
    rewrite H1 in Hu1. simpl in Hu1.
    pose proof (PooledTrieFacts.uniqueKeys_insertParts parts s2 root1 pool1 Hu1) as Hu2.
    now rewrite H2 in Hu2. }
  exists parts, root1, pool1, root2.
  unfold PooledTrieIndex.insert, PooledTrieIndex.has, PooledTrieIndex.search,
    PooledTrieIndex.getStats_nodeCount.
  rewrite Hsplit. simpl. rewrite H1, H2.
  split; [reflexivity|]. split; [reflexivity|]. split; [reflexivity|].
  split; [exact Hcnt|]. split; [|split; [|split]].
  - rewrite PathFacts.terminals_at by exact Hu2. now rewrite Hat2.
  - rewrite Hterm, Hend1. lia.
  - rewrite PathFacts.hasParts_nodeAt, Hat2. reflexivity.
  - f_equal. now apply (PathFacts.searchParts_terminal parts root2 _ Hne Hat2).
Qed.

Lemma insert_twice_last_source_wins_witness :
  exists parts root1 pool1 root2,
    PooledTrieIndex.splitDomainReverse "mail.example.com" = Some parts /\
    PooledTrieIndex.insert Trie.newNode [] "mail.example.com" "disposable"
      = Some (root1, pool1) /\
    PooledTrieIndex.insert root1 pool1 "mail.example.com" "blacklisted"
      = Some (root2, pool1) /\
    PooledTrieIndex.getStats_nodeCount root2 = PooledTrieIndex.getStats_nodeCount root1 /\
    filter (fun t : list string * string => fst t = parts) (Trie.terminals root2)
      = [(parts, "blacklisted")] /\
    length (Trie.terminals root2) = length (Trie.terminals root1) /\
    PooledTrieIndex.has root2 "mail.example.com" = Some true /\
    PooledTrieIndex.search root2 "mail.example.com"
      = Some (Trie.mkSearchResult true Trie.exact 100 "blacklisted").
Proof.
  apply (insert_twice_last_source_wins Trie.newNode [] "mail.example.com"
           "disposable" "blacklisted").
  - reflexivity.
  - exact TrieFacts.uniqueKeys_newNode.
Defined.




(** C10 as stated fails: a checker built without trie and Bloom filter
    under the default strategy "hybrid" (what the facade builds in its
    constructor), asked for a subdomain of a disposable domain: the class
    with the cache falls back to the parent-domain walk and matches, the
    class without it only asks the trie and does not. *)
Lemma checkers_differ_counterexample :
  let cfg := Checker.mkConfig {["mailinator.com"%string]} ∅ ∅ [] true None None
               Checker.hybrid in
  Types.isMatch (DomainChecker.performDisposableCheck cfg "x.mailinator.com") = true /\
  Types.isMatch (fst (DomainChecker.checkDisposableDomain cfg [] "x.mailinator.com")) = true /\
  Types.isMatch (SimpleDomainChecker.checkDisposableDomain cfg "x.mailinator.com") = false.
Proof. vm_compute. repeat split. Qed.

(** C10, amended.  On the same configuration the two classes return the
    same [isMatch], [matchType] and [confidence] whenever the strategy is
    "hash" or "trie", or subdomain checking is off, or the Bloom filter
    rejects the domain, or the domain is a member of the disposable set;
    for the class with the cache this is the answer of a lookup that is not
    served from its cache. *)
Theorem checkers_agree (cfg : Checker.Config) (domain : string) :
  (Checker.indexingStrategy cfg = Checker.hash \/
   Checker.indexingStrategy cfg = Checker.trie \/
   Checker.enableSubdomainChecking cfg = false \/
   Checker.bloomRejects cfg domain = true \/
   domain ∈ Checker.disposableDomainsSet cfg) ->
  Checker.sameVerdict (DomainChecker.performDisposableCheck cfg domain)
                      (SimpleDomainChecker.checkDisposableDomain cfg domain) /\
  (forall domainCache,
      Js.mapGet domain domainCache = None ->
      Checker.sameVerdict
        (fst (DomainChecker.checkDisposableDomain cfg domainCache domain))
        (SimpleDomainChecker.checkDisposableDomain cfg domain)).
Proof.
  intros Hcase.
  assert (Checker.sameVerdict (DomainChecker.performDisposableCheck cfg domain)
            (SimpleDomainChecker.checkDisposableDomain cfg domain)) as Hp.
  { unfold DomainChecker.performDisposableCheck,
      SimpleDomainChecker.checkDisposableDomain.
    destruct (Checker.bloomRejects cfg domain) eqn:Hb;
      [apply CheckerFacts.sameVerdict_refl|].
    destruct (Checker.setHas (Checker.disposableDomainsSet cfg) domain) eqn:Hd;
      [apply CheckerFacts.sameVerdict_refl|].
    destruct Hcase as [Hs|[Hs|[Hsub|[Hr|Hin]]]].
    - rewrite Hs. now apply CheckerFacts.agree_hash.
    - rewrite Hs. now apply CheckerFacts.agree_trie.
    - destruct (CheckerFacts.agree_no_subdomains cfg domain Hsub) as (-> & -> & ->).
      apply CheckerFacts.sameVerdict_refl.
    - discriminate.
    - apply CheckerFacts.setHas_true in Hin. congruence. }
  split; [exact Hp|].
  intros dc Hdc. now rewrite CheckerFacts.checkDisposableDomain_uncached.
Qed.

Lemma checkers_agree_witness :
  let cfg := Checker.mkConfig {["mailinator.com"%string]} ∅ ∅ [] true None None
               Checker.hash in
  Checker.indexingStrategy cfg = Checker.hash /\
  Checker.sameVerdict (DomainChecker.performDisposableCheck cfg "x.mailinator.com")
                      (SimpleDomainChecker.checkDisposableDomain cfg "x.mailinator.com") /\
  Types.isMatch (SimpleDomainChecker.checkDisposableDomain cfg "x.mailinator.com") = true.
Proof.
  intros cfg. split; [reflexivity|]. split.
  - exact (proj1 (checkers_agree cfg "x.mailinator.com" (or_introl eq_refl))).
  - vm_compute. reflexivity.
Defined.

(* ===================================================================== *)
(** * Further properties of the code *)
(* ===================================================================== *)

(** ** The suffix tries *)

Section TrieProperties.
Import Js Trie MapFacts SearchFacts Checker ParentFacts DomainFacts ParentDomainFacts
  SplitAgreeFacts.

(** X1. [TrieIndex] (trie-index.ts): a domain that was inserted is found
    again as an exact match with the source it was inserted with; inserting
    [d'] changes the answer for no domain but [d'] and the domains that end
    in ".d'"; and a domain that ends in ".d'" and was not found before is
    found as a subdomain, confidence 85, with the source of [d']. *)
Theorem trie_insert_then_search (root : Trie.TrieNode) (d d' src : string) :
  TrieIndex.search (TrieIndex.insert root d src) d
    = Trie.mkSearchResult true Trie.exact 100 src
  /\
  (d' <> d -> (forall pre, d <> (pre ++ "." ++ d')%string) ->
   TrieIndex.search (TrieIndex.insert root d' src) d = TrieIndex.search root d)
  /\
  ((exists pre, d = (pre ++ "." ++ d')%string) ->
   Trie.found (TrieIndex.search root d) = false ->
   TrieIndex.search (TrieIndex.insert root d' src) d
     = Trie.mkSearchResult true Trie.subdomain 85 src).
Proof.
  split; [|split].
  - now rewrite search_spec, stored_insert_same.
  - intros Hne Hnot. rewrite !search_spec.
    rewrite stored_insert_other by congruence.
    rewrite (firstFound_ext (TrieIndex.stored (TrieIndex.insert root d' src))
               (TrieIndex.stored root));
      [reflexivity|].
    intros p Hp. apply stored_insert_other. intros ->.
    apply afterDots_spec in Hp as [pre Hp]. now apply (Hnot pre).
  - intros Hpar Hnf. apply afterDots_spec in Hpar.
    apply search_not_found in Hnf as [Hd Hp].
    rewrite search_spec, stored_insert_other, Hd
      by (intros ->; now apply (afterDots_ne _ _ Hpar)).
    rewrite (firstFound_only _ _ d' src); [reflexivity|exact Hpar| |].
    + apply stored_insert_same.
    + intros a Ha Hne. rewrite stored_insert_other by exact Hne. now apply Hp.
Qed.

Lemma trie_insert_then_search_witness :
  TrieIndex.search (TrieIndex.insert Trie.newNode "mailinator.com" "disposable")
    "yopmail.com"
  = TrieIndex.search Trie.newNode "yopmail.com"
  /\
  TrieIndex.search (TrieIndex.insert Trie.newNode "mailinator.com" "disposable")
    "mail.mailinator.com" = Trie.mkSearchResult true Trie.subdomain 85 "disposable".
Proof.
  split.
  - apply (trie_insert_then_search Trie.newNode "yopmail.com" "mailinator.com"
             "disposable").
    + discriminate.
    + intros pre H. apply (f_equal String.length) in H.
      rewrite !EmailShapeFacts.length_append in H. simpl in H. lia.
  - apply (trie_insert_then_search Trie.newNode "mail.mailinator.com" "mailinator.com"
             "disposable").
    + now exists "mail"%string.
    + reflexivity.
Defined.

(** X2. The two [TrieIndex] classes agree on every domain that does not
    begin with ".": [splitDomainReverse] of part_002 returns the labels
    that [split(".").reverse()] of trie-index.ts returns, so [search] gives
    the same answer and [insert] builds the same trie, whatever the node
    pool holds. *)
Theorem trie_classes_agree
    (root : Trie.TrieNode) (nodePool : PooledTrieIndex.Pool) (d src : string) :
  PooledTrieIndex.leadingDot d = false ->
  PooledTrieIndex.splitDomainReverse d = Some (TrieIndex.reverseParts d) /\
  PooledTrieIndex.search root d = Some (TrieIndex.search root d) /\
  fst <$> PooledTrieIndex.insert root nodePool d src = Some (TrieIndex.insert root d src).
Proof.
  intros Hld. unfold PooledTrieIndex.search, PooledTrieIndex.insert.
  rewrite splitDomainReverse_reverseParts by exact Hld. simpl.
  split; [reflexivity|]. split; [reflexivity|].
  f_equal. apply pooled_insertParts.
Qed.

Lemma trie_classes_agree_witness :
  let root := TrieIndex.insert Trie.newNode "mailinator.com" "disposable" in
  PooledTrieIndex.splitDomainReverse "a..b.mailinator.com"
  = Some (TrieIndex.reverseParts "a..b.mailinator.com") /\
  PooledTrieIndex.search root "a..b.mailinator.com"
  = Some (TrieIndex.search root "a..b.mailinator.com") /\
  fst <$> PooledTrieIndex.insert root [] "a..b.mailinator.com" "disposable"
  = Some (TrieIndex.insert root "a..b.mailinator.com" "disposable").
Proof.
  intros root. apply (trie_classes_agree root [] "a..b.mailinator.com" "disposable").
  reflexivity.
Defined.

(** X3. [has] of the pooled trie (part_002) is membership: after a
    sequence of [insert] calls, [has(d)] is true exactly when [d] was
    inserted by one of them or was there before, and an empty trie holds
    nothing.  No domain begins with "." (on such a domain the calls do not
    return). *)
Theorem pooled_has_is_membership
    (root : Trie.TrieNode) (nodePool : PooledTrieIndex.Pool)
    (entries : list (string * string)) (d : string) :
  Forall (fun e => PooledTrieIndex.leadingDot (fst e) = false) entries ->
  PooledTrieIndex.leadingDot d = false ->
  exists before root' nodePool',
    PooledTrieIndex.has root d = Some before /\
    PooledTrieIndex.insertAll root nodePool entries = Some (root', nodePool') /\
    PooledTrieIndex.has root' d = Some (bool_decide (d ∈ map fst entries) || before) /\
    PooledTrieIndex.has Trie.newNode d = Some false.
Proof.
  intros Hall Hld.
  destruct (PooledHasFacts.insertAll_stored entries Hall root nodePool)
    as (root' & pool' & Hins & Hst).
  exists (bool_decide (is_Some (TrieIndex.stored root d))), root', pool'.
  rewrite !PooledHasFacts.has_stored by exact Hld.
  split; [reflexivity|]. split; [exact Hins|]. split.
  - f_equal. apply eq_true_iff_eq.
    rewrite orb_true_iff, !bool_decide_eq_true, Hst, list_elem_of_In. reflexivity.
  - rewrite stored_newNode. reflexivity.
Qed.

Lemma pooled_has_is_membership_witness :
  exists before root' nodePool',
    PooledTrieIndex.has Trie.newNode "example.org" = Some before /\
    PooledTrieIndex.insertAll Trie.newNode []
      [("a.example.org", "disposable"); ("example.org", "allowed")]%string
      = Some (root', nodePool') /\
    PooledTrieIndex.has root' "example.org"
      = Some (bool_decide ("example.org"%string
                              ∈ map fst [("a.example.org", "disposable");
                                         ("example.org", "allowed")]%string) || before) /\
    PooledTrieIndex.has Trie.newNode "example.org" = Some false.
Proof.
  apply (pooled_has_is_membership Trie.newNode []
           [("a.example.org", "disposable"); ("example.org", "allowed")]%string
           "example.org").
  - repeat constructor.
  - reflexivity.
Defined.

(** X4. [clear] of the pooled trie (part_002) leaves an empty trie and
    offers every node below the old root to the pool, which takes them
    until it holds 10000: the pool grows by the number of those nodes, up
    to that limit, and never shrinks. *)
Theorem clear_returns_nodes_to_pool
    (root : Trie.TrieNode) (nodePool : PooledTrieIndex.Pool) :
  fst (PooledTrieIndex.clear root nodePool) = Trie.newNode /\
  Z.of_nat (length (snd (PooledTrieIndex.clear root nodePool)))
  = Z.max (Z.of_nat (length nodePool))
          (Z.min 10000
             (Z.of_nat (length nodePool)
              + (Z.of_nat (PooledTrieIndex.getStats_nodeCount root) - 1))).
Proof. split; [reflexivity|]. apply PoolFacts.length_clearNode. Qed.

End TrieProperties.

(** ** The index the facade builds *)

Section IndexProperties.
Import Js Trie MapFacts SearchFacts Checker ParentFacts DomainFacts ParentDomainFacts
  Types BuildFacts.

(** X5. The checker the facade builds ([initialize]: [buildIndex], then
    [updateComponents]) reports every domain of the disposable set as an
    exact match, confidence 100, source "database", under every strategy
    and with or without indexing: the Bloom filter of [buildBloomFilter]
    holds every domain of the set, so that it rejects none of them. *)
Theorem built_checker_reports_members
    (data : DisposableEmailChecker.Data) (trustedDomains : list string)
    (enableSubdomainChecking enableIndexing : bool)
    (strategy : Checker.Strategy) (m : Z) (k : nat) (d : string) :
  0 < m \/ k = 0%nat ->
  In d (DisposableEmailChecker.disposableDomains data) ->
  let cfg := DisposableEmailChecker.initialChecker data trustedDomains
               enableSubdomainChecking enableIndexing strategy m k in
  DomainChecker.performDisposableCheck cfg d
    = Types.mkDomainResult true Types.exact 100 (Some "database"%string) /\
  SimpleDomainChecker.checkDisposableDomain cfg d
    = Types.mkDomainResult true Types.exact 100 (Some "database"%string).
Proof.
  intros Hwf Hin cfg.
  assert (bloomRejects cfg d = false) as Hb.
  { unfold bloomRejects, cfg, DisposableEmailChecker.initialChecker,
      DisposableEmailChecker.updateComponents, DisposableEmailChecker.buildIndex.
    destruct enableIndexing; [|reflexivity].
    destruct strategy; simpl; try reflexivity;
      unfold DisposableEmailChecker.buildBloomFilter;
      rewrite contains_fold_add; try reflexivity;
      apply contains_fold_add_in; try exact Hwf; now apply list_elem_of_In. }
  assert (setHas (disposableDomainsSet cfg) d = true) as Hs.
  { apply CheckerFacts.setHas_true.
    unfold cfg, DisposableEmailChecker.initialChecker,
      DisposableEmailChecker.updateComponents. simpl.
    apply elem_of_list_to_set. now apply list_elem_of_In. }
  unfold DomainChecker.performDisposableCheck, SimpleDomainChecker.checkDisposableDomain.
  now rewrite Hb, Hs.
Qed.

Lemma built_checker_reports_members_witness :
  let cfg := DisposableEmailChecker.initialChecker
               (DisposableEmailChecker.mkData
                  ["10minutemail.com"; "mailinator.com"]%string [] [])
               ["gmail.com"%string] true true Checker.hybrid 20 7 in
  DomainChecker.performDisposableCheck cfg "mailinator.com"
    = Types.mkDomainResult true Types.exact 100 (Some "database"%string) /\
  SimpleDomainChecker.checkDisposableDomain cfg "mailinator.com"
    = Types.mkDomainResult true Types.exact 100 (Some "database"%string).
Proof.
  apply (built_checker_reports_members
           (DisposableEmailChecker.mkData
              ["10minutemail.com"; "mailinator.com"]%string [] [])
           ["gmail.com"%string] true true Checker.hybrid 20 7 "mailinator.com").
  - left. lia.
  - simpl. tauto.
Defined.

(** X6. The strategies "trie" and "hash" give the same verdict when the
    index is built or subdomain checking is off.  Take the checkers the
    facade builds from the same data under the two strategies, with
    [enableIndexing] set or [enableSubdomainChecking] unset, and a domain
    that is not itself on the allow list or the blacklist and ends in no
    ".p" with [p] on one of them: [performDisposableCheck] returns the
    same [isMatch], [matchType] and [confidence], as the trie of
    [buildTrieIndex] finds the parent domains that the walk over the
    disposable set finds.  With [enableIndexing] unset no trie is built,
    and under the strategy "trie" every domain outside the disposable set
    gets no match, whatever its parents. *)
Theorem trie_and_hash_strategies_agree
    (data : DisposableEmailChecker.Data) (trustedDomains : list string)
    (enableSubdomainChecking enableIndexing : bool) (m : Z) (k : nat) (d : string) :
  (enableIndexing = true \/ enableSubdomainChecking = false ->
   (forall p, p = d \/ (exists pre, d = (pre ++ "." ++ p)%string) ->
              ~ In p (DisposableEmailChecker.allowlist data) /\
              ~ In p (DisposableEmailChecker.blacklist data)) ->
   Checker.sameVerdict
     (DomainChecker.performDisposableCheck
        (DisposableEmailChecker.initialChecker data trustedDomains
           enableSubdomainChecking enableIndexing Checker.trie m k) d)
     (DomainChecker.performDisposableCheck
        (DisposableEmailChecker.initialChecker data trustedDomains
           enableSubdomainChecking enableIndexing Checker.hash m k) d))
  /\
  (enableIndexing = false ->
   ~ In d (DisposableEmailChecker.disposableDomains data) ->
   DomainChecker.performDisposableCheck
     (DisposableEmailChecker.initialChecker data trustedDomains
        enableSubdomainChecking enableIndexing Checker.trie m k) d
   = Types.noMatch).
Proof.
  assert (forall l, setHas (list_to_set l) d = false <-> ~ In d l) as Hmem.
  { intros l. unfold setHas. rewrite bool_decide_eq_false, elem_of_list_to_set,
      list_elem_of_In. reflexivity. }
  split.
  - intros Hidx Hfree.
    unfold DomainChecker.performDisposableCheck, DisposableEmailChecker.initialChecker,
      DisposableEmailChecker.updateComponents, DisposableEmailChecker.buildIndex,
      bloomRejects.
    destruct enableIndexing; simpl.
    + destruct (setHas (list_to_set (DisposableEmailChecker.disposableDomains data)) d)
        eqn:Hd; [apply CheckerFacts.sameVerdict_refl|].
      unfold DomainChecker.checkWithTrie, DomainChecker.checkWithHash. simpl.
      destruct enableSubdomainChecking; simpl; [|apply CheckerFacts.sameVerdict_refl].
      rewrite cached_anyParent, search_spec, stored_buildTrieIndex.
      assert (forall p, p = d \/ In p (afterDots d) ->
                TrieIndex.stored (DisposableEmailChecker.buildTrieIndex data) p
                = if setHas (list_to_set (DisposableEmailChecker.disposableDomains data)) p
                  then Some "disposable"%string else None) as Hst.
      { intros p Hp. rewrite stored_buildTrieIndex.
        destruct (Hfree p) as [Ha Hb].
        { destruct Hp as [->|Hp]; [now left|right; now apply afterDots_spec]. }
        rewrite !bool_decide_eq_false_2 by (rewrite list_elem_of_In; assumption).
        unfold setHas.
        rewrite (bool_decide_ext (p ∈ DisposableEmailChecker.disposableDomains data)
                   (p ∈ (list_to_set (DisposableEmailChecker.disposableDomains data)
                         : gset string)));
          [reflexivity|]. now rewrite elem_of_list_to_set. }
      rewrite <- stored_buildTrieIndex, (Hst d) by now left. rewrite Hd.
      rewrite (firstFound_ext _
                 (fun p => if setHas (list_to_set
                                        (DisposableEmailChecker.disposableDomains data)) p
                           then Some "disposable"%string else None))
        by (intros p Hp; apply Hst; now right).
      clear Hst Hfree.
      induction (afterDots d) as [|p l IH]; simpl; [apply CheckerFacts.sameVerdict_refl|].
      destruct (setHas (list_to_set (DisposableEmailChecker.disposableDomains data)) p);
        simpl.
      * repeat split.
      * exact IH.
    + destruct Hidx as [Hidx| ->]; [discriminate|].
      destruct (setHas (list_to_set (DisposableEmailChecker.disposableDomains data)) d);
        apply CheckerFacts.sameVerdict_refl.
  - intros -> Hd. apply Hmem in Hd.
    unfold DomainChecker.performDisposableCheck, DisposableEmailChecker.initialChecker,
      DisposableEmailChecker.updateComponents, bloomRejects. simpl.
    rewrite Hd. reflexivity.
Qed.

Lemma trie_and_hash_strategies_agree_witness :
  let data := DisposableEmailChecker.mkData ["mailinator.com"%string] [] [] in
  Checker.sameVerdict
    (DomainChecker.performDisposableCheck
       (DisposableEmailChecker.initialChecker data [] true true Checker.trie 0 0)
       "mail.mailinator.com")
    (DomainChecker.performDisposableCheck
       (DisposableEmailChecker.initialChecker data [] true true Checker.hash 0 0)
       "mail.mailinator.com") /\
  DomainChecker.performDisposableCheck
    (DisposableEmailChecker.initialChecker data [] true false Checker.trie 0 0)
    "mail.mailinator.com" = Types.noMatch /\
  DomainChecker.performDisposableCheck
    (DisposableEmailChecker.initialChecker data [] true false Checker.hash 0 0)
    "mail.mailinator.com" = Types.mkDomainResult true Types.subdomain 85 (Some "hash"%string).
Proof.
  split; [|split].
  - apply (proj1 (trie_and_hash_strategies_agree
                    (DisposableEmailChecker.mkData ["mailinator.com"%string] [] [])
                    [] true true 0 0 "mail.mailinator.com")).
    + now left.
    + intros p _. simpl. tauto.
  - apply (proj2 (trie_and_hash_strategies_agree
                    (DisposableEmailChecker.mkData ["mailinator.com"%string] [] [])
                    [] true false 0 0 "mail.mailinator.com")).
    + reflexivity.
    + simpl. intros [H|[]]. discriminate H.
  - vm_compute. reflexivity.
Defined.

End IndexProperties.

(** ** The LRU cache *)

Section MemoryCacheProperties.
Import Js Types MapFacts MemoryCacheFacts LruFacts.

(** X7. [MemoryCache] (part_006) never holds more than [maxSize] entries:
    after any sequence of [get], [set], [delete], [clear] and [cleanup]
    calls on a new cache, with any clock readings, the [Map] has at most
    [config.maxSize || 10000] entries (none when that number is negative),
    under distinct keys. *)
Theorem cache_size_within_maxSize
    (configMaxSize configDefaultTtl : option Z) (calls : list MemoryCache.Call) :
  let c := fold_left MemoryCache.after calls
             (MemoryCache.new configMaxSize configDefaultTtl) in
  Z.of_nat (length (MemoryCache.cache c))
    <= Z.max 0 (MemoryCache.orDefault configMaxSize 10000) /\
  NoDup (map fst (MemoryCache.cache c)).
Proof.
  intros c.
  destruct (bounded_run calls _ (bounded_new configMaxSize configDefaultTtl)) as [Hnd Hsz].
  fold c in Hnd, Hsz. unfold c in Hsz at 2. rewrite maxSize_run in Hsz.
  split; assumption.
Qed.

(** X8. [set] then [get] on [MemoryCache]: when the cache has room, or is
    full with an oldest key other than the empty string, a [get] of the
    key that was just [set] returns the stored result as long as the time
    since the [set] is at most the entry's ttl ([ttl || defaultTtl]), and
    null after that. *)
Theorem set_then_get
    (now now' : Z) (c : MemoryCache.t) (key : string) (r : Types.EmailValidationResult)
    (ttlArg : option Z) :
  Z.of_nat (length (MemoryCache.cache c)) < MemoryCache.maxSize c \/
  (exists oldestKey e rest,
      MemoryCache.cache c = (oldestKey, e) :: rest /\ oldestKey <> ""%string) ->
  let ttl := MemoryCache.orDefault ttlArg (MemoryCache.defaultTtl c) in
  fst (MemoryCache.get now' (MemoryCache.set now c key r ttlArg) key)
  = if negb (ttl =? 0) && (ttl <? now' - now) then None else Some r.
Proof.
  intros Hstore ttl.
  assert (mapGet key (MemoryCache.cache (MemoryCache.set now c key r ttlArg))
          = Some (MemoryCache.mkEntry r now 0 ttl)) as Hg.
  { unfold MemoryCache.set.
    destruct (Z.leb_spec (MemoryCache.maxSize c) (Z.of_nat (length (MemoryCache.cache c))))
      as [Hfull|Hroom].
    - destruct Hstore as [Hlt|(k & e & rest & Hc & Hk)]; [lia|].
      rewrite Hc. apply String.eqb_neq in Hk. rewrite Hk. simpl.
      apply mapGet_mapSet_eq.
    - simpl. apply mapGet_mapSet_eq. }
  unfold MemoryCache.get. rewrite Hg. simpl.
  now destruct (negb (ttl =? 0) && (ttl <? now' - now)).
Qed.

Lemma set_then_get_witness :
  let r := Types.mkResult "a@b.co" true false false false "b.co" "a" Types.none 0 None 1
             [] [] in
  fst (MemoryCache.get 1500
         (MemoryCache.set 1000 (MemoryCache.new (Some 2) None) "a@b.co" r (Some 600))
         "a@b.co") = Some r /\
  fst (MemoryCache.get 1601
         (MemoryCache.set 1000 (MemoryCache.new (Some 2) None) "a@b.co" r (Some 600))
         "a@b.co") = None.
Proof.
  intros r. split.
  - apply (set_then_get 1000 1500 (MemoryCache.new (Some 2) None) "a@b.co" r (Some 600)).
    left. simpl. lia.
  - apply (set_then_get 1000 1601 (MemoryCache.new (Some 2) None) "a@b.co" r (Some 600)).
    left. simpl. lia.
Defined.

(** X9. A full [MemoryCache] whose oldest key is the empty string stores
    nothing any more: [set] reads the oldest key, takes [!oldestKey] for
    "no key" and returns, so that every later [set], for any key, leaves
    the cache as it is. *)
Theorem full_cache_with_empty_oldest_key_ignores_set
    (c : MemoryCache.t) (e : MemoryCache.CacheEntry)
    (rest : list (string * MemoryCache.CacheEntry))
    (calls : list (Z * string * Types.EmailValidationResult * option Z)) :
  MemoryCache.cache c = (""%string, e) :: rest ->
  MemoryCache.maxSize c <= Z.of_nat (length (MemoryCache.cache c)) ->
  fold_left (fun c' '(now, key, r, ttlArg) => MemoryCache.set now c' key r ttlArg) calls c
  = c.
Proof.
  intros Hc Hfull. induction calls as [|[[[now key] r] ttlArg] calls IH]; [reflexivity|].
  simpl. replace (MemoryCache.set now c key r ttlArg) with c; [exact IH|].
  unfold MemoryCache.set.
  destruct (Z.leb_spec (MemoryCache.maxSize c) (Z.of_nat (length (MemoryCache.cache c))));
    [|lia].
  now rewrite Hc.
Qed.

Lemma full_cache_with_empty_oldest_key_ignores_set_witness :
  let r := Types.mkResult "" false false false false "" "" Types.none 0 None 1
             ["Invalid email format"%string] [] in
  let c := MemoryCache.set 1000 (MemoryCache.new (Some 1) None) "" r None in
  fold_left (fun c' '(now, key, r, ttlArg) => MemoryCache.set now c' key r ttlArg)
    [(2000, "a@b.co"%string, r, None); (3000, "c@d.co"%string, r, None)] c = c.
Proof.
  intros r c.
  apply (full_cache_with_empty_oldest_key_ignores_set c
           (MemoryCache.mkEntry r 1000 0 (24 * 60 * 60 * 1000)) []).
  - reflexivity.
  - simpl. lia.
Defined.

(** X10. A hit protects an entry from the next eviction: after [get(key)]
    returned a result, in a cache of at least two entries, a [set] of
    another key leaves [key] in the cache, whether or not it evicts. *)
Theorem read_entry_is_not_the_next_evicted
    (now now' : Z) (c : MemoryCache.t) (key key' : string)
    (r r' : Types.EmailValidationResult) (ttlArg : option Z) :
  NoDup (map fst (MemoryCache.cache c)) ->
  (2 <= length (MemoryCache.cache c))%nat ->
  fst (MemoryCache.get now c key) = Some r ->
  key' <> key ->
  MemoryCache.has (MemoryCache.set now' (snd (MemoryCache.get now c key)) key' r' ttlArg) key
  = true.
Proof.
  intros Hnd Hlen Hhit Hne.
  destruct (get_hit_moves_last now c key r Hnd Hlen Hhit)
    as ([entry Hg] & k0 & e0 & rest & Hc & Hk0).
  unfold MemoryCache.has, mapHas, MemoryCache.set.
  destruct (MemoryCache.maxSize (snd (MemoryCache.get now c key))
            <=? Z.of_nat (length (MemoryCache.cache (snd (MemoryCache.get now c key))))).
  - rewrite Hc. destruct (String.eqb k0 ""); [now rewrite Hg|].
    cbn [MemoryCache.cache]. rewrite <- Hc.
    rewrite mapGet_mapSet_ne, mapGet_mapDelete_ne, Hg by congruence. reflexivity.
  - cbn [MemoryCache.cache]. rewrite mapGet_mapSet_ne, Hg by congruence. reflexivity.
Qed.

Lemma read_entry_is_not_the_next_evicted_witness :
  let r := Types.mkResult "a@b.co" true false false false "b.co" "a" Types.none 0 None 1
             [] [] in
  let c := MemoryCache.set 2 (MemoryCache.set 1 (MemoryCache.new (Some 2) None) "a" r None)
             "b" r None in
  MemoryCache.has (MemoryCache.set 4 (snd (MemoryCache.get 3 c "a")) "c" r None) "a" = true /\
  MemoryCache.has (MemoryCache.set 4 (snd (MemoryCache.get 3 c "a")) "c" r None) "b" = false.
Proof.
  intros r c. split; [|reflexivity].
  apply (read_entry_is_not_the_next_evicted 3 4 c "a" "c" r r None).
  - apply (bool_decide_unpack _). vm_compute. exact I.
  - simpl. lia.
  - reflexivity.
  - discriminate.
Defined.

(** X11. [cleanup(ttlMs)] removes exactly the entries that have a ttl and
    whose age exceeds the threshold [ttlMs || defaultTtl] (it does not
    compare with the entry's own ttl), returns how many they are, and keeps
    the other entries in their order. *)
Theorem cleanup_removes_entries_older_than_threshold
    (now : Z) (c : MemoryCache.t) (ttlMs : option Z) :
  NoDup (map fst (MemoryCache.cache c)) ->
  let threshold := MemoryCache.orDefault ttlMs (MemoryCache.defaultTtl c) in
  let old (p : string * MemoryCache.CacheEntry) :=
    negb (MemoryCache.ttl (snd p) =? 0)
    && (threshold <? now - MemoryCache.timestamp (snd p)) in
  fst (MemoryCache.cleanup now c ttlMs)
    = Z.of_nat (length (List.filter old (MemoryCache.cache c))) /\
  MemoryCache.cache (snd (MemoryCache.cleanup now c ttlMs))
    = List.filter (fun p => negb (old p)) (MemoryCache.cache c).
Proof.
  intros Hnd threshold old. rewrite cleanup_spec by exact Hnd. split; reflexivity.
Qed.

Lemma cleanup_removes_entries_older_than_threshold_witness :
  let r := Types.mkResult "a@b.co" true false false false "b.co" "a" Types.none 0 None 1
             [] [] in
  let c := MemoryCache.set 900 (MemoryCache.set 100 (MemoryCache.new None None) "a" r (Some 5000))
             "b" r (Some 50) in
  fst (MemoryCache.cleanup 1000 c (Some 500)) = 1 /\
  map fst (MemoryCache.cache (snd (MemoryCache.cleanup 1000 c (Some 500)))) = ["b"%string].
Proof.
  intros r c.
  destruct (cleanup_removes_entries_older_than_threshold 1000 c (Some 500)) as [Hn Hc].
  - apply (bool_decide_unpack _). vm_compute. exact I.
  - rewrite Hn, Hc. split; reflexivity.
Defined.

End MemoryCacheProperties.

(** ** The allow list, the blacklist and the domain cache *)

Section DomainCheckerProperties.
Import Js Types Checker MapFacts DomainCacheFacts ParentFacts ParentDomainFacts.

(** X12. The domain cache of [DomainChecker] (domain-checker.ts) does not
    change any answer and stays within [CACHE_SIZE_LIMIT]: after any
    sequence of [checkDisposableDomain], [addToAllowlist],
    [addToBlacklist], [removeFromAllowlist], [removeFromBlacklist] and
    [clearCache] calls on a new checker, each made when the one before
    has returned, the cache holds at most 5000 domains and
    [checkDisposableDomain] returns what [performDisposableCheck]
    computes. *)
Theorem domain_cache_is_transparent
    (cfg : Checker.Config) (calls : list DomainChecker.Call) (domain : string) :
  let st := fold_left DomainChecker.after calls (DomainChecker.mkState cfg []) in
  Z.of_nat (length (DomainChecker.cached st)) <= 5000 /\
  fst (DomainChecker.checkDisposableDomain
         (DomainChecker.config st) (DomainChecker.cached st) domain)
  = DomainChecker.performDisposableCheck cfg domain.
Proof.
  intros st. destruct (cacheInv_run cfg calls _ (cacheInv_new cfg)) as (Hcfg & Hsz & Hs).
  fold st in Hcfg, Hsz, Hs. split; [exact Hsz|].
  unfold DomainChecker.checkDisposableDomain.
  destruct (mapGet domain (DomainChecker.cached st)) as [hit|] eqn:Hg; simpl.
  - apply Hs. now apply mapGet_Some_in.
  - apply Hcfg.
Qed.

(** X13. The two [DomainChecker] classes (domain-checker.ts and part_004)
    give the same answers on the allow list and on the blacklist: the
    parent domains that the first one cuts off with [indexOf] and
    [slice] are those the second one joins from [split(".")]. *)
Theorem list_checks_agree (cfg : Checker.Config) (domain : string) :
  DomainChecker.checkAllowlist cfg domain = SimpleDomainChecker.checkAllowlist cfg domain /\
  DomainChecker.checkBlacklist cfg domain = SimpleDomainChecker.checkBlacklist cfg domain.
Proof.
  unfold DomainChecker.checkAllowlist, SimpleDomainChecker.checkAllowlist,
    DomainChecker.checkBlacklist, SimpleDomainChecker.checkBlacklist,
    DomainChecker.checkSubdomainAllowlist, DomainChecker.checkSubdomainBlacklist.
  rewrite !anyParent_agree. split.
  - destruct (setHas (allowlistSet cfg) domain), (includes (trustedDomains cfg) domain);
      reflexivity.
  - destruct (setHas (blacklistSet cfg) domain); [reflexivity|].
    destruct (enableSubdomainChecking cfg); [|reflexivity]. simpl.
    now destruct (SimpleDomainChecker.anyParent _ _).
Qed.

(** X14. What the list checks decide, with "[p] is a parent of the
    domain" meaning that the domain ends in ".p".  [checkAllowlist] holds
    exactly when the domain is on the allow list or trusted, or subdomain
    checking is on and a parent is.  [checkBlacklist] returns an exact
    match, confidence 100, for a domain on the blacklist; else a subdomain
    match, confidence 90, when subdomain checking is on and a parent is on
    the blacklist; and no match in every other case. *)
Theorem list_checks_by_parent_domain (cfg : Checker.Config) (domain : string) :
  let parent (p : string) := exists pre, domain = (pre ++ "." ++ p)%string in
  (DomainChecker.checkAllowlist cfg domain = true <->
   (domain ∈ Checker.allowlistSet cfg \/ domain ∈ Checker.trustedDomains cfg) \/
   (Checker.enableSubdomainChecking cfg = true /\
    exists p, parent p /\ (p ∈ Checker.allowlistSet cfg \/ p ∈ Checker.trustedDomains cfg)))
  /\
  (domain ∈ Checker.blacklistSet cfg ->
   DomainChecker.checkBlacklist cfg domain = Types.mkDomainResult true Types.exact 100 None)
  /\
  (domain ∉ Checker.blacklistSet cfg -> Checker.enableSubdomainChecking cfg = true ->
   (exists p, parent p /\ p ∈ Checker.blacklistSet cfg) ->
   DomainChecker.checkBlacklist cfg domain
   = Types.mkDomainResult true Types.subdomain 90 None)
  /\
  (domain ∉ Checker.blacklistSet cfg ->
   Checker.enableSubdomainChecking cfg = false \/
   ~ (exists p, parent p /\ p ∈ Checker.blacklistSet cfg) ->
   DomainChecker.checkBlacklist cfg domain = Types.noMatch).
Proof.
  intros parent.
  assert (forall test : string -> bool,
             DomainChecker.anyParent test domain = true <-> exists p, parent p /\ test p = true)
    as Hany.
  { intros test. rewrite cached_anyParent, existsb_exists. unfold parent.
    split; intros (p & Hp & Ht); exists p; (split; [|exact Ht]); now apply afterDots_spec. }
  unfold DomainChecker.checkAllowlist, DomainChecker.checkBlacklist,
    DomainChecker.checkSubdomainAllowlist, DomainChecker.checkSubdomainBlacklist.
  split; [|split; [|split]].
  - destruct (setHas (allowlistSet cfg) domain || includes (trustedDomains cfg) domain) eqn:Hd.
    + split; [intros _|reflexivity]. left.
      apply orb_true_iff in Hd as [Hd|Hd]; [left|right].
      * now apply CheckerFacts.setHas_true.
      * unfold includes in Hd. now apply bool_decide_eq_true in Hd.
    + apply orb_false_iff in Hd as [Ha Ht].
      assert (~ (domain ∈ allowlistSet cfg \/ domain ∈ trustedDomains cfg)) as Hnot.
      { intros [H|H].
        - apply CheckerFacts.setHas_true in H. congruence.
        - unfold includes in Ht. apply bool_decide_eq_false in Ht. contradiction. }
      destruct (enableSubdomainChecking cfg).
      * rewrite Hany. split.
        -- intros (p & Hp & Htest). right. split; [reflexivity|]. exists p. split; [exact Hp|].
           apply orb_true_iff in Htest as [H|H]; [left|right].
           ++ now apply CheckerFacts.setHas_true.
           ++ unfold includes in H. now apply bool_decide_eq_true in H.
        -- intros [H|(_ & p & Hp & Hin)]; [contradiction|]. exists p. split; [exact Hp|].
           apply orb_true_iff. destruct Hin as [H|H]; [left|right].
           ++ now apply CheckerFacts.setHas_true.
           ++ unfold includes. now apply bool_decide_eq_true.
      * split; [discriminate|]. intros [H|[H _]]; [contradiction|discriminate].
  - intros Hin. apply CheckerFacts.setHas_true in Hin. now rewrite Hin.
  - intros Hnin Hsub (p & Hp & Hin).
    destruct (setHas (blacklistSet cfg) domain) eqn:Hd;
      [apply CheckerFacts.setHas_true in Hd; contradiction|].
    rewrite Hsub.
    assert (DomainChecker.anyParent (setHas (blacklistSet cfg)) domain = true) as ->.
    { apply Hany. exists p. split; [exact Hp|]. now apply CheckerFacts.setHas_true. }
    reflexivity.
  - intros Hnin Hno.
    destruct (setHas (blacklistSet cfg) domain) eqn:Hd;
      [apply CheckerFacts.setHas_true in Hd; contradiction|].
    destruct (enableSubdomainChecking cfg); [|reflexivity].
    destruct Hno as [Hno|Hno]; [discriminate|].
    destruct (DomainChecker.anyParent (setHas (blacklistSet cfg)) domain) eqn:Hp;
      [|reflexivity].
    exfalso. apply Hno. apply Hany in Hp as (p & Hp & Ht). exists p. split; [exact Hp|].
    now apply CheckerFacts.setHas_true.
Qed.

Lemma list_checks_by_parent_domain_witness :
  let cfg := Checker.mkConfig ∅ {["example.org"%string]} {["spam.example.net"%string]}
               ["gmail.com"%string] true None None Checker.hash in
  DomainChecker.checkBlacklist cfg "mail.spam.example.net"
  = Types.mkDomainResult true Types.subdomain 90 None /\
  DomainChecker.checkAllowlist cfg "eu.mail.gmail.com" = true.
Proof.
  intros cfg. split.
  - apply (list_checks_by_parent_domain cfg "mail.spam.example.net").
    + simpl. set_solver.
    + reflexivity.
    + exists "spam.example.net"%string. split; [now exists "mail"%string|].
      simpl. set_solver.
  - apply (list_checks_by_parent_domain cfg "eu.mail.gmail.com").
    right. split; [reflexivity|]. exists "gmail.com"%string.
    split; [now exists "eu.mail"%string|]. right. simpl. set_solver.
Defined.

End DomainCheckerProperties.

(** ** Email format *)

Section ValidatorProperties.
Import Js Regex RegexFacts EmailValidator DomainFacts EmailShapeFacts ValidatorFacts.

(** X15. Format validation never throws.  [validateEmailFormat] of the
    simple validator (email-validator.ts lines 27-54) returns for every
    string, with exactly one error message when the address is not valid:
    an address the regular expression accepts has one "@", so that both
    parts of [email.split("@")] are defined.  Hence [performEmailCheck]
    returns a result for every string as well, and the [catch] of
    [checkEmail] is never entered on its account. *)
Theorem validation_never_throws
    (cfg : DisposableEmailChecker.Config) (ext : DisposableEmailChecker.Collaborators)
    (clock : DisposableEmailChecker.Clock) (dc : DomainChecker.DomainCache)
    (email : string) :
  (exists (valid : bool) (errors : list string),
      EmailValidator.validateEmailFormat (DisposableEmailChecker.strictValidation cfg) email
      = inr (valid, errors) /\
      (valid = false -> exists message, errors = [message])) /\
  (exists r dc', DisposableEmailChecker.performEmailCheck cfg ext clock dc email
                 = inr (r, dc')).
Proof.
  split.
  - destruct (test (if DisposableEmailChecker.strictValidation cfg
                    then strictEmailRegex else emailRegex) email) eqn:Ht.
    + destruct (shape_of_test _ _ Ht) as (l & d & Hs).
      rewrite (simple_on_shape _ _ _ _ Ht Hs).
      destruct (254 <? len email); [eauto 6|].
      destruct (64 <? len l); [eauto 6|].
      destruct (253 <? len d); [eauto 6|].
      exists true, []. split; [reflexivity|discriminate].
    + unfold validateEmailFormat. rewrite Ht. simpl. eauto 6.
  - apply ResultFacts.performEmailCheck_returns.
Qed.

(** X16. What a valid address looks like: when [validateEmailFormat]
    accepts [email], it is [localPart@domain] with no other "@", the local
    part has 1 to 64 characters, the domain 1 to 253 and the address at
    most 254; [parseEmail] returns the two parts in lower case; and
    [isValidDomain] accepts the domain. *)
Theorem valid_email_parts (strictValidation : bool) (email : string) :
  EmailValidator.formatValid strictValidation email = true ->
  exists localPart domain,
    email = (localPart ++ "@" ++ domain)%string /\
    Js.hasChar "@" localPart = false /\ Js.hasChar "@" domain = false /\
    1 <= Js.len localPart <= 64 /\ 1 <= Js.len domain <= 253 /\ Js.len email <= 254 /\
    EmailValidator.parseEmail email
      = (Js.toLowerCase localPart, Some (Js.toLowerCase domain)) /\
    EmailValidator.isValidDomain domain = true.
Proof.
  unfold formatValid. intros Hv.
  destruct (test (if strictValidation then strictEmailRegex else emailRegex) email) eqn:Ht.
  - destruct (shape_of_test _ _ Ht) as (l & d & Hs).
    rewrite (simple_on_shape _ _ _ _ Ht Hs) in Hv.
    destruct (shape_len _ _ _ Hs) as (Hlen & Hl1 & Hd1).
    destruct (Z.ltb_spec 254 (len email)); [discriminate|].
    destruct (Z.ltb_spec 64 (len l)); [discriminate|].
    destruct (Z.ltb_spec 253 (len d)); [discriminate|].
    pose proof Hs as [He Hl Hla Hd Hda].
    exists l, d. split; [exact He|]. split; [exact Hla|]. split; [exact Hda|].
    split; [lia|]. split; [lia|]. split; [lia|]. split.
    + unfold parseEmail. rewrite FacadeFacts.split_toLowerCase, (shape_split _ _ _ Hs).
      reflexivity.
    + unfold isValidDomain. apply andb_true_iff. split; [now apply test_matches|].
      apply Z.leb_le. lia.
  - unfold validateEmailFormat in Hv. rewrite Ht in Hv. discriminate.
Qed.

Lemma valid_email_parts_witness :
  exists localPart domain,
    "Jane.Doe@Mail.Example.com"%string = (localPart ++ "@" ++ domain)%string /\
    Js.hasChar "@" localPart = false /\ Js.hasChar "@" domain = false /\
    1 <= Js.len localPart <= 64 /\ 1 <= Js.len domain <= 253 /\
    Js.len "Jane.Doe@Mail.Example.com" <= 254 /\
    EmailValidator.parseEmail "Jane.Doe@Mail.Example.com"
      = (Js.toLowerCase localPart, Some (Js.toLowerCase domain)) /\
    EmailValidator.isValidDomain domain = true.
Proof.
  apply (valid_email_parts true "Jane.Doe@Mail.Example.com"). vm_compute. reflexivity.
Defined.

(** X17. The two [EmailValidator] classes of email-validator.ts accept the
    same addresses: the optimized one, which looks for "@" with [indexOf]
    and checks the lengths before it runs the regular expression, is valid
    exactly when the simple one is.  On a valid address both [parseEmail]
    return the same domain, while the optimized one keeps the case of the
    local part that the simple one lowers. *)
Theorem validators_agree (strictValidation : bool) (email : string) :
  fst (FastEmailValidator.validateEmailFormat strictValidation email)
    = EmailValidator.formatValid strictValidation email /\
  (EmailValidator.formatValid strictValidation email = true ->
   Some (snd (FastEmailValidator.parseEmail email)) = snd (EmailValidator.parseEmail email) /\
   Js.toLowerCase (fst (FastEmailValidator.parseEmail email))
     = fst (EmailValidator.parseEmail email)).
Proof.
  destruct (test (if strictValidation then strictEmailRegex else emailRegex) email) eqn:Ht.
  - destruct (shape_of_test _ _ Ht) as (l & d & Hs).
    unfold formatValid.
    rewrite (simple_on_shape _ _ _ _ Ht Hs), (fast_on_shape _ _ _ _ Ht Hs).
    split.
    + destruct (254 <? len email); [reflexivity|].
      destruct (64 <? len l); [reflexivity|]. now destruct (253 <? len d).
    + intros _. unfold FastEmailValidator.parseEmail, parseEmail.
      destruct (shape_indexOf _ _ _ Hs) as (Hi & Hi2 & Hsl & Hsf).
      destruct (shape_len _ _ _ Hs) as (Hlen & Hl1 & Hd1).
      rewrite FacadeFacts.split_toLowerCase, (shape_split _ _ _ Hs), Hi, Hsl, Hsf.
      destruct (Z.eqb_spec (len l) (-1)); [lia|]. split; reflexivity.
  - rewrite (fast_without_test _ _ Ht). unfold formatValid, validateEmailFormat.
    rewrite Ht. simpl. split; [reflexivity|discriminate].
Qed.

Lemma validators_agree_witness :
  fst (FastEmailValidator.validateEmailFormat false "Jane.Doe@Mail.Example.com")
    = EmailValidator.formatValid false "Jane.Doe@Mail.Example.com" /\
  Some (snd (FastEmailValidator.parseEmail "Jane.Doe@Mail.Example.com"))
    = snd (EmailValidator.parseEmail "Jane.Doe@Mail.Example.com") /\
  Js.toLowerCase (fst (FastEmailValidator.parseEmail "Jane.Doe@Mail.Example.com"))
    = fst (EmailValidator.parseEmail "Jane.Doe@Mail.Example.com").
Proof.
  destruct (validators_agree false "Jane.Doe@Mail.Example.com") as [H1 H2].
  split; [exact H1|]. apply H2. vm_compute. reflexivity.
Defined.

(** X20. [analyzePatterns] (email-validator.ts lines 67-109) returns a
    score from 0 to 100, whatever patterns are configured and however
    many of them match, and the score is 0 exactly when there is no
    warning. *)
Theorem suspicious_score_is_a_percentage
    (suspiciousPatterns customPatterns : list EmailValidator.Pattern)
    (email localPart domain : string) :
  let '(suspiciousScore, warnings) :=
    EmailValidator.analyzePatterns suspiciousPatterns customPatterns
      email localPart domain in
  0 <= suspiciousScore <= 100 /\ (suspiciousScore = 0 <-> warnings = []).
Proof.
  unfold EmailValidator.analyzePatterns.
  set (acc1 := EmailValidator.scorePatterns 20 _ suspiciousPatterns email (0, [])).
  set (acc2 := EmailValidator.scorePatterns 25 _ customPatterns email acc1).
  set (acc3 := if len localPart <=? 2 then _ else acc2).
  set (acc4 := if _ || _ then _ else acc3).
  set (acc5 := if EmailValidator.digitRun 0 localPart then _ else acc4).
  assert (EmailValidator.scored acc5) as [H0 H1].
  { repeat first [apply ScoreRangeFacts.scored_add
                 |apply ScoreRangeFacts.scored_scorePatterns]; try lia.
    split; simpl; lia. }
  cbv beta iota. split; [lia|]. split.
  - intros Hz. destruct (snd acc5); [reflexivity|]. simpl in H1. lia.
  - intros Hw. rewrite Hw in H1. simpl in H1. lia.
Qed.

End ValidatorProperties.

(** ** Clearing a Bloom filter *)

Section BloomFilterProperties.
Import ClearFacts.

(** X18. A cleared Bloom filter, and a new one, holds nothing: [contains]
    is false for every string, in both [BloomFilter] classes (unless the
    filter has no hash function at all, when [contains] is true for every
    string). *)
Theorem cleared_filter_holds_nothing :
  (forall (b : BloomFilter.t) (x : string),
      BloomFilter.contains (BloomFilter.clear b) x
      = Nat.eqb (BloomFilter.numHashFunctions b) 0) /\
  (forall (m : Z) (k : nat) (x : string),
      BloomFilter.contains (BloomFilter.new m k) x = Nat.eqb k 0) /\
  (forall (b : ArrayBloomFilter.t) (x : string),
      ArrayBloomFilter.contains (ArrayBloomFilter.clear b) x
      = Nat.eqb (ArrayBloomFilter.numHashFunctions b) 0) /\
  (forall (m : Z) (k : nat) (x : string),
      ArrayBloomFilter.contains (ArrayBloomFilter.new m k) x = Nat.eqb k 0).
Proof.
  split; [|split; [|split]].
  - intros b x. unfold BloomFilter.contains.
    rewrite forallb_all_false, length_bitIndices; [reflexivity|].
    intros i. apply testBit_zeros. intros n byte Hn. simpl in Hn.
    rewrite list_lookup_fmap in Hn. destruct (BloomFilter.bitArray b !! n); now inversion Hn.
  - intros m k x. unfold BloomFilter.contains.
    rewrite forallb_all_false, length_bitIndices; [reflexivity|].
    intros i. apply testBit_zeros. intros n byte Hn. simpl in Hn.
    now apply lookup_replicate in Hn as [-> _].
  - intros b x. unfold ArrayBloomFilter.contains.
    rewrite forallb_all_false, length_indices; [reflexivity|].
    intros i. apply isSet_falses. intros n bit Hn. simpl in Hn.
    rewrite list_lookup_fmap in Hn. destruct (ArrayBloomFilter.bitArray b !! n); now inversion Hn.
  - intros m k x. unfold ArrayBloomFilter.contains.
    rewrite forallb_all_false, length_indices; [reflexivity|].
    intros i. apply isSet_falses. intros n bit Hn. simpl in Hn.
    now apply lookup_replicate in Hn as [-> _].
Qed.

End BloomFilterProperties.

(** ** Pending operations of the cache manager *)

Section CacheManagerProperties.
Import Js Types MapFacts CacheManager CacheManagerFacts PendingFacts.

(** X19. [pendingOperations] of [CacheManager] (cache-manager.ts) holds
    no key longer than a call is in flight for it.  Under every schedule
    of [get] calls, backing-store answers and resumptions, its keys are
    the keys of the suspended calls that created a promise, in their
    order; so it is never larger than the number of suspended calls, and
    it is empty once every call has returned. *)
Theorem pending_operations_follow_calls_in_flight (schedule : list CacheManager.Event) :
  let s := CacheManager.run CacheManager.initial schedule in
  map fst (CacheManager.pendingOperations s)
    = map CacheManager.callKey (List.filter CacheManager.owner (CacheManager.suspended s)) /\
  (length (CacheManager.pendingOperations s) <= length (CacheManager.suspended s))%nat /\
  (CacheManager.suspended s = [] -> CacheManager.pendingOperations s = []).
Proof.
  intros s.
  pose proof (pending_keys_run schedule initial consistent_initial eq_refl) as HJ.
  fold s in HJ. split; [exact HJ|]. split.
  - rewrite <- (length_map fst), HJ. unfold ownerKeys. rewrite length_map.
    apply MemoryCacheFacts.length_filter_le.
  - intros Hs. rewrite Hs in HJ. simpl in HJ. now destruct (pendingOperations s).
Qed.

Lemma pending_operations_follow_calls_in_flight_witness :
  let schedule :=
    [CacheManager.Invoke "a@b.co"; CacheManager.Invoke "a@b.co";
     CacheManager.BackendSettles 0 CacheManager.Rejected;
     CacheManager.Resume 1; CacheManager.Resume 0] in
  CacheManager.pendingOperations (CacheManager.run CacheManager.initial schedule) = [].
Proof.
  intros schedule.
  apply (pending_operations_follow_calls_in_flight schedule). reflexivity.
Defined.

End CacheManagerProperties.

(** ** Results, reports and counters *)

Section FacadeProperties.
Import Js Types MapFacts Checker DisposableEmailChecker FacadeFacts ReportFacts
  ValidatorFacts ResultFacts ListChangeFacts.

(** X21. The counts of a validation report add up.  For results that
    [checkEmail] returned (in any reachable state of the checker, cache
    hits included), the summary of [generateValidationReport] (part_002)
    has valid + invalid = total, and allowed + disposable <= valid and
    blacklisted <= valid: no result is both allowed and disposable, and a
    result that is allowed, disposable or blacklisted is valid. *)
Theorem report_counts_add_up
    (cfg : DisposableEmailChecker.Config) (ext : DisposableEmailChecker.Collaborators)
    (results : list Types.EmailValidationResult) :
  Forall (fun r => exists st clock email,
              DisposableEmailChecker.reachable cfg ext st /\
              r = fst (DisposableEmailChecker.checkEmail cfg ext clock st email))
         results ->
  let s := AnalyticsEngine.summary results in
  AnalyticsEngine.valid s + AnalyticsEngine.invalid s = AnalyticsEngine.total s /\
  AnalyticsEngine.allowed s + AnalyticsEngine.disposable s <= AnalyticsEngine.valid s /\
  AnalyticsEngine.blacklisted s <= AnalyticsEngine.valid s.
Proof.
  intros Hall s. split; [apply summary_total|]. apply summary_flags.
  eapply Forall_impl; [exact Hall|].
  intros r (st & clock & email & Hr & ->). now apply checkEmail_flags.
Qed.

Lemma report_counts_add_up_witness :
  let cfg := DisposableEmailChecker.mkConfig false true false false
               (Checker.mkConfig {["mailinator.com"%string]} {["example.org"%string]} ∅ []
                  true None None Checker.hash) in
  let ext := DisposableEmailChecker.mkCollaborators (fun _ _ _ => (0, []))
               (fun _ => Some true) in
  let clock := DisposableEmailChecker.mkClock 10 11 1 in
  let st0 := DisposableEmailChecker.mkState (MemoryCache.new None None) [] in
  let st1 := snd (DisposableEmailChecker.checkEmail cfg ext clock st0 "a@mailinator.com") in
  let s := AnalyticsEngine.summary
             [fst (DisposableEmailChecker.checkEmail cfg ext clock st0 "a@mailinator.com");
              fst (DisposableEmailChecker.checkEmail cfg ext clock st1 "b@example.org");
              fst (DisposableEmailChecker.checkEmail cfg ext clock st1 "not an address")] in
  AnalyticsEngine.valid s + AnalyticsEngine.invalid s = AnalyticsEngine.total s /\
  AnalyticsEngine.allowed s + AnalyticsEngine.disposable s <= AnalyticsEngine.valid s /\
  AnalyticsEngine.blacklisted s <= AnalyticsEngine.valid s.
Proof.
  intros cfg ext clock st0 st1.
  apply (report_counts_add_up cfg ext).
  repeat constructor.
  - exists st0, clock, "a@mailinator.com"%string. split; [constructor|reflexivity].
  - exists st1, clock, "b@example.org"%string.
    split; [apply reachable_checkEmail; constructor|reflexivity].
  - exists st1, clock, "not an address"%string.
    split; [apply reachable_checkEmail; constructor|reflexivity].
Defined.

(** X22. The counters of [MetricsManager] (part_003) stay consistent:
    after any sequence of [updateMetrics] and [reset] calls, successful +
    failed <= total, and each of the disposable, allowed and blacklisted
    counters is between 0 and the number of successful validations. *)
Theorem metrics_counters_stay_consistent (calls : list MetricsManager.Call) :
  let m := fold_left MetricsManager.after calls MetricsManager.initializeMetrics in
  MetricsManager.successfulValidations m + MetricsManager.failedValidations m
    <= MetricsManager.totalValidations m /\
  0 <= MetricsManager.disposableDetected m <= MetricsManager.successfulValidations m /\
  0 <= MetricsManager.allowedOverrides m <= MetricsManager.successfulValidations m /\
  0 <= MetricsManager.blacklistedDetected m <= MetricsManager.successfulValidations m.
Proof.
  intros m.
  assert (MetricsManager.countersConsistent MetricsManager.initializeMetrics) as H0
    by (unfold MetricsManager.countersConsistent; simpl; lia).
  pose proof (MetricsFacts.countersConsistent_run calls _ H0) as H.
  fold m in H. unfold MetricsManager.countersConsistent in H. tauto.
Qed.

(** X23. The confidence of every result is a percentage, as types.ts
    documents it ("0-100"): when the pattern score is at most 100,
    [checkEmail] returns a confidence from 0 to 100 in every reachable
    state of the checker, whether the result is computed or comes from the
    cache. *)
Theorem confidence_is_a_percentage
    (cfg : DisposableEmailChecker.Config) (ext : DisposableEmailChecker.Collaborators)
    (st : DisposableEmailChecker.State) (clock : DisposableEmailChecker.Clock)
    (email : string) :
  (forall e l d, fst (DisposableEmailChecker.analyzePatterns ext e l d) <= 100) ->
  DisposableEmailChecker.reachable cfg ext st ->
  0 <= Types.confidence (fst (DisposableEmailChecker.checkEmail cfg ext clock st email))
    <= 100.
Proof.
  intros Hext Hr. apply checkEmail_confidence; [exact Hext|].
  now apply (reachable_confidenceBounded cfg ext).
Qed.

Lemma confidence_is_a_percentage_witness :
  let cfg := DisposableEmailChecker.mkConfig false true true true
               (Checker.mkConfig {["mailinator.com"%string]} ∅ ∅ []
                  true None None Checker.hash) in
  let ext := DisposableEmailChecker.mkCollaborators
               (EmailValidator.analyzePatterns [] []) (fun _ => Some false) in
  let clock := DisposableEmailChecker.mkClock 10 11 1 in
  let st := DisposableEmailChecker.mkState (MemoryCache.new None None) [] in
  0 <= Types.confidence
         (fst (DisposableEmailChecker.checkEmail cfg ext clock st "ab@x-temp-y.example"))
    <= 100.
Proof.
  intros cfg ext clock st.
  apply (confidence_is_a_percentage cfg ext st clock "ab@x-temp-y.example").
  - intros e l d. apply Z.le_min_r.
  - constructor.
Defined.

(** X24. A repeated check is served from the cache, whatever has been
    added to the lists in between.  With caching on, a result cache that
    has room and does not hold the address yet, and a second call within
    the default ttl of the first, the second [checkEmail] of the same
    address returns the fields of the first result, with its own
    [validationTime], also after [addToAllowlist] and [addToBlacklist]
    calls: these leave the result cache as it is, so that an address
    checked before its domain was put on a list keeps its old result.
    The second call does not touch the domain cache. *)
Theorem repeated_check_is_served_from_cache
    (cfg : DisposableEmailChecker.Config) (ext : DisposableEmailChecker.Collaborators)
    (clock1 clock2 : DisposableEmailChecker.Clock) (st : DisposableEmailChecker.State)
    (changes : list DisposableEmailChecker.ListChange) (email : string) :
  DisposableEmailChecker.enableCaching cfg = true ->
  MemoryCache.has (DisposableEmailChecker.resultCache st) email = false ->
  Z.of_nat (length (MemoryCache.cache (DisposableEmailChecker.resultCache st)))
    < MemoryCache.maxSize (DisposableEmailChecker.resultCache st) ->
  DisposableEmailChecker.nowGet clock2 - DisposableEmailChecker.nowSet clock1
    <= MemoryCache.defaultTtl (DisposableEmailChecker.resultCache st) ->
  let '(r1, st1) := DisposableEmailChecker.checkEmail cfg ext clock1 st email in
  let '(cfg', st1') := fold_left DisposableEmailChecker.change changes (cfg, st1) in
  let '(r2, st2) := DisposableEmailChecker.checkEmail cfg' ext clock2 st1' email in
  r2 = Types.mkResult (Types.email r1) (Types.isValid r1) (Types.isDisposable r1)
         (Types.isAllowed r1) (Types.isBlacklisted r1) (Types.domain r1)
         (Types.localPart r1) (Types.matchType r1) (Types.confidence r1)
         (Types.source r1) (DisposableEmailChecker.elapsed clock2) (Types.errors r1)
         (Types.warnings r1) /\
  DisposableEmailChecker.domainCache st2 = DisposableEmailChecker.domainCache st1'.
Proof.
  intros Hcache Hmiss Hroom Hfresh.
  unfold checkEmail at 1. rewrite Hcache.
  assert (MemoryCache.get (nowGet clock1) (resultCache st) email = (None, resultCache st))
    as ->.
  { unfold MemoryCache.get. unfold MemoryCache.has, mapHas in Hmiss.
    now destruct (mapGet email (MemoryCache.cache (resultCache st))). }
  destruct (performEmailCheck_returns cfg ext clock1 (domainCache st) email)
    as (r1 & dc' & ->).
  set (st1 := mkState (MemoryCache.set (nowSet clock1) (resultCache st) email r1 None) dc').
  destruct (change_keeps changes (cfg, st1)) as [Hrc Hen].
  destruct (fold_left change changes (cfg, st1)) as [cfg' st1'].
  simpl in Hrc, Hen.
  unfold checkEmail. rewrite Hen, Hcache, Hrc.
  assert (MemoryCache.get (nowGet clock2)
            (MemoryCache.set (nowSet clock1) (resultCache st) email r1 None) email
          = (Some r1,
             snd (MemoryCache.get (nowGet clock2)
                    (MemoryCache.set (nowSet clock1) (resultCache st) email r1 None) email)))
    as ->.
  { unfold MemoryCache.set.
    destruct (Z.leb_spec (MemoryCache.maxSize (resultCache st))
                (Z.of_nat (length (MemoryCache.cache (resultCache st))))); [lia|].
    unfold MemoryCache.get. cbn [MemoryCache.cache].
    rewrite mapGet_mapSet_eq. cbn [MemoryCache.ttl MemoryCache.timestamp MemoryCache.result].
    unfold MemoryCache.orDefault.
    destruct (Z.ltb_spec (MemoryCache.defaultTtl (resultCache st))
                (nowGet clock2 - nowSet clock1)); [lia|].
    rewrite andb_false_r. reflexivity. }
  split; reflexivity.
Qed.

Lemma repeated_check_is_served_from_cache_witness :
  let cfg := DisposableEmailChecker.mkConfig false true false false
               (Checker.mkConfig {["mailinator.com"%string]} ∅ ∅ []
                  true None None Checker.hash) in
  let ext := DisposableEmailChecker.mkCollaborators (fun _ _ _ => (0, []))
               (fun _ => Some true) in
  let clock1 := DisposableEmailChecker.mkClock 1000 1001 3 in
  let clock2 := DisposableEmailChecker.mkClock 5000 5001 1 in
  let st := DisposableEmailChecker.mkState (MemoryCache.new None None) [] in
  let '(r1, st1) := DisposableEmailChecker.checkEmail cfg ext clock1 st "a@mailinator.com" in
  let '(cfg', st1') :=
    fold_left DisposableEmailChecker.change
      [DisposableEmailChecker.AddToAllowlist "mailinator.com"] (cfg, st1) in
  let '(r2, st2) := DisposableEmailChecker.checkEmail cfg' ext clock2 st1' "a@mailinator.com" in
  r2 = Types.mkResult (Types.email r1) (Types.isValid r1) (Types.isDisposable r1)
         (Types.isAllowed r1) (Types.isBlacklisted r1) (Types.domain r1)
         (Types.localPart r1) (Types.matchType r1) (Types.confidence r1)
         (Types.source r1) (DisposableEmailChecker.elapsed clock2) (Types.errors r1)
         (Types.warnings r1) /\
  DisposableEmailChecker.domainCache st2 = DisposableEmailChecker.domainCache st1'.
Proof.
  intros cfg ext clock1 clock2 st.
  apply (repeated_check_is_served_from_cache cfg ext clock1 clock2 st
           [DisposableEmailChecker.AddToAllowlist "mailinator.com"] "a@mailinator.com").
  - reflexivity.
  - reflexivity.
  - simpl. lia.
  - simpl. lia.
Defined.

End FacadeProperties.

(** ** Loading and saving the domain lists *)

Section DataLoaderProperties.
Import Js DataLoaderFacts.

(** X25. What the loaders of part_004 return, whatever the file or the
    download holds.  The domains of a loaded set are distinct, and each of
    them satisfies [isValidDomain], is in lower case and does not begin
    with ".": so [splitDomainReverse] of the pooled trie, which does not
    return on a leading ".", returns its labels, and a trie can be built
    from every loaded set.  [loadDisposableDomains] throws only when the
    local file exists and cannot be read. *)
Theorem loaded_domains_are_well_formed
    (file localFile : DataLoader.File) (autoUpdate : bool)
    (download : DataLoader.Download) :
  let wellFormed (domainsSet : list string) :=
    NoDup domainsSet /\
    forall d, In d domainsSet ->
      DataLoader.isValidDomain d = true /\ Js.toLowerCase d = d /\
      PooledTrieIndex.splitDomainReverse d = Some (TrieIndex.reverseParts d) in
  wellFormed (DataLoader.loadAllowlist file) /\
  wellFormed (DataLoader.loadBlacklist file) /\
  match DataLoader.loadDisposableDomains localFile autoUpdate download with
  | Some (domainsSet, _) => localFile <> DataLoader.Unreadable /\ wellFormed domainsSet
  | None => localFile = DataLoader.Unreadable
  end.
Proof.
  intros wellFormed.
  assert (forall domains, wellFormed (DataLoader.validDomains domains)) as Hw.
  { intros domains. split; [apply validDomains_NoDup|]. intros d Hd.
    apply validDomains_stored in Hd as [Hv Hl]. split; [exact Hv|]. split; [exact Hl|].
    apply SplitAgreeFacts.splitDomainReverse_reverseParts. now apply valid_leadingDot. }
  assert (wellFormed []) as Hnil by (split; [constructor|intros d []]).
  assert (forall f, wellFormed (DataLoader.loadList f)) as Hlist.
  { intros [| |content]; simpl; [exact Hnil|exact Hnil|apply Hw]. }
  split; [apply Hlist|]. split; [apply Hlist|].
  unfold DataLoader.loadDisposableDomains.
  destruct localFile as [| |content]; [|reflexivity|].
  - destruct (autoUpdate || _), download as [|body]; simpl;
      try (split; [discriminate|apply Hw]).
    destruct (_ <? _)%nat; split; try discriminate; apply Hw.
  - destruct (autoUpdate || _), download as [|body]; simpl;
      try (split; [discriminate|apply Hw]).
    destruct (_ <? _)%nat; split; try discriminate; apply Hw.
Qed.

(** X26. A saved set loads back.  For a set of valid domains in lower
    case, the file [saveDomains] writes (the domains sorted, one on each
    line) is loaded again by [loadAllowlist] and [loadBlacklist] as the
    same set, in sorted order. *)
Theorem saved_domains_load_back (domains : list string) :
  NoDup domains ->
  Forall (fun d => DataLoader.isValidDomain d = true /\ Js.toLowerCase d = d) domains ->
  DataLoader.loadAllowlist (DataLoader.Readable (DataLoader.saveDomains domains))
    = DataLoader.sort domains /\
  DataLoader.loadBlacklist (DataLoader.Readable (DataLoader.saveDomains domains))
    = DataLoader.sort domains /\
  Permutation (DataLoader.sort domains) domains.
Proof.
  intros Hnd Hall.
  assert (Permutation (DataLoader.sort domains) domains) as Hp by apply sort_perm.
  assert (Forall DataLoader.stored (DataLoader.sort domains)) as Hs.
  { apply Forall_forall. intros d Hd. rewrite Forall_forall in Hall. apply Hall.
    apply list_elem_of_In. apply list_elem_of_In in Hd. now rewrite <- Hp. }
  assert (DataLoader.loadList (DataLoader.Readable (DataLoader.saveDomains domains))
          = DataLoader.sort domains) as Hload.
  { unfold DataLoader.loadList, DataLoader.saveDomains.
    rewrite lines_join by (eapply Forall_impl; [exact Hs|]; now intros d [Hv _]).
    apply validDomains_stored_id; [exact Hs|]. now rewrite Hp. }
  split; [exact Hload|]. split; [exact Hload|exact Hp].
Qed.

Lemma saved_domains_load_back_witness :
  DataLoader.loadAllowlist
    (DataLoader.Readable
       (DataLoader.saveDomains ["yopmail.com"; "mailinator.com"; "10minutemail.com"]%string))
  = ["10minutemail.com"; "mailinator.com"; "yopmail.com"]%string.
Proof.
  destruct (saved_domains_load_back
              ["yopmail.com"; "mailinator.com"; "10minutemail.com"]%string) as [H _].
  - apply (bool_decide_unpack _). vm_compute. exact I.
  - repeat constructor.
  - exact H.
Defined.

(** X27. The downloaded list is kept faithfully.  When
    [loadDisposableDomains] writes the downloaded domains to the local
    file, a later call that reads this file returns the same set and
    writes nothing: without auto-update whatever the download would give,
    and with auto-update when the download gives the same body or
    fails. *)
Theorem downloaded_domains_load_back
    (localFile : DataLoader.File) (autoUpdate autoUpdate' : bool)
    (body content : string) (download' : DataLoader.Download)
    (domainsSet : list string) :
  DataLoader.loadDisposableDomains localFile autoUpdate (DataLoader.Body body)
    = Some (domainsSet, Some content) ->
  autoUpdate' = false \/ download' = DataLoader.Failed \/ download' = DataLoader.Body body ->
  DataLoader.loadDisposableDomains (DataLoader.Readable content) autoUpdate' download'
    = Some (domainsSet, None).
Proof.
  intros Hfirst Hsecond.
  assert (content = join (String "010" "") (DataLoader.lines body) /\
          domainsSet = DataLoader.validDomains (DataLoader.lines body) /\
          DataLoader.lines body <> []) as (-> & -> & Hne).
  { unfold DataLoader.loadDisposableDomains in Hfirst.
    destruct localFile as [| |local]; [|discriminate|].
    - destruct (autoUpdate || _); [|discriminate]. simpl in Hfirst.
      destruct (DataLoader.lines body); [discriminate|]. simpl in Hfirst.
      injection Hfirst as <- <-. repeat split. discriminate.
    - destruct (autoUpdate || _); [|discriminate].
      destruct (Nat.ltb_spec (length (DataLoader.lines local))
                  (length (DataLoader.lines body))) as [Hlt|]; [|discriminate].
      injection Hfirst as <- <-. repeat split.
      destruct (DataLoader.lines body); [simpl in Hlt; lia|discriminate]. }
  unfold DataLoader.loadDisposableDomains. rewrite lines_join_lines.
  destruct (DataLoader.lines body) as [|l ls] eqn:El; [contradiction|].
  rewrite orb_false_r.
  destruct Hsecond as [->|[->| ->]]; [reflexivity|now destruct autoUpdate'|].
  destruct autoUpdate'; [|reflexivity]. rewrite El, Nat.ltb_irrefl. reflexivity.
Qed.

Lemma downloaded_domains_load_back_witness :
  let body := String.concat (String "010" "")
                ["Mailinator.com "; ""; "not a domain"; " yopmail.com"]%string in
  exists content,
    DataLoader.loadDisposableDomains DataLoader.Missing false (DataLoader.Body body)
      = Some (["mailinator.com"; "yopmail.com"]%string, Some content) /\
    DataLoader.loadDisposableDomains (DataLoader.Readable content) true (DataLoader.Body body)
      = Some (["mailinator.com"; "yopmail.com"]%string, None).
Proof.
  intros body.
  exists (join (String "010" "") (DataLoader.lines body)).
  split; [reflexivity|].
  apply (downloaded_domains_load_back DataLoader.Missing false true body _
           (DataLoader.Body body)).
  - reflexivity.
  - right. right. reflexivity.
Defined.

End DataLoaderProperties.

(** ** The cache factories *)

Section RegistryProperties.
Import Js MapFacts RegistryFacts.

(** X28. [CacheFactoryRegistry.create] (part_006) falls back to the
    default factory.  After any [register], [setDefault] and [unregister]
    calls of which none unregisters the type that is the default at that
    moment, [create] returns for every type: with the factory registered
    for the type, and for a type that is not registered with the factory
    of the default type.  [setDefault] keeps this, as it throws for a type
    that is not registered. *)
Theorem create_falls_back_to_default
    (calls : list CacheFactoryRegistry.Call) (type : option string) (fuel : nat) :
  CacheFactoryRegistry.keepsDefault CacheFactoryRegistry.initial calls = true ->
  let r := fold_left CacheFactoryRegistry.after calls CacheFactoryRegistry.initial in
  exists fallback,
    Js.mapGet (CacheFactoryRegistry.defaultFactory r) (CacheFactoryRegistry.factories r)
      = Some fallback /\
    CacheFactoryRegistry.create (S (S fuel)) r type
      = Some (match type with
              | Some t =>
                  match Js.mapGet t (CacheFactoryRegistry.factories r) with
                  | Some factory => factory
                  | None => fallback
                  end
              | None => fallback
              end).
Proof.
  intros Hk r.
  pose proof (defaultRegistered_run calls _ Hk eq_refl) as Hd. fold r in Hd.
  unfold mapHas in Hd.
  destruct (mapGet (CacheFactoryRegistry.defaultFactory r)
              (CacheFactoryRegistry.factories r)) as [fallback|] eqn:Hf; [|discriminate].
  exists fallback. split; [reflexivity|].
  unfold CacheFactoryRegistry.create. destruct type as [t|]; simpl.
  - destruct (mapGet t (CacheFactoryRegistry.factories r)); [reflexivity|].
    now rewrite Hf.
  - now rewrite Hf.
Qed.

Lemma create_falls_back_to_default_witness :
  let r := fold_left CacheFactoryRegistry.after
             [CacheFactoryRegistry.CallRegister "redis"
                (CacheFactoryRegistry.CustomFactory "redis");
              CacheFactoryRegistry.CallSetDefault "filesystem";
              CacheFactoryRegistry.CallSetDefault "noop";
              CacheFactoryRegistry.CallUnregister "memory"]
             CacheFactoryRegistry.initial in
  CacheFactoryRegistry.create 2 r (Some "memory"%string)
  = Some CacheFactoryRegistry.NoOpCacheFactory.
Proof.
  intros r.
  destruct (create_falls_back_to_default
              [CacheFactoryRegistry.CallRegister "redis"
                 (CacheFactoryRegistry.CustomFactory "redis");
               CacheFactoryRegistry.CallSetDefault "filesystem";
               CacheFactoryRegistry.CallSetDefault "noop";
               CacheFactoryRegistry.CallUnregister "memory"]
              (Some "memory"%string) 0) as (fallback & Hf & Hc).
  - reflexivity.
  - injection Hf as <-. exact Hc.
Defined.

(** X29. Without its default factory the registry cannot make a cache for
    an unknown type: when neither the type nor the default type is
    registered, as after [unregister] of the default, [create] calls
    itself again and again and does not return, however deep the calls may
    go. *)
Theorem create_without_default_does_not_return
    (r : CacheFactoryRegistry.t) (type : string) (fuel : nat) :
  Js.mapGet type (CacheFactoryRegistry.factories r) = None ->
  Js.mapGet (CacheFactoryRegistry.defaultFactory r) (CacheFactoryRegistry.factories r)
    = None ->
  CacheFactoryRegistry.create fuel r (Some type) = None /\
  CacheFactoryRegistry.create fuel r None = None.
Proof.
  intros Ht Hd. unfold CacheFactoryRegistry.create.
  assert (forall n t, mapGet t (CacheFactoryRegistry.factories r) = None ->
                      CacheFactoryRegistry.createFuel n r t = None) as H.
  { induction n as [|n IH]; intros t Hn; simpl; [reflexivity|]. rewrite Hn. now apply IH. }
  split; now apply H.
Qed.

Lemma create_without_default_does_not_return_witness :
  let r := snd (CacheFactoryRegistry.unregister CacheFactoryRegistry.initial "memory") in
  CacheFactoryRegistry.create 1000 r (Some "redis"%string) = None /\
  CacheFactoryRegistry.create 1000 r None = None.
Proof.
  intros r. apply (create_without_default_does_not_return r "redis" 1000); reflexivity.
Defined.

End RegistryProperties.

(** ** The edit distance *)

Section DistanceProperties.
Import Js DistanceFacts.

(** X30. The matrix of [calculateSimilarity] (part_002) ends with an edit
    distance: [matrix[len2][len1]] is at least the difference of the two
    lengths and at most the larger of them, and it is 0 exactly when the
    two strings are equal.  So the similarity, [(maxLen - distance) /
    maxLen], lies between 0 and 1 and is 1 for equal strings only. *)
Theorem edit_distance_bounds (str1 str2 : string) :
  let distance := AnalyticsEngine.distance str1 str2 in
  Z.abs (Js.len str1 - Js.len str2) <= distance <= Z.max (Js.len str1) (Js.len str2) /\
  (distance = 0 <-> str1 = str2).
Proof.
  intros distance.
  pose proof (lastRow_ok str1 "" str2 _ (firstRow_ok str1)) as Hrow.
  apply rowOk_last in Hrow. simpl in Hrow.
  change (AnalyticsEngine.lastRow str1 str2 (len "" + 1) (AnalyticsEngine.firstRow str1))
    with (AnalyticsEngine.lastRow str1 str2 1 (AnalyticsEngine.firstRow str1)) in Hrow.
  fold (AnalyticsEngine.distance str1 str2) in Hrow. fold distance in Hrow.
  change ("" ++ str2)%string with str2 in Hrow. change ("" ++ str1)%string with str1 in Hrow.
  destruct Hrow as [Hb H0]. split; [lia|]. rewrite H0. split; congruence.
Qed.

End DistanceProperties.
